(** * Helium: the table DAO of the server (routes/api/tables.queries.ts)

    A shallow embedding of [TableDao]: type inference on raw catalog types,
    default values, enum values, constraint listing and resolution, header
    listing, metadata assembly and multi-table insertion.

    Conventions of the embedding.
    - A JavaScript string is a [string] (a sequence of 8-bit characters, the
      UTF-8 bytes of the text).  All the literals the DAO searches for are
      ASCII, so [includes], [startsWith] and [===] agree with their UTF-16
      versions.
    - [null] is [None].
    - A promise is a computation in the monad [M]: it reads and writes the
      store through the database helper, records every statement it sends,
      and is fulfilled, rejected, or still pending when the fuel of an
      unbounded loop runs out.
    - The modules the DAO imports (the database helper, the shared
      constants, the table-name class, the input validator) are interfaces
      the development is parametrised by.
    - [schemas] and [columnContent] are not embedded.
    - Two functions of the client (client/app/app.component.ts) are embedded
      as well: the choice of the default schema and the grouping of the
      table names by tier. *)

From Stdlib Require Import String Ascii ZArith List Lia.
From stdpp Require Import base tactics option list strings gmap sorting.

Open Scope string_scope.
Open Scope list_scope.

(** ** JavaScript and lodash primitives used by the DAO *)

Module Js.

(** [s.startsWith(p)] *)
Definition startsWith (s p : string) : bool := String.prefix p s.

(** [s.includes(sub)] *)
Fixpoint includes (s sub : string) : bool :=
  startsWith s sub ||
  match s with
  | EmptyString => false
  | String _ s' => includes s' sub
  end.

(** [s.endsWith(p)] *)
Fixpoint endsWith (s p : string) : bool :=
  String.eqb s p ||
  match s with
  | EmptyString => false
  | String _ s' => endsWith s' p
  end.

(** The first [n] characters of [s] removed. *)
Fixpoint drop (n : nat) (s : string) : string :=
  match n, s with
  | O, _ => s
  | S n', String _ s' => drop n' s'
  | S _, EmptyString => EmptyString
  end.

(** [s.split(sep)] for a non-empty separator: [cur] holds, reversed, the
    characters of the piece being read. *)
Fixpoint split_go (fuel : nat) (sep : string) (cur : string) (s : string)
  : list string :=
  match fuel with
  | O => [String.rev cur]
  | S fuel' =>
      match s with
      | EmptyString => [String.rev cur]
      | String a s' =>
          if startsWith s sep
          then String.rev cur :: split_go fuel' sep EmptyString (drop (String.length sep) s)
          else split_go fuel' sep (String a cur) s'
      end
  end.

Definition split (s sep : string) : list string :=
  split_go (S (String.length s)) sep EmptyString s.

(** [_.find(collection, predicate)] on an array. *)
Definition find {A} (collection : list A) (predicate : A -> bool) : option A :=
  List.find predicate collection.

(** [_.sortBy(collection)] on an array of strings: a stable ascending sort
    under the order of [<] on strings, which compares character by
    character. *)
Fixpoint sortBy_insert (x : string) (sorted : list string) : list string :=
  match sorted with
  | [] => [x]
  | y :: rest =>
      if String.ltb x y then x :: y :: rest else y :: sortBy_insert x rest
  end.

Definition sortBy (collection : list string) : list string :=
  fold_right sortBy_insert [] (rev collection).

(** Property names every object literal inherits from [Object.prototype]:
    [obj[key]] is a function (or the prototype itself) for these keys even
    when [obj] has no own property. *)
Definition inherited_keys : list string :=
  [ "constructor"; "__defineGetter__"; "__defineSetter__"; "hasOwnProperty";
    "__lookupGetter__"; "__lookupSetter__"; "isPrototypeOf";
    "propertyIsEnumerable"; "toString"; "valueOf"; "__proto__";
    "toLocaleString" ].

Definition inherited (key : string) : bool :=
  existsb (String.eqb key) inherited_keys.

(** Interpolation of a possibly-null string in a template literal. *)
Definition show (s : option string) : string :=
  match s with
  | Some v => v
  | None => "null"
  end.

End Js.

(** Declarative readings of the string tests. *)
Definition contains (s sub : string) : Prop :=
  exists pre post, s = pre +:+ sub +:+ post.

Definition starts_with (s p : string) : Prop :=
  exists post, s = p +:+ post.

(** ** Exceptions and results *)

(** A thrown value: [Error(message)], a [TypeError] of the runtime, or an
    error of the store passed through by the database helper. *)
Inductive exn : Type :=
| Error (message : string)
| TypeError (message : string)
| StoreError (message : string).

(** The result of a synchronous function that may throw. *)
Inductive result (A : Type) : Type :=
| Ok (value : A)
| Throw (e : exn).
Arguments Ok {A} value.
Arguments Throw {A} e.

(** ** Numbers

    The DAO writes the literals 0 and 1 and calls the parsing builtins; it
    never computes with their results.  A number is therefore kept as the
    literal or the call that yields it (IEEE doubles themselves are outside
    the embedding). *)
Inductive number : Type :=
| Literal (z : Z)
| parseInt (x : option string) (radix : Z)
| parseFloat (x : option string).

(** ** common/api: the data model *)

Inductive TableDataType : Type :=
| string_t | integer | float | boolean | date | datetime | enum | blob.

Inductive ConstraintType : Type := primary | unique | foreign.

Global Instance TableDataType_eq_dec : EqDecision TableDataType.
Proof. solve_decision. Defined.

Global Instance ConstraintType_eq_dec : EqDecision ConstraintType.
Proof. solve_decision. Defined.

Module Constraint.
Record t : Type := mk {
  type : ConstraintType;
  localColumn : string;
  foreignTable : option string;
  foreignColumn : option string;
}.
End Constraint.
Abbreviation Constraint := Constraint.t.

Global Instance Constraint_eq_dec : EqDecision Constraint.
Proof. solve_decision. Defined.

(** [DefaultValue]: a named constant, a number, the boolean [!!n] of a
    number, a string or [null]. *)
Inductive DefaultValue : Type :=
| DConstant (constantName : string)
| DNumber (n : number)
| DNotNot (n : number)
| DString (s : string)
| DNull.

Module TableHeader.
Record t : Type := mk {
  name : string;
  type : TableDataType;
  isNumerical : bool;
  isTextual : bool;
  signed : bool;
  ordinalPosition : Z;
  rawType : string;
  defaultValue : DefaultValue;
  nullable : bool;
  maxCharacters : option Z;
  charset : option string;
  numericPrecision : option Z;
  numericScale : option Z;
  enumValues : option (list string);
  comment : string;
  tableName : string;
}.
End TableHeader.
Abbreviation TableHeader := TableHeader.t.

(** ** TypeInferencer: the static helpers of [TableDao] *)

Section TypeInference.

(** The [CURRENT_TIMESTAMP] constant of common/constants. *)
Variable CURRENT_TIMESTAMP : string.

Definition parseType (rawType : string) : result TableDataType :=
  if Js.includes rawType "tinyint(1)" then Ok boolean
  else if Js.includes rawType "int" then Ok integer
  else if Js.includes rawType "double" || Js.includes rawType "float"
          || Js.includes rawType "decimal" then Ok float
  else if String.eqb rawType "date" then Ok date
  else if String.eqb rawType "datetime" || String.eqb rawType "timestamp"
       then Ok datetime
  else if Js.startsWith rawType "enum" then Ok enum
  else if Js.includes rawType "char" then Ok string_t
  else if Js.includes rawType "blob" then Ok blob
  else Throw (Error ("Could not determine TableDataType for raw type '"
                       +:+ rawType +:+ "'")).

(** A null [rawDefault] passed through stays null. *)
Definition passThrough (rawDefault : option string) : DefaultValue :=
  match rawDefault with
  | Some s => DString s
  | None => DNull
  end.

(** The [switch] covers the eight members of [TableDataType], so the
    [throw] that follows it is never reached. *)
Definition identifyDefaultValue (rawType : string) (type : TableDataType)
    (rawDefault : option string) : DefaultValue :=
  if bool_decide (rawDefault = Some CURRENT_TIMESTAMP)
     && String.eqb rawType "datetime"
  then DConstant CURRENT_TIMESTAMP
  else
    match type with
    | integer => DNumber (parseInt rawDefault 10)
    | float => DNumber (parseFloat rawDefault)
    | boolean => DNotNot (parseInt rawDefault 10)
    | string_t | enum | date | datetime => passThrough rawDefault
    | blob => DNull
    end.

(** The characters [.] does not match in a regular expression: LF, CR and
    the UTF-8 encodings of U+2028 and U+2029. *)
Definition lineTerminators : list string :=
  [ String "010"%char EmptyString; String "013"%char EmptyString;
    String "226"%char (String "128"%char (String "168"%char EmptyString));
    String "226"%char (String "128"%char (String "169"%char EmptyString)) ].

(** [raw.match] against the anchored pattern: the text [enum], an opening
    parenthesis and a quote, then a greedy group of characters other than
    line terminators, then a quote and a closing parenthesis at the end of the
    input.  The result is the captured group, if the string matches. *)
Definition matchEnum (raw : string) : option string :=
  let inner := String.substring 6 (String.length raw - 8) raw in
  if Js.startsWith raw "enum('" && Js.endsWith raw "')"
     && (8 <=? String.length raw)%nat
     && negb (existsb (Js.includes inner) lineTerminators)
  then Some inner
  else None.

Definition findEnumValues (raw : string) : result (option (list string)) :=
  if negb (Js.startsWith raw "enum(") then Ok None
  else
    match matchEnum raw with
    | None => Throw (Error ("Expecting a match from input string " +:+ raw))
    | Some group => Ok (Some (Js.split group "','"))
    end.

End TypeInference.

(** ** The store: catalog relations and rows *)

(** A value stored in a row. *)
Inductive JsValue : Type :=
| VBoolean (b : bool)
| VNumber (n : number)
| VString (s : string)
| VNull.

(** [SqlRow]: an object from column names to values, in the order
    [Object.keys] enumerates it. *)
Definition SqlRow : Type := list (string * JsValue).

Module Columns.
Record row : Type := mk {
  TABLE_SCHEMA : string;
  TABLE_NAME : string;
  COLUMN_NAME : string;
  ORDINAL_POSITION : Z;
  IS_NULLABLE : string;
  DATA_TYPE : string;
  CHARACTER_MAXIMUM_LENGTH : option Z;
  NUMERIC_SCALE : option Z;
  NUMERIC_PRECISION : option Z;
  CHARACTER_SET_NAME : option string;
  COLUMN_TYPE : string;
  COLUMN_COMMENT : string;
  COLUMN_DEFAULT : option string;
}.
End Columns.

Module KeyColumnUsage.
Record row : Type := mk {
  CONSTRAINT_SCHEMA : string;
  TABLE_NAME : string;
  COLUMN_NAME : string;
  CONSTRAINT_NAME : string;
  ORDINAL_POSITION : Z;
  REFERENCED_TABLE_NAME : option string;
  REFERENCED_COLUMN_NAME : option string;
}.
End KeyColumnUsage.

Module Tables.
Record row : Type := mk {
  TABLE_SCHEMA : string;
  TABLE_NAME : string;
  TABLE_COMMENT : string;
}.
End Tables.

(** The three relations of INFORMATION_SCHEMA the DAO selects from. *)
Record Catalog : Type := {
  COLUMNS : list Columns.row;
  KEY_COLUMN_USAGE : list KeyColumnUsage.row;
  TABLES : list Tables.row;
}.

(** ** SQL operators of the catalog queries *)

Module Sql.

(** [ORDER BY key]: ascending; rows with equal keys keep the order of the
    relation. *)
Fixpoint orderBy_insert {A} (key : A -> Z) (x : A) (sorted : list A) : list A :=
  match sorted with
  | [] => [x]
  | y :: rest =>
      if (key x <? key y)%Z then x :: y :: rest
      else y :: orderBy_insert key x rest
  end.

Definition orderBy {A} (key : A -> Z) (rows : list A) : list A :=
  fold_right (orderBy_insert key) [] (rev rows).

(** [subject LIKE pattern]: [%] matches any run of characters, [_] one
    character, and a backslash makes the next pattern character literal.
    Characters are compared exactly. *)
Fixpoint like_chars (pattern : list ascii) : list ascii -> bool :=
  match pattern with
  | [] => fun subject => match subject with [] => true | _ => false end
  | p :: pattern' =>
      if Ascii.eqb p "%" then
        fix skip (subject : list ascii) : bool :=
          like_chars pattern' subject ||
          match subject with
          | [] => false
          | _ :: subject' => skip subject'
          end
      else if Ascii.eqb p "_" then
        fun subject =>
          match subject with
          | [] => false
          | _ :: subject' => like_chars pattern' subject'
          end
      else if Ascii.eqb p "\" then
        match pattern' with
        | [] =>
            fun subject =>
              match subject with
              | [c] => Ascii.eqb c "\"
              | _ => false
              end
        | q :: pattern'' =>
            fun subject =>
              match subject with
              | [] => false
              | c :: subject' => Ascii.eqb c q && like_chars pattern'' subject'
              end
        end
      else
        fun subject =>
          match subject with
          | [] => false
          | c :: subject' => Ascii.eqb c p && like_chars pattern' subject'
          end
  end.

Definition like (subject pattern : string) : bool :=
  like_chars (list_ascii_of_string pattern) (list_ascii_of_string subject).

End Sql.

(** ** Modules the DAO imports, taken as interfaces *)

(** db/database.helper.  The catalog relations are read through queries with
    bound parameters, whose WHERE and ORDER BY clauses are interpreted here
    (strings are compared exactly); statements whose target is spelled with
    [escapeId] are answered by the store as a whole.  Catalog reads do not
    fail. *)
Class Database (Store : Type) : Type := {
  escapeId : string -> string;
  information_schema : Store -> Catalog;
  (** [SHOW TABLES FROM id]: the table names, or the store's error *)
  showTablesFrom : string -> Store -> result (list string);
  (** [SELECT COUNT( * ) FROM target] *)
  selectCountFrom : string -> Store -> result Z;
  (** [INSERT INTO target] with the given rows: the store afterwards, or the
      store's error *)
  insertInto : string -> list SqlRow -> Store -> result Store;
}.

(** common/constants, common/table-name.class and common/util. *)
Class Common : Type := {
  CURRENT_TIMESTAMP : string;
  TableName : Type;
  newTableName : string -> TableName;
  rawName : TableName -> string;
  parts : TableName -> list TableName;
  unflattenTableNames : list TableName -> list TableName;
}.

(** routes/api/table-input.validator: validation reads the store and yields
    the prepared rows of every target table, or throws. *)
Class TableInputValidator (Store : Type) : Type := {
  SubmittedData : Type;
  validate : string -> SubmittedData -> Store -> result (gmap string (list SqlRow));
}.

Module TableMeta.
Record t `{Common} : Type := mk {
  name : string;
  headers : list TableHeader;
  totalRows : Z;
  constraints : list Constraint;
  comment : string;
  parts : list TableName;
}.
End TableMeta.
Abbreviation TableMeta := TableMeta.t.

(** ** Promises *)

(** A statement sent to the store. *)
Inductive statement : Type :=
| ShowTablesFrom (id : string)
| SelectColumns (schema name : string)
| SelectKeyColumnUsage (schema : string) (table : option string)
| SelectTableComment (table schema : string)
| SelectCountFrom (target : string)
| InsertInto (target : string) (rows : list SqlRow).

(** The store and the statements sent so far, oldest first. *)
Record state (Store : Type) : Type := {
  store : Store;
  sent : list statement;
}.
Arguments store {_} _.
Arguments sent {_} _.

(** How a promise stands: fulfilled, rejected, or not settled yet. *)
Inductive outcome (E A : Type) : Type :=
| Fulfilled (value : A)
| Rejected (reason : E)
| Pending.
Arguments Fulfilled {E A} value.
Arguments Rejected {E A} reason.
Arguments Pending {E A}.

Definition M (Store A : Type) : Type :=
  state Store -> outcome exn A * state Store.

Section Promise.
Context {Store : Type}.

Definition ret {A} (a : A) : M Store A := fun st => (Fulfilled a, st).

Definition bind {A B} (m : M Store A) (k : A -> M Store B) : M Store B :=
  fun st =>
    match m st with
    | (Fulfilled a, st') => k a st'
    | (Rejected e, st') => (Rejected e, st')
    | (Pending, st') => (Pending, st')
    end.

Definition throw {A} (e : exn) : M Store A := fun st => (Rejected e, st).

Definition pending {A} : M Store A := fun st => (Pending, st).

Definition lift {A} (r : result A) : M Store A :=
  match r with
  | Ok a => ret a
  | Throw e => throw e
  end.

(** Record a statement as sent. *)
Definition send (s : statement) : M Store unit :=
  fun st => (Fulfilled tt, {| store := store st; sent := sent st ++ [s] |}).

(** Read the store. *)
Definition ask : M Store Store := fun st => (Fulfilled (store st), st).

(** Replace the store. *)
Definition put (s : Store) : M Store unit :=
  fun st => (Fulfilled tt, {| store := s; sent := sent st |}).

(** [Promise.all]: fulfilled when every promise is, rejected as soon as one
    is (with the reason of one of the rejected promises; [reasons] lists them
    in argument order), pending otherwise. *)
Definition reasons {A} (o : outcome exn A) : list exn :=
  match o with
  | Rejected e => [e]
  | _ => []
  end.

End Promise.

Notation "x <- m ;; k" := (bind m (fun x => k))
  (at level 100, m at next level, right associativity).

(** ** TableDao *)

Section TableDao.
Context `{Common} {Store : Type} `{!Database Store}
  `{!TableInputValidator Store}.

(** *** Statements executed through the helper *)

Definition executeShowTables (id : string) : M Store (list string) :=
  _ <- send (ShowTablesFrom id);;
  s <- ask;;
  lift (showTablesFrom id s).

Definition executeSelectColumns (schema name : string)
  : M Store (list Columns.row) :=
  _ <- send (SelectColumns schema name);;
  s <- ask;;
  ret (Sql.orderBy Columns.ORDINAL_POSITION
         (List.filter
            (fun r => String.eqb (Columns.TABLE_SCHEMA r) schema
                      && Sql.like (Columns.TABLE_NAME r) name)
            (COLUMNS (information_schema s)))).

(** A null [table] is compared with [=], which no row satisfies. *)
Definition executeSelectKeyColumnUsage (schema : string) (table : option string)
  : M Store (list KeyColumnUsage.row) :=
  _ <- send (SelectKeyColumnUsage schema table);;
  s <- ask;;
  ret (Sql.orderBy KeyColumnUsage.ORDINAL_POSITION
         (List.filter
            (fun r => String.eqb (KeyColumnUsage.CONSTRAINT_SCHEMA r) schema
                      && bool_decide (Some (KeyColumnUsage.TABLE_NAME r) = table))
            (KEY_COLUMN_USAGE (information_schema s)))).

Definition executeSelectTableComment (table schema : string)
  : M Store (list Tables.row) :=
  _ <- send (SelectTableComment table schema);;
  s <- ask;;
  ret (List.filter
         (fun r => String.eqb (Tables.TABLE_NAME r) table
                   && String.eqb (Tables.TABLE_SCHEMA r) schema)
         (TABLES (information_schema s))).

Definition executeSelectCount (target : string) : M Store Z :=
  _ <- send (SelectCountFrom target);;
  s <- ask;;
  lift (selectCountFrom target s).

Definition executeInsert (target : string) (rows : list SqlRow) : M Store unit :=
  _ <- send (InsertInto target rows);;
  s <- ask;;
  s' <- lift (insertInto target rows s);;
  put s'.

(** Modelled from the spec: the [transaction] method of the database helper
    (db/database.helper), which the DAO only calls.  The spec gives it as
    [transaction(work) -> result], rolling back on any error raised inside
    [work], and committing otherwise: a rejected [work] leaves the store as
    it was when the transaction was opened. *)
Definition transaction {A} (work : M Store A) : M Store A :=
  fun st =>
    match work st with
    | (Fulfilled a, st') => (Fulfilled a, st')
    | (Rejected e, st') => (Rejected e, {| store := store st; sent := sent st' |})
    | (Pending, st') => (Pending, st')
    end.

(** *** tables *)

Definition tables (db : string) : M Store (list TableName) :=
  result <- executeShowTables (escapeId db);;
  ret (map newTableName result).

(** *** headers *)

Definition toHeader (row : Columns.row) : result TableHeader :=
  let rawType := Columns.COLUMN_TYPE row in
  match parseType rawType with
  | Throw e => Throw e
  | Ok type =>
      let isNumerical :=
        bool_decide (type = integer) || bool_decide (type = float) in
      let defaultValue :=
        identifyDefaultValue CURRENT_TIMESTAMP rawType type
          (Columns.COLUMN_DEFAULT row) in
      match findEnumValues (Columns.COLUMN_TYPE row) with
      | Throw e => Throw e
      | Ok enumValues =>
          Ok {| TableHeader.name := Columns.COLUMN_NAME row;
                TableHeader.type := type;
                TableHeader.isNumerical := isNumerical;
                TableHeader.isTextual := negb isNumerical;
                TableHeader.signed :=
                  isNumerical && negb (Js.includes rawType "unsigned");
                TableHeader.ordinalPosition := Columns.ORDINAL_POSITION row;
                TableHeader.rawType := rawType;
                TableHeader.defaultValue := defaultValue;
                TableHeader.nullable := String.eqb (Columns.IS_NULLABLE row) "YES";
                TableHeader.maxCharacters := Columns.CHARACTER_MAXIMUM_LENGTH row;
                TableHeader.charset := Columns.CHARACTER_SET_NAME row;
                TableHeader.numericPrecision := Columns.NUMERIC_PRECISION row;
                TableHeader.numericScale := Columns.NUMERIC_SCALE row;
                TableHeader.enumValues := enumValues;
                TableHeader.comment := Columns.COLUMN_COMMENT row;
                TableHeader.tableName := Columns.TABLE_NAME row |}
      end
  end.

(** [_.map(result, f)] with a callback that may throw: the first throw
    aborts the map. *)
Fixpoint mapThrowing {A B} (f : A -> result B) (l : list A) : result (list B) :=
  match l with
  | [] => Ok []
  | x :: rest =>
      match f x with
      | Throw e => Throw e
      | Ok y =>
          match mapThrowing f rest with
          | Throw e => Throw e
          | Ok ys => Ok (y :: ys)
          end
      end
  end.

Definition headers (schema name : string) : M Store (list TableHeader) :=
  result <- executeSelectColumns schema name;;
  lift (mapThrowing toHeader result).

(** *** constraints *)

Definition toConstraint (row : KeyColumnUsage.row) : Constraint :=
  let type :=
    if String.eqb (KeyColumnUsage.CONSTRAINT_NAME row) "PRIMARY" then primary
    else if String.eqb (KeyColumnUsage.CONSTRAINT_NAME row)
                       (KeyColumnUsage.COLUMN_NAME row) then unique
    else foreign in
  {| Constraint.type := type;
     Constraint.localColumn := KeyColumnUsage.COLUMN_NAME row;
     Constraint.foreignTable := KeyColumnUsage.REFERENCED_TABLE_NAME row;
     Constraint.foreignColumn := KeyColumnUsage.REFERENCED_COLUMN_NAME row |}.

Definition constraints (schema : string) (table : option string)
  : M Store (list Constraint) :=
  result <- executeSelectKeyColumnUsage schema table;;
  ret (map toConstraint result).

(** *** resolveConstraints *)

(** [cache[table] ? Promise.resolve(cache[table]) : this.constraints(schema,
    table)].  The cache is an object literal: a key it does not own is still
    truthy when [Object.prototype] has a member of that name, and the value
    then read is not an array and has no enumerable property, so that
    [_.find] finds nothing in it; it is rendered as the empty list. *)
Definition getConstraints (schema : string)
    (cache : gmap string (list Constraint)) (table : option string)
  : M Store (list Constraint) :=
  match cache !! Js.show table with
  | Some cached => ret cached
  | None =>
      if Js.inherited (Js.show table) then ret []
      else constraints schema table
  end.

Definition couldNotFind (localColumn : option string) : exn :=
  Error ("could not find constraint with name '" +:+ Js.show localColumn +:+ "'").

Definition findConstraint (localColumn : option string) (others : list Constraint)
  : result Constraint :=
  match Js.find others
          (fun other => bool_decide (Some (Constraint.localColumn other) = localColumn))
  with
  | None => Throw (couldNotFind localColumn)
  | Some temp => Ok temp
  end.

(** The right-hand side of the assignment to [current] in the loop body:
    [findConstraint(current.foreignColumn, await
    getConstraints(current.foreignTable))]. *)
Definition advance (schema : string) (cache : gmap string (list Constraint))
    (current : Constraint) : M Store Constraint :=
  others <- getConstraints schema cache (Constraint.foreignTable current);;
  lift (findConstraint (Constraint.foreignColumn current) others).

(** The [while] loop: [fuel] bounds the number of iterations the embedding
    follows; the loop itself has no bound. The value is [previous] when the
    loop exits. *)
Fixpoint walk (fuel : nat) (schema : string) (cache : gmap string (list Constraint))
    (current : Constraint) (previous : option Constraint)
  : M Store (option Constraint) :=
  if bool_decide (Constraint.type current = primary) then ret previous
  else
    match fuel with
    | O => pending
    | S fuel' =>
        next <- advance schema cache current;;
        walk fuel' schema cache next (Some current)
    end.

(** The [for] loop over [originals], with [resolved] as accumulated so far. *)
Fixpoint resolveEach (fuel : nat) (schema : string)
    (cache : gmap string (list Constraint))
    (originals : list Constraint) (resolved : list Constraint)
  : M Store (list Constraint) :=
  match originals with
  | [] => ret resolved
  | c :: rest =>
      if bool_decide (Constraint.type c <> foreign)
      then resolveEach fuel schema cache rest (resolved ++ [c])
      else
        previous <- walk fuel schema cache c None;;
        resolveEach fuel schema cache rest
          (match previous with
           | Some p => resolved ++ [p]
           | None => resolved
           end)
  end.

Definition resolveConstraints (fuel : nat) (schema : string)
    (originals : list Constraint) : M Store (list Constraint) :=
  let cache : gmap string (list Constraint) := ∅ in
  resolveEach fuel schema cache originals [].

(** *** comment and count *)

(** [result[0].TABLE_COMMENT]: reading a property of [undefined] throws. *)
Definition comment (schema table : string) : M Store string :=
  result <- executeSelectTableComment table schema;;
  match result with
  | [] => throw (TypeError "Cannot read property 'TABLE_COMMENT' of undefined")
  | first :: _ => ret (Tables.TABLE_COMMENT first)
  end.

Definition count (schema table : string) : M Store Z :=
  executeSelectCount (escapeId schema +:+ "." +:+ escapeId table).

(** *** meta *)

(** The five promises are started in the order of the array and joined by
    [Promise.all]: the result is pending while none is rejected and one is
    pending, and rejected when one is rejected. *)
Definition meta (fuel : nat) (schema table : string)
  : state Store -> outcome (list exn) TableMeta * state Store :=
  fun st0 =>
    let '(allTables, st1) := tables schema st0 in
    let '(hs, st2) := headers schema table st1 in
    let '(n, st3) := count schema table st2 in
    let '(cs, st4) :=
      (result <- constraints schema (Some table);;
       resolveConstraints fuel schema result) st3 in
    let '(cm, st5) := comment schema table st4 in
    match allTables, hs, n, cs, cm with
    | Fulfilled allTables', Fulfilled hs', Fulfilled n', Fulfilled cs', Fulfilled cm' =>
        let masterTables := unflattenTableNames allTables' in
        let masterTable :=
          Js.find masterTables (fun t => String.eqb (rawName t) table) in
        let parts' :=
          match masterTable with
          | Some t => parts t
          | None => []
          end in
        (Fulfilled {| TableMeta.name := table;
                      TableMeta.headers := hs';
                      TableMeta.totalRows := n';
                      TableMeta.constraints := cs';
                      TableMeta.comment := cm';
                      TableMeta.parts := parts' |}, st5)
    | _, _, _, _, _ =>
        match reasons allTables ++ reasons hs ++ reasons n ++ reasons cs
              ++ reasons cm with
        | [] => (Pending, st5)
        | rs => (Rejected rs, st5)
        end
    end.

(** *** insertRow *)

Definition prepareValue (v : JsValue) : JsValue :=
  match v with
  | VBoolean b => VNumber (Literal (if b then 1 else 0))
  | _ => v
  end.

(** [result[key] = value] on an object. *)
Fixpoint assign (key : string) (value : JsValue) (obj : SqlRow) : SqlRow :=
  match obj with
  | [] => [(key, value)]
  | (k, w) :: rest =>
      if String.eqb k key then (k, value) :: rest
      else (k, w) :: assign key value rest
  end.

Definition prepareForInsert (validated : SqlRow) : SqlRow :=
  fold_left
    (fun result '(columnName, v) => assign (escapeId columnName) (prepareValue v) result)
    validated [].

(** [Object.keys(preparedData)]: the names of the target tables, each
    once; [insertRow] sorts them before it uses them. *)
Definition keys (preparedData : gmap string (list SqlRow)) : list string :=
  map fst (map_to_list preparedData).

(** The body of the [for] loop over [names], inside the transaction. *)
Fixpoint insertEach (schema table : string)
    (preparedData : gmap string (list SqlRow)) (names : list string)
  : M Store unit :=
  match names with
  | [] => ret tt
  | name :: rest =>
      let rows := map prepareForInsert (default [] (preparedData !! name)) in
      _ <- executeInsert (escapeId schema +:+ "." +:+ escapeId table) rows;;
      insertEach schema table preparedData rest
  end.

Definition insertRow (schema table : string) (data : SubmittedData)
  : M Store unit :=
  s <- ask;;
  preparedData <- lift (validate schema data s);;
  transaction
    (let names := Js.sortBy (keys preparedData) in
     insertEach schema table preparedData names).

End TableDao.

(** ** A reference store for closed examples

    An in-memory store: its catalog and the rows inserted so far, each under
    the escaped name of its table.  An insert is refused when the target is
    not a table of the catalog or a row names a column the table lacks. *)

Module Reference.

Record Store : Type := {
  catalog : Catalog;
  data : list (string * SqlRow);
}.

Definition backticks (id : string) : string := "`" +:+ id +:+ "`".

Definition qualified (schema table : string) : string :=
  backticks schema +:+ "." +:+ backticks table.

Definition isTable (target : string) (s : Store) : bool :=
  existsb
    (fun r => String.eqb (qualified (Tables.TABLE_SCHEMA r) (Tables.TABLE_NAME r)) target)
    (TABLES (catalog s)).

Definition columnsOf (target : string) (s : Store) : list string :=
  map (fun r => backticks (Columns.COLUMN_NAME r))
    (List.filter
       (fun r => String.eqb (qualified (Columns.TABLE_SCHEMA r) (Columns.TABLE_NAME r)) target)
       (COLUMNS (catalog s))).

Definition knownColumns (target : string) (s : Store) (row : SqlRow) : bool :=
  forallb (fun kv => existsb (String.eqb (fst kv)) (columnsOf target s)) row.

Definition tablesOf (id : string) (s : Store) : result (list string) :=
  Ok (map Tables.TABLE_NAME
        (List.filter (fun r => String.eqb (backticks (Tables.TABLE_SCHEMA r)) id)
           (TABLES (catalog s)))).

Definition countOf (target : string) (s : Store) : result Z :=
  if isTable target s
  then Ok (Z.of_nat (length (List.filter (fun d => String.eqb (fst d) target) (data s))))
  else Throw (StoreError ("Table " +:+ target +:+ " doesn't exist")).

Definition insertRows (target : string) (rows : list SqlRow) (s : Store)
  : result Store :=
  if negb (isTable target s)
  then Throw (StoreError ("Table " +:+ target +:+ " doesn't exist"))
  else if negb (forallb (knownColumns target s) rows)
  then Throw (StoreError ("Unknown column in " +:+ target))
  else Ok {| catalog := catalog s;
             data := data s ++ map (fun row => (target, row)) rows |}.

#[global] Instance database : Database Store := {|
  escapeId := backticks;
  information_schema := catalog;
  showTablesFrom := tablesOf;
  selectCountFrom := countOf;
  insertInto := insertRows;
|}.

(** A naming scheme without part tables, and the usual sentinel. *)
#[global] Instance common : Common := {|
  CURRENT_TIMESTAMP := "CURRENT_TIMESTAMP";
  TableName := string;
  newTableName := fun rawName => rawName;
  rawName := fun t => t;
  parts := fun _ => [];
  unflattenTableNames := fun names => names;
|}.

(** A validator that takes the submitted data as already prepared. *)
#[global] Instance validator : TableInputValidator Store := {|
  SubmittedData := gmap string (list SqlRow);
  validate := fun _ data _ => Ok data;
|}.

(** Key-usage rows of a single-column foreign key and of a primary key. *)
Definition fk (schema table column name refTable refColumn : string)
  : KeyColumnUsage.row :=
  KeyColumnUsage.mk schema table column name 1 (Some refTable) (Some refColumn).

Definition pk (schema table column : string) : KeyColumnUsage.row :=
  KeyColumnUsage.mk schema table column "PRIMARY" 1 None None.

Definition start (c : Catalog) : state Store :=
  {| store := {| catalog := c; data := [] |}; sent := [] |}.

(** A.foo references B.bar, B.bar references C.baz, C.baz is a primary key. *)
Definition chain : Catalog := {|
  COLUMNS := [];
  KEY_COLUMN_USAGE :=
    [ fk "db" "A" "foo" "a_foo_fk" "B" "bar";
      fk "db" "B" "bar" "b_bar_fk" "C" "baz";
      pk "db" "C" "baz" ];
  TABLES := [];
|}.

(** The constraint of A in [chain]. *)
Definition fooToB : Constraint :=
  Constraint.mk foreign "foo" (Some "B") (Some "bar").

(** A.x references B.y and B.y references A.x: no primary key on the way. *)
Definition cycle : Catalog := {|
  COLUMNS := [];
  KEY_COLUMN_USAGE :=
    [ fk "db" "A" "x" "a_x_fk" "B" "y";
      fk "db" "B" "y" "b_y_fk" "A" "x" ];
  TABLES := [];
|}.

Definition xToB : Constraint := Constraint.mk foreign "x" (Some "B") (Some "y").

Definition yToA : Constraint := Constraint.mk foreign "y" (Some "A") (Some "x").

(** Two columns of A reference the primary key of C. *)
Definition twoReferences : Catalog := {|
  COLUMNS := [];
  KEY_COLUMN_USAGE :=
    [ fk "db" "A" "x" "a_x_fk" "C" "id";
      fk "db" "A" "y" "a_y_fk" "C" "id";
      pk "db" "C" "id" ];
  TABLES := [];
|}.

(** A.id is a primary key; A.foo references B.bar, and B has key-usage rows
    for its column id only. *)
Definition dangling : Catalog := {|
  COLUMNS := [];
  KEY_COLUMN_USAGE :=
    [ pk "db" "A" "id";
      fk "db" "A" "foo" "a_foo_fk" "B" "bar";
      pk "db" "B" "id" ];
  TABLES := [ Tables.mk "db" "A" ""; Tables.mk "db" "B" "" ];
|}.

Definition column (schema table name : string) (position : Z)
    (dataType columnType : string) (default : option string) : Columns.row :=
  Columns.mk schema table name position "NO" dataType None None None None
    columnType "" default.

(** A table with an enum column one of whose values contains the text int. *)
Definition shapes : Catalog := {|
  COLUMNS :=
    [ column "db" "shapes" "id" 1 "int" "int(11)" None;
      column "db" "shapes" "kind" 2 "enum" "enum('point','line')" (Some "point") ];
  KEY_COLUMN_USAGE := [ pk "db" "shapes" "id" ];
  TABLES := [ Tables.mk "db" "shapes" "" ];
|}.

(** Two tables whose names differ in the character at the underscore. *)
Definition userRoles : Catalog := {|
  COLUMNS :=
    [ column "db" "user_roles" "user_id" 1 "int" "int(11)" None;
      column "db" "user_roles" "role" 2 "varchar" "varchar(32)" None;
      column "db" "userXroles" "legacy_id" 1 "int" "int(11)" None;
      column "db" "userXroles" "notes" 2 "varchar" "varchar(255)" None ];
  KEY_COLUMN_USAGE := [ pk "db" "user_roles" "user_id" ];
  TABLES :=
    [ Tables.mk "db" "user_roles" "roles of a user";
      Tables.mk "db" "userXroles" "" ];
|}.

(** A master table and its part table. *)
Definition orders : Catalog := {|
  COLUMNS :=
    [ column "db" "orders" "id" 1 "int" "int(11)" None;
      column "db" "orders" "paid" 2 "tinyint" "tinyint(1)" (Some "0");
      column "db" "orders__detail" "id" 1 "int" "int(11)" None;
      column "db" "orders__detail" "item" 2 "varchar" "varchar(64)" None ];
  KEY_COLUMN_USAGE :=
    [ pk "db" "orders" "id"; pk "db" "orders__detail" "id" ];
  TABLES :=
    [ Tables.mk "db" "orders" ""; Tables.mk "db" "orders__detail" "" ];
|}.

(** Submitted data for one order and one detail row.  In [submission] the
    detail row has the columns of the part table; in [submissionSameColumns]
    it only uses a column name that the master table has too. *)
Definition orderRow : SqlRow :=
  [ ("id", VNumber (Literal 7)); ("paid", VBoolean true) ].

Definition detailRow : SqlRow :=
  [ ("id", VNumber (Literal 1)); ("item", VString "tea") ].

Definition submission : gmap string (list SqlRow) :=
  {[ "orders__detail" := [detailRow]; "orders" := [orderRow] ]}.

Definition submissionSameColumns : gmap string (list SqlRow) :=
  {[ "orders__detail" := [[("id", VNumber (Literal 1))]]; "orders" := [orderRow] ]}.

End Reference.

(** ** Notions used to state the properties *)

(** A promise that is no longer pending. *)
Definition settled {E A} (o : outcome E A) : Prop :=
  match o with
  | Pending => False
  | _ => True
  end.

(** [m] leaves the store as it is, and its outcome depends on the store
    only (not on the statements sent before). *)
Definition readonly {Store A} (m : M Store A) : Prop :=
  (forall st, store (snd (m st)) = store st) /\
  (forall st1 st2, store st1 = store st2 -> fst (m st1) = fst (m st2)).

(** One iteration of the loop of [resolveConstraints] leads from [c] to
    [next] on the store of [st]. *)
Definition hop {Store} `{!Database Store} (st : state Store) (schema : string)
    (c next : Constraint) : Prop :=
  Constraint.type c <> primary /\
  fst (advance schema ∅ c st) = Fulfilled next.

(** The chain that starts at [c] comes to an end: no infinite sequence of
    hops leaves [c]. *)
Definition chainEnds {Store} `{!Database Store} (st : state Store)
    (schema : string) (c : Constraint) : Prop :=
  Acc (fun next current => hop st schema current next) c.

(** The chain from [c] reaches a primary constraint after [n] hops, and
    [last] is the link found just before it. *)
Inductive leadsTo {Store} `{!Database Store} (st : state Store) (schema : string)
  : Constraint -> Constraint -> nat -> Prop :=
| leadsTo_last c p :
    hop st schema c p -> Constraint.type p = primary ->
    leadsTo st schema c c 1
| leadsTo_next c next last n :
    hop st schema c next -> Constraint.type next <> primary ->
    leadsTo st schema next last n ->
    leadsTo st schema c last (S n).

(** The rules of [classify] as the specification lists them, in order: the
    condition on the raw type and the canonical type it yields. *)
Definition documentedRules (rawType : string) : list (Prop * TableDataType) :=
  [ (contains rawType "tinyint(1)", boolean);
    (contains rawType "int", integer);
    (contains rawType "double" \/ contains rawType "float"
       \/ contains rawType "decimal", float);
    (rawType = "date", date);
    (rawType = "datetime" \/ rawType = "timestamp", datetime);
    (starts_with rawType "enum", enum);
    (contains rawType "char", string_t);
    (contains rawType "blob", blob) ].

(** The first rule of an ordered list whose condition holds decides. *)
Inductive firstMatch : list (Prop * TableDataType) -> option TableDataType -> Prop :=
| firstMatch_none : firstMatch [] None
| firstMatch_here (P : Prop) ty rest :
    P -> firstMatch ((P, ty) :: rest) (Some ty)
| firstMatch_later (P : Prop) ty rest r :
    ~ P -> firstMatch rest r -> firstMatch ((P, ty) :: rest) r.

(** [classify] as documented: the type of the first matching rule, or the
    error that carries the raw string when no rule matches. *)
Definition classify (rawType : string) (r : result TableDataType) : Prop :=
  exists m, firstMatch (documentedRules rawType) m /\
    r = match m with
        | Some ty => Ok ty
        | None => Throw (Error ("Could not determine TableDataType for raw type '"
                                  +:+ rawType +:+ "'"))
        end.



(** ** Further notions used to state properties *)

(** What [resolveConstraints] makes of one constraint of its list: a
    constraint that is not a foreign key is kept, a foreign key is replaced by
    the last link of its chain. *)
Definition resolvesTo {Store} `{!Database Store} (st : state Store)
    (schema : string) (c r : Constraint) : Prop :=
  (Constraint.type c <> foreign /\ r = c)
  \/ (Constraint.type c = foreign /\ exists n, leadsTo st schema c r n).

(** [n] hops lead from [c] to [last]. *)
Inductive hops {Store} `{!Database Store} (st : state Store) (schema : string)
  : nat -> Constraint -> Constraint -> Prop :=
| hops_here c : hops st schema 0 c c
| hops_next n c next last :
    hop st schema c next -> hops st schema n next last ->
    hops st schema (S n) c last.

(** The lookup of the loop finds no record for the column that [last]
    references: the list it gets for the referenced table, with nothing in
    the cache, holds no constraint whose local column is that column. *)
Definition lacksRecord {Store} `{!Database Store} (st : state Store)
    (schema : string) (last : Constraint) : Prop :=
  exists others,
    fst (getConstraints schema ∅ (Constraint.foreignTable last) st)
    = Fulfilled others
    /\ Forall
         (fun other =>
            Some (Constraint.localColumn other) <> Constraint.foreignColumn last)
         others.

(** The chain from [c] breaks at [last]: the loop gets from [c] to [last],
    which is not a primary constraint, and finds no record for the column
    that [last] references.  The chain has no primary key at its end. *)
Definition breaksAt {Store} `{!Database Store} (st : state Store)
    (schema : string) (c last : Constraint) : Prop :=
  exists n,
    hops st schema n c last
    /\ Constraint.type last <> primary
    /\ lacksRecord st schema last.

(** The chain from [c] forms a cycle: the loop gets from [c] to a constraint
    [back] from which one or more further hops lead to [back] again. *)
Definition cycles {Store} `{!Database Store} (st : state Store)
    (schema : string) (c : Constraint) : Prop :=
  exists n back k,
    hops st schema n c back /\ hops st schema (S k) back back.

(** ** Further catalogs for closed examples *)

Module Cases.

(** A table with a primary key and a unique key that has a name of its own:
    the key-usage row of the unique key carries the name of the key, and no
    referenced table or column. *)
Definition uniqueEmail : KeyColumnUsage.row :=
  KeyColumnUsage.mk "db" "users" "email" "uq_email" 1 None None.

Definition users : Catalog := {|
  COLUMNS :=
    [ Reference.column "db" "users" "id" 1 "int" "int(11)" None;
      Reference.column "db" "users" "email" 2 "varchar" "varchar(255)" None ];
  KEY_COLUMN_USAGE := [ Reference.pk "db" "users" "id"; uniqueEmail ];
  TABLES := [ Tables.mk "db" "users" "" ];
|}.

(** A.id is a primary key; A.foo references B.bar and B.bar references
    C.baz, and C has key-usage rows for its column id only: the chain of
    A.foo breaks at its second link. *)
Definition midDangling : Catalog := {|
  COLUMNS := [];
  KEY_COLUMN_USAGE :=
    [ Reference.pk "db" "A" "id";
      Reference.fk "db" "A" "foo" "a_foo_fk" "B" "bar";
      Reference.fk "db" "B" "bar" "b_bar_fk" "C" "baz";
      Reference.pk "db" "C" "id" ];
  TABLES :=
    [ Tables.mk "db" "A" ""; Tables.mk "db" "B" ""; Tables.mk "db" "C" "" ];
|}.

Definition barToC : Constraint :=
  Constraint.mk foreign "bar" (Some "C") (Some "baz").

(** A.x references B.y and B.y references A.x; A.foo references B.bar, for
    which B has no key-usage row. *)
Definition cycleBeforeDangling : Catalog := {|
  COLUMNS := [];
  KEY_COLUMN_USAGE :=
    [ Reference.fk "db" "A" "x" "a_x_fk" "B" "y";
      Reference.fk "db" "A" "foo" "a_foo_fk" "B" "bar";
      Reference.fk "db" "B" "y" "b_y_fk" "A" "x" ];
  TABLES := [ Tables.mk "db" "A" ""; Tables.mk "db" "B" "" ];
|}.

End Cases.

(** A table name without a metacharacter of LIKE. *)
Definition plainName (name : string) : bool :=
  forallb
    (fun c => negb (Ascii.eqb c "%" || Ascii.eqb c "_" || Ascii.eqb c "\"))
    (list_ascii_of_string name).

(** What stays the same between a catalog row and the header made of it. *)
Definition describes (row : Columns.row) (h : TableHeader) : Prop :=
  TableHeader.name h = Columns.COLUMN_NAME row
  /\ TableHeader.tableName h = Columns.TABLE_NAME row
  /\ TableHeader.rawType h = Columns.COLUMN_TYPE row
  /\ TableHeader.ordinalPosition h = Columns.ORDINAL_POSITION row.

Module MoreCases.

(** A table one of whose columns has a raw type that [parseType] does not
    know, after a column it knows. *)
Definition events : Catalog := {|
  COLUMNS :=
    [ Reference.column "db" "events" "place" 3 "geometry" "geometry" None;
      Reference.column "db" "events" "id" 1 "int" "int(11)" None;
      Reference.column "db" "events" "payload" 2 "json" "json" None ];
  KEY_COLUMN_USAGE := [ Reference.pk "db" "events" "id" ];
  TABLES := [ Tables.mk "db" "events" "" ];
|}.

End MoreCases.

(** The raw type the catalog shows for an enum column with the given
    values: the values in quotes, separated by commas, in parentheses after
    the word enum. *)
Fixpoint joinQuoted (values : list string) : string :=
  match values with
  | [] => EmptyString
  | [v] => v
  | v :: rest => v +:+ "','" +:+ joinQuoted rest
  end.

Definition enumType (values : list string) : string :=
  "enum('" +:+ joinQuoted values +:+ "')".

(** A text without a quote character. *)
Definition quoteFree (v : string) : bool :=
  forallb (fun c => negb (Ascii.eqb c "'")) (list_ascii_of_string v).

(** ** content *)

(** A value of a row as the driver hands it over: a [Date] object, the bytes
    of a binary column, or a plain value. *)
Inductive Cell (Date : Type) : Type :=
| CDate (d : Date)
| CBytes (bytes : string)
| CValue (v : JsValue).
Arguments CDate {Date} d.
Arguments CBytes {Date} bytes.
Arguments CValue {Date} v.

(** What [content] needs beside the database helper: the [Date] objects of
    the runtime and [moment(d).format(f)], the constants of common/constants
    it names, and the answer of the store to the row query (its target,
    LIMIT, OFFSET and, when given, the ORDER BY column and whether it is
    ascending).  The row query is not recorded in [sent]. *)
Class ContentHelper (Store : Type) : Type := {
  Date : Type;
  momentFormat : Date -> string -> string;
  DATE_FORMAT : string;
  DATETIME_FORMAT : string;
  BLOB_STRING_REPRESENTATION : string;
  selectFrom : string -> Z -> Z -> option (string * bool) -> Store
               -> result (list (list (string * Cell Date)));
}.

(** [Sort] *)
Inductive Direction : Type := asc | desc.

Global Instance Direction_eq_dec : EqDecision Direction.
Proof. solve_decision. Defined.

Module Sort.
Record t : Type := mk {
  direction : Direction;
  by_ : string;
}.
End Sort.

Section Content.
Context `{Common} {Store : Type} `{!Database Store} `{!ContentHelper Store}.

(** The body of the inner loop: the value [row[col]] has after it. *)
Definition formatCell (headers : list TableHeader) (blobHeaders : list string)
    (col : string) (v : Cell Date) : result (Cell Date) :=
  match v with
  | CDate d =>
      match Js.find headers (fun h => String.eqb (TableHeader.name h) col) with
      | None => Throw (Error ("Could not find header with name " +:+ col))
      | Some header =>
          if bool_decide (TableHeader.type header = date)
          then Ok (CValue (VString (momentFormat d DATE_FORMAT)))
          else if bool_decide (TableHeader.type header = datetime)
          then Ok (CValue (VString (momentFormat d DATETIME_FORMAT)))
          else Throw (Error ("Header " +:+ TableHeader.name header
                               +:+ " unexpectedly had a Date value in it"))
      end
  | _ =>
      if existsb (String.eqb col) blobHeaders
      then Ok (CValue (VString BLOB_STRING_REPRESENTATION))
      else Ok v
  end.

(** The inner loop over the columns of a row, which keeps the columns and
    their order. *)
Definition formatRow (headers : list TableHeader) (blobHeaders : list string)
    (row : list (string * Cell Date)) : result (list (string * Cell Date)) :=
  mapThrowing
    (fun entry =>
       match formatCell headers blobHeaders (fst entry) (snd entry) with
       | Ok v => Ok (fst entry, v)
       | Throw e => Throw e
       end)
    row.

(** [page] and [limit] default to 1 and 25 when they are not given. *)
Definition content (schema table : string) (page limit : option Z)
    (sort : option Sort.t) : M Store (list (list (string * Cell Date))) :=
  let page := default 1%Z page in
  let limit := default 25%Z limit in
  s <- ask;;
  rows <- lift (selectFrom (escapeId schema +:+ "." +:+ escapeId table)
                  limit ((page - 1) * limit)
                  (option_map
                     (fun sort =>
                        (escapeId (Sort.by_ sort),
                         bool_decide (Sort.direction sort = asc)))
                     sort)
                  s);;
  headers <- headers schema table;;
  let blobHeaders :=
    map TableHeader.name
      (List.filter (fun h => bool_decide (TableHeader.type h = blob)) headers) in
  lift (mapThrowing (formatRow headers blobHeaders) rows).

End Content.

(** A store of the reference kind that also holds rows with dates and
    bytes, and answers the row query with the rows of the target, OFFSET and
    LIMIT applied (the ORDER BY is left aside). *)
Module Archive.

Record Store : Type := {
  base : Reference.Store;
  rowsOf : list (string * list (list (string * Cell Z)));
}.

#[global] Instance database : Database Store := {|
  escapeId := Reference.backticks;
  information_schema := fun s => Reference.catalog (base s);
  showTablesFrom := fun id s => Reference.tablesOf id (base s);
  selectCountFrom := fun target s => Reference.countOf target (base s);
  insertInto := fun target rows s =>
    match Reference.insertRows target rows (base s) with
    | Ok b => Ok {| base := b; rowsOf := rowsOf s |}
    | Throw e => Throw e
    end;
|}.

Definition select (target : string) (limit offset : Z)
    (order : option (string * bool)) (s : Store)
  : result (list (list (string * Cell Z))) :=
  match List.find (fun entry => String.eqb (fst entry) target) (rowsOf s) with
  | None => Throw (StoreError ("Table " +:+ target +:+ " doesn't exist"))
  | Some entry => Ok (firstn (Z.to_nat limit) (skipn (Z.to_nat offset) (snd entry)))
  end.

(** Dates are numbers of days; the text of a formatted date is left as its
    format, which tells the two formats apart. *)
#[global] Instance contentHelper : ContentHelper Store := {|
  Date := Z;
  momentFormat := fun _ f => f;
  DATE_FORMAT := "YYYY-MM-DD";
  DATETIME_FORMAT := "YYYY-MM-DD HH:mm:ss";
  BLOB_STRING_REPRESENTATION := "<blob>";
  selectFrom := select;
|}.

(** A table with a date, a timestamp and a binary column, and two rows. *)
Definition files : Store := {|
  base := {|
    Reference.catalog := {|
      COLUMNS :=
        [ Reference.column "db" "files" "id" 1 "int" "int(11)" None;
          Reference.column "db" "files" "day" 2 "date" "date" None;
          Reference.column "db" "files" "seen" 3 "timestamp" "timestamp" None;
          Reference.column "db" "files" "body" 4 "blob" "longblob" None ];
      KEY_COLUMN_USAGE := [ Reference.pk "db" "files" "id" ];
      TABLES := [ Tables.mk "db" "files" "" ];
    |};
    Reference.data := [];
  |};
  rowsOf :=
    [ ("`db`.`files`",
       [ [ ("id", CValue (VNumber (Literal 1))); ("day", CDate 0%Z);
           ("seen", CDate 7%Z); ("body", CBytes "0101") ];
         [ ("id", CValue (VNumber (Literal 2))); ("day", CValue VNull);
           ("seen", CDate 0%Z); ("body", CValue VNull) ] ]) ];
|}.

Definition start : state Store := {| store := files; sent := [] |}.

(** The same rows under a catalog that declares the column seen as text. *)
Definition mislabeled : Store := {|
  base := {|
    Reference.catalog := {|
      COLUMNS :=
        [ Reference.column "db" "files" "id" 1 "int" "int(11)" None;
          Reference.column "db" "files" "day" 2 "date" "date" None;
          Reference.column "db" "files" "seen" 3 "varchar" "varchar(32)" None;
          Reference.column "db" "files" "body" 4 "blob" "longblob" None ];
      KEY_COLUMN_USAGE := [ Reference.pk "db" "files" "id" ];
      TABLES := [ Tables.mk "db" "files" "" ];
    |};
    Reference.data := [];
  |};
  rowsOf := rowsOf files;
|}.

End Archive.

(** How a cell that [content] returns stands to the cell the store gave: a
    date has become the text of one of the two formats; any other value
    under a column with a header of type blob has become the placeholder;
    the rest is as it was. *)
Definition shown {Store} `{!ContentHelper Store} (blobHeaders : list string)
    (given returned : string * Cell Date) : Prop :=
  fst returned = fst given
  /\ match snd given with
     | CDate d =>
         snd returned = CValue (VString (momentFormat d DATE_FORMAT))
         \/ snd returned = CValue (VString (momentFormat d DATETIME_FORMAT))
     | v =>
         snd returned
         = if existsb (String.eqb (fst given)) blobHeaders
           then CValue (VString BLOB_STRING_REPRESENTATION)
           else v
     end.

(** A cell that [content] takes: any value that is not a date, and a date
    under a column whose first header of that name is of type date or of
    type datetime. *)
Definition accepted {Store} `{!ContentHelper Store} (headers : list TableHeader)
    (cell : string * Cell Date) : Prop :=
  match snd cell with
  | CDate _ =>
      exists header,
        Js.find headers (fun h => String.eqb (TableHeader.name h) (fst cell))
        = Some header
        /\ (TableHeader.type header = date \/ TableHeader.type header = datetime)
  | _ => True
  end.


(** ** The client: the default schema (client/app/app.component.ts) *)

(** The URL tree of the router as far as [determineDefaultSchema] reads it:
    the children of the root, by the name of their outlet, and the segments
    of a child, each with its path. *)
Module UrlSegment.
Record t : Type := mk { path : string }.
End UrlSegment.

Module UrlSegmentGroup.
Record t : Type := mk { segments : list UrlSegment.t }.
End UrlSegmentGroup.

Module UrlTree.
Record t : Type := mk {
  children : list (string * UrlSegmentGroup.t);
}.
End UrlTree.

(** [urlTree.root.children.primary]: [undefined], here [None], when the root
    has no child for the primary outlet, as for the URL of the root. *)
Definition primaryChild (urlTree : UrlTree.t) : option UrlSegmentGroup.t :=
  option_map snd
    (List.find (fun child => String.eqb (fst child) "primary")
       (UrlTree.children urlTree)).

Section DefaultSchema.

(** [String.prototype.toLocaleLowerCase], under the locale of the browser. *)
Variable toLocaleLowerCase : string -> string.

(** [determineDefaultSchema(all)]; [urlTree] is what the router gives for
    [this.router.parseUrl(this.router.url)].  Reading [segments] of a
    primary child that is not there is a [TypeError] of the runtime, and so
    is reading a property of [sorted[0]] when [sorted] is empty.
    [undefined] is [None]: it is what [sorted[1]] is when [sorted] has one
    element. *)
Definition determineDefaultSchema (urlTree : UrlTree.t) (all : list string)
  : result (option string) :=
  match primaryChild urlTree with
  | None => Throw (TypeError "Cannot read property 'segments' of undefined")
  | Some group =>
      let segments := map UrlSegment.path (UrlSegmentGroup.segments group) in
      let indicated :=
        match segments with
        | first :: loadedSchema :: _ =>
            if (String.eqb first "tables" || String.eqb first "forms")
               && existsb (String.eqb loadedSchema) all
            then Some loadedSchema
            else None
        | _ => None
        end in
      match indicated with
      | Some loadedSchema => Ok (Some loadedSchema)
      | None =>
          let sorted := Js.sortBy all in
          match sorted with
          | [] =>
              Throw (TypeError
                       "Cannot read property 'toLocaleLowerCase' of undefined")
          | first :: _ =>
              if String.eqb (toLocaleLowerCase first) "information_schema"
                 && Nat.ltb 0 (length sorted)
              then Ok (nth_error sorted 1)
              else Ok (Some first)
          end
      end
  end.

End DefaultSchema.

(** The URL tree of a URL with the given paths in its primary outlet, and
    that of the URL of the root. *)
Definition urlOf (paths : list string) : UrlTree.t :=
  UrlTree.mk [("primary", UrlSegmentGroup.mk (map UrlSegment.mk paths))].

Definition rootUrl : UrlTree.t := UrlTree.mk [].

(** Lower case for the letters of ASCII, which is what every locale does to
    them but for the dotted and dotless i of Turkish, Azeri and
    Lithuanian. *)
Fixpoint asciiLowerCase (s : string) : string :=
  match s with
  | EmptyString => EmptyString
  | String c rest =>
      let n := Ascii.nat_of_ascii c in
      String (if Nat.leb 65 n && Nat.leb n 90 then Ascii.ascii_of_nat (n + 32) else c)
        (asciiLowerCase rest)
  end.

(** ** The client: table names grouped by tier (client/app/app.component.ts) *)

Module GroupedName.
Record t `{Common} : Type := mk {
  tier : string;
  names : list TableName;
}.
End GroupedName.
Abbreviation GroupedName := GroupedName.t.

(** [array.indexOf(x)] on an array of strings: the first position of [x], or
    -1. *)
Fixpoint indexOf (array : list string) (x : string) : Z :=
  match array with
  | [] => -1
  | y :: rest =>
      if String.eqb y x then 0
      else
        let position := indexOf rest x in
        if (position <? 0)%Z then -1 else (position + 1)%Z
  end.

Module Lodash.

(** [_.groupBy(collection, iteratee)]: the object built, as its entries in
    the order in which their keys were first set; a value goes to the end of
    the array under its key. *)
Fixpoint groupBy_push {A} (key : string) (value : A)
    (object : list (string * list A)) : list (string * list A) :=
  match object with
  | [] => [(key, [value])]
  | (k, values) :: rest =>
      if String.eqb k key then (k, values ++ [value]) :: rest
      else (k, values) :: groupBy_push key value rest
  end.

Definition groupBy {A} (collection : list A) (iteratee : A -> string)
  : list (string * list A) :=
  fold_left (fun object value => groupBy_push (iteratee value) value object)
    collection [].

(** [_.sortBy(collection, iteratee)] with an iteratee that yields a number
    or throws: the iteratee is called on every element in order, so that the
    first throw aborts the sort; the elements are then put in ascending
    order of their numbers, those with equal numbers in their former order
    (the sort of [Sql.orderBy]). *)
Definition sortBy {A} (collection : list A) (iteratee : A -> result Z)
  : result (list A) :=
  match
    mapThrowing
      (fun value =>
         match iteratee value with
         | Ok criteria => Ok (criteria, value)
         | Throw e => Throw e
         end)
      collection
  with
  | Throw e => Throw e
  | Ok keyed => Ok (map snd (Sql.orderBy fst keyed))
  end.

End Lodash.

Definition TIER_ORDER : list string :=
  ["manual"; "lookup"; "imported"; "computed"; "hidden"; "unknown"].

Section Sidebar.
Context `{Common}.

(** The [tier] getter of the table-name class. *)
Variable tier : TableName -> string.

(** The order in which the runtime enumerates the own keys of an object,
    given its entries in the order in which the keys were set.  (Keys that
    are array indices come first in ascending order, whatever the order in
    which they were set.) *)
Variable ownKeys : forall A : Type, list (string * A) -> list (string * A).

(** The iteratee of the sort: the position of the tier of a group in
    [TIER_ORDER]. *)
Definition tierPosition (gn : GroupedName) : result Z :=
  let position := indexOf TIER_ORDER (GroupedName.tier gn) in
  if (position <? 0)%Z
  then Throw (Error ("unexpected tier: " +:+ GroupedName.tier gn))
  else Ok position.

(** The [map] callback of [ngOnInit] that turns the master table names into
    the groups of the sidebar. *)
Definition groupNames (names : list TableName) : result (list GroupedName) :=
  Lodash.sortBy
    (map (fun entry => GroupedName.mk _ (fst entry) (snd entry))
       (ownKeys _ (Lodash.groupBy names tier)))
    tierPosition.

End Sidebar.

(** What the object of [groupBy] holds once the elements of [seen] are in:
    no key twice, under every key the elements of that key in their order,
    at least one, and a key for every element. *)
Definition grouped {A} (iteratee : A -> string) (seen : list A)
    (object : list (string * list A)) : Prop :=
  List.NoDup (map fst object)
  /\ (forall k values,
         In (k, values) object ->
         values <> []
         /\ values = List.filter (fun x => String.eqb (iteratee x) k) seen)
  /\ (forall x, In x seen -> In (iteratee x) (map fst object)).

(** A stand-in for the tier getter: names that start with a hash sign are
    lookup tables, names that start with a question mark are of a tier
    named after them, the others are manual. *)
Definition tierOf (name : string) : string :=
  if Js.startsWith name "#" then "lookup"
  else if Js.startsWith name "?" then name
  else "manual".

(** * Properties *)

(** ** The primitives at work *)

Example sortBy_orders :
  Js.sortBy ["orders__detail"; "customers"; "orders"]
  = ["customers"; "orders"; "orders__detail"].
Proof. reflexivity. Qed.

Example split_enum : Js.split "a','b','c" "','" = ["a"; "b"; "c"].
Proof. reflexivity. Qed.

Example includes_int : Js.includes "bigint(20) unsigned" "int" = true.
Proof. reflexivity. Qed.

Example findEnumValues_abc :
  findEnumValues "enum('a','b','c')" = Ok (Some ["a"; "b"; "c"]).
Proof. reflexivity. Qed.

Example findEnumValues_int : findEnumValues "int(11)" = Ok None.
Proof. reflexivity. Qed.

Example findEnumValues_open :
  findEnumValues "enum(')" = Throw (Error "Expecting a match from input string enum(')").
Proof. reflexivity. Qed.

Example like_underscore : Sql.like "user_roles" "user_roles" = true
  /\ Sql.like "userXroles" "user_roles" = true
  /\ Sql.like "user_role" "user_roles" = false
  /\ Sql.like "orders__detail" "orders%" = true
  /\ Sql.like "a_b" "a\_b" = true
  /\ Sql.like "aXb" "a\_b" = false.
Proof. repeat split. Qed.

Example orderBy_stable :
  Sql.orderBy fst [(2, "b"); (1, "x"); (2, "a"); (1, "y")]%Z
  = [(1, "x"); (1, "y"); (2, "b"); (2, "a")]%Z.
Proof. reflexivity. Qed.

Example constraints_of_A :
  fst (constraints "db" (Some "A") (Reference.start Reference.chain))
  = Fulfilled [Constraint.mk foreign "foo" (Some "B") (Some "bar")].
Proof. reflexivity. Qed.

(** ** String tests *)

Lemma append_cons (a : ascii) (s t : string) :
  String a s +:+ t = String a (s +:+ t).
Proof. reflexivity. Qed.

Lemma startsWith_spec (s p : string) :
  Js.startsWith s p = true <-> starts_with s p.
Proof.
  unfold Js.startsWith, starts_with. revert s.
  induction p as [|a p IH]; intros s.
  - split; [intros _; exists s; reflexivity|].
    intros _. destruct s; reflexivity.
  - destruct s as [|b s].
    + split; [discriminate|]. intros [post Hpost]. discriminate.
    + cbn [String.prefix]. destruct (ascii_dec a b) as [->|Hne].
      * rewrite IH. split.
        -- intros [post ->]. exists post. reflexivity.
        -- intros [post Hpost]. rewrite append_cons in Hpost.
           injection Hpost as ->. exists post. reflexivity.
      * split; [discriminate|]. intros [post Hpost].
        rewrite append_cons in Hpost. congruence.
Qed.

Lemma includes_spec (s sub : string) :
  Js.includes s sub = true <-> contains s sub.
Proof.
  unfold contains. induction s as [|a s IH]; cbn [Js.includes].
  - rewrite orb_false_r, startsWith_spec. split.
    + intros [post Hpost]. exists EmptyString, post. exact Hpost.
    + intros [pre [post Hpost]]. destruct pre as [|b pre].
      * exists post. exact Hpost.
      * rewrite append_cons in Hpost. discriminate.
  - rewrite orb_true_iff, startsWith_spec, IH. split.
    + intros [[post Hpost]|[pre [post Hpost]]].
      * exists EmptyString, post. exact Hpost.
      * exists (String a pre), post. rewrite append_cons. congruence.
    + intros [pre [post Hpost]]. destruct pre as [|b pre].
      * left. exists post. exact Hpost.
      * right. rewrite append_cons in Hpost. injection Hpost as -> ->.
        exists pre, post. reflexivity.
Qed.

Lemma includes_false (s sub : string) :
  Js.includes s sub = false <-> ~ contains s sub.
Proof.
  rewrite <- includes_spec. destruct (Js.includes s sub); split; congruence.
Qed.

Lemma startsWith_false (s p : string) :
  Js.startsWith s p = false <-> ~ starts_with s p.
Proof.
  rewrite <- startsWith_spec. destruct (Js.startsWith s p); split; congruence.
Qed.

(** ** parseType follows the documented rules *)

Lemma firstMatch_functional rules r1 r2 :
  firstMatch rules r1 -> firstMatch rules r2 -> r1 = r2.
Proof.
  intros H1. revert r2. induction H1; intros r2 H2; inversion H2; subst;
    try reflexivity; try contradiction; auto.
Qed.

Lemma eqb_false_neq (s t : string) : String.eqb s t = false -> s <> t.
Proof. intros E. apply String.eqb_neq. exact E. Qed.

Lemma parseType_classify (rawType : string) : classify rawType (parseType rawType).
Proof.
  unfold classify, parseType, documentedRules.
  destruct (Js.includes rawType "tinyint(1)") eqn:E1.
  { apply includes_spec in E1. eexists (Some _). split; [|reflexivity].
    apply firstMatch_here; assumption. }
  apply includes_false in E1.
  destruct (Js.includes rawType "int") eqn:E2.
  { apply includes_spec in E2. eexists (Some _). split; [|reflexivity].
    apply firstMatch_later; [assumption|]. apply firstMatch_here; assumption. }
  apply includes_false in E2.
  destruct (Js.includes rawType "double" || Js.includes rawType "float"
            || Js.includes rawType "decimal") eqn:E3.
  { rewrite !orb_true_iff, !includes_spec in E3.
    eexists (Some _). split; [|reflexivity].
    do 2 (apply firstMatch_later; [assumption|]).
    apply firstMatch_here. tauto. }
  rewrite !orb_false_iff, !includes_false in E3.
  destruct (String.eqb rawType "date") eqn:E4.
  { apply String.eqb_eq in E4. eexists (Some _). split; [|reflexivity].
    do 2 (apply firstMatch_later; [assumption|]).
    apply firstMatch_later; [tauto|]. apply firstMatch_here; assumption. }
  apply eqb_false_neq in E4.
  destruct (String.eqb rawType "datetime" || String.eqb rawType "timestamp") eqn:E5.
  { rewrite orb_true_iff, !String.eqb_eq in E5.
    eexists (Some _). split; [|reflexivity].
    do 2 (apply firstMatch_later; [assumption|]).
    apply firstMatch_later; [tauto|]. apply firstMatch_later; [assumption|].
    apply firstMatch_here; assumption. }
  rewrite orb_false_iff in E5. destruct E5 as [E5a E5b].
  apply eqb_false_neq in E5a, E5b.
  destruct (Js.startsWith rawType "enum") eqn:E6.
  { apply startsWith_spec in E6. eexists (Some _). split; [|reflexivity].
    do 2 (apply firstMatch_later; [assumption|]).
    apply firstMatch_later; [tauto|]. apply firstMatch_later; [assumption|].
    apply firstMatch_later; [tauto|]. apply firstMatch_here; assumption. }
  apply startsWith_false in E6.
  destruct (Js.includes rawType "char") eqn:E7.
  { apply includes_spec in E7. eexists (Some _). split; [|reflexivity].
    do 2 (apply firstMatch_later; [assumption|]).
    apply firstMatch_later; [tauto|]. apply firstMatch_later; [assumption|].
    apply firstMatch_later; [tauto|]. apply firstMatch_later; [assumption|].
    apply firstMatch_here; assumption. }
  apply includes_false in E7.
  destruct (Js.includes rawType "blob") eqn:E8.
  { apply includes_spec in E8. eexists (Some _). split; [|reflexivity].
    do 2 (apply firstMatch_later; [assumption|]).
    apply firstMatch_later; [tauto|]. apply firstMatch_later; [assumption|].
    apply firstMatch_later; [tauto|]. do 2 (apply firstMatch_later; [assumption|]).
    apply firstMatch_here; assumption. }
  apply includes_false in E8.
  exists None. split; [|reflexivity].
  do 2 (apply firstMatch_later; [assumption|]).
  apply firstMatch_later; [tauto|]. apply firstMatch_later; [assumption|].
  apply firstMatch_later; [tauto|]. do 3 (apply firstMatch_later; [assumption|]).
  apply firstMatch_none.
Qed.

(** C6: for every raw type string, [parseType] yields exactly what the
    documented ordered rules yield: the canonical type of the first rule that
    matches (contains tinyint(1): boolean; contains int: integer; contains
    double, float or decimal: float; is date: date; is datetime or timestamp:
    datetime; starts with enum: enum; contains char: string; contains blob:
    blob), and the error carrying the raw string when none matches. *)
Theorem parseType_follows_documented_rules :
  forall (rawType : string) (r : result TableDataType),
    parseType rawType = r <-> classify rawType r.
Proof.
  intros rawType r. split.
  - intros <-. apply parseType_classify.
  - intros [m [Hm ->]].
    destruct (parseType_classify rawType) as [m' [Hm' ->]].
    rewrite (firstMatch_functional _ _ _ Hm Hm'). reflexivity.
Qed.

Example parseType_samples :
  parseType "tinyint(1)" = Ok boolean
  /\ parseType "bigint(20) unsigned" = Ok integer
  /\ parseType "decimal(10,2)" = Ok float
  /\ parseType "date" = Ok date
  /\ parseType "timestamp" = Ok datetime
  /\ parseType "enum('a','b')" = Ok enum
  /\ parseType "varchar(32)" = Ok string_t
  /\ parseType "longblob" = Ok blob
  /\ parseType "json"
     = Throw (Error "Could not determine TableDataType for raw type 'json'").
Proof. repeat split. Qed.

(** ** Default values *)

(** C9: for a column of raw type timestamp, whose canonical type is
    datetime, a raw default equal to the current-timestamp sentinel is not
    turned into the named constant: it is returned as the raw string.  The
    named constant is only produced when the raw type is exactly datetime
    (and the raw default is the sentinel). *)
Theorem timestamp_default_is_not_named_constant :
  forall (CURRENT_TIMESTAMP : string),
    parseType "timestamp" = Ok datetime
    /\ identifyDefaultValue CURRENT_TIMESTAMP "timestamp" datetime
         (Some CURRENT_TIMESTAMP) = DString CURRENT_TIMESTAMP
    /\ identifyDefaultValue CURRENT_TIMESTAMP "timestamp" datetime
         (Some CURRENT_TIMESTAMP) <> DConstant CURRENT_TIMESTAMP
    /\ identifyDefaultValue CURRENT_TIMESTAMP "datetime" datetime
         (Some CURRENT_TIMESTAMP) = DConstant CURRENT_TIMESTAMP
    /\ (forall rawType type rawDefault constantName,
          identifyDefaultValue CURRENT_TIMESTAMP rawType type rawDefault
          = DConstant constantName ->
          rawType = "datetime" /\ rawDefault = Some CURRENT_TIMESTAMP).
Proof.
  intros CT. unfold identifyDefaultValue.
  rewrite bool_decide_eq_true_2 by reflexivity.
  repeat split; try discriminate.
  - destruct (bool_decide (rawDefault = Some CT)) eqn:E1;
      destruct (String.eqb rawType "datetime") eqn:E2; cbn in *;
      try (destruct type, rawDefault; discriminate).
    apply String.eqb_eq. assumption.
  - destruct (bool_decide (rawDefault = Some CT)) eqn:E1;
      destruct (String.eqb rawType "datetime") eqn:E2; cbn in *;
      try (destruct type, rawDefault; discriminate).
    apply bool_decide_eq_true in E1. assumption.
Qed.

(** ** Computations that only read the store *)

Create HintDb readonly.

Section ReadOnly.
Context {Store : Type} `{!Database Store}.

Lemma readonly_ret {A} (a : A) : readonly (ret a : M Store A).
Proof. split; intros; reflexivity. Qed.

Lemma readonly_throw {A} (e : exn) : readonly (throw e : M Store A).
Proof. split; intros; reflexivity. Qed.

Lemma readonly_pending {A} : readonly (pending : M Store A).
Proof. split; intros; reflexivity. Qed.

Lemma readonly_lift {A} (r : result A) : readonly (lift r : M Store A).
Proof. destruct r; [apply readonly_ret|apply readonly_throw]. Qed.

Lemma readonly_send (s : statement) : readonly (send s : M Store unit).
Proof. split; intros; reflexivity. Qed.

Lemma readonly_ask : readonly (ask : M Store Store).
Proof. split; [reflexivity|]. intros st1 st2 E. cbn. rewrite E. reflexivity. Qed.

Lemma readonly_bind {A B} (m : M Store A) (k : A -> M Store B) :
  readonly m -> (forall a, readonly (k a)) -> readonly (bind m k).
Proof.
  intros [Hs Ho] Hk. split.
  - intros st. unfold bind. specialize (Hs st).
    destruct (m st) as [[a|e|] st']; cbn in *; try assumption.
    rewrite (proj1 (Hk a) st'). assumption.
  - intros st1 st2 E. unfold bind.
    pose proof (Ho st1 st2 E) as Eo.
    pose proof (Hs st1) as E1. pose proof (Hs st2) as E2.
    destruct (m st1) as [o1 st1'], (m st2) as [o2 st2']; cbn in *. subst o2.
    destruct o1 as [a|e|]; cbn; try reflexivity.
    apply (proj2 (Hk a)). congruence.
Qed.

Hint Resolve readonly_ret readonly_throw readonly_pending readonly_lift
  readonly_send readonly_ask : readonly.

Ltac solve_readonly :=
  repeat (apply readonly_bind; [|intros]); eauto with readonly.

Lemma readonly_executeShowTables id : readonly (executeShowTables id).
Proof. unfold executeShowTables. solve_readonly. Qed.

Lemma readonly_executeSelectColumns schema name :
  readonly (executeSelectColumns schema name).
Proof. unfold executeSelectColumns. solve_readonly. Qed.

Lemma readonly_executeSelectKeyColumnUsage schema table :
  readonly (executeSelectKeyColumnUsage schema table).
Proof. unfold executeSelectKeyColumnUsage. solve_readonly. Qed.

Lemma readonly_executeSelectCount target : readonly (executeSelectCount target).
Proof. unfold executeSelectCount. solve_readonly. Qed.

Lemma readonly_constraints schema table : readonly (constraints schema table).
Proof.
  unfold constraints. apply readonly_bind; [|intros; apply readonly_ret].
  apply readonly_executeSelectKeyColumnUsage.
Qed.

Lemma readonly_getConstraints schema cache table :
  readonly (getConstraints schema cache table).
Proof.
  unfold getConstraints. destruct (cache !! Js.show table); [apply readonly_ret|].
  destruct (Js.inherited (Js.show table)); [apply readonly_ret|].
  apply readonly_constraints.
Qed.

Lemma readonly_advance schema cache c : readonly (advance schema cache c).
Proof.
  unfold advance. apply readonly_bind; [apply readonly_getConstraints|].
  intros. apply readonly_lift.
Qed.

Lemma readonly_walk fuel schema cache c previous :
  readonly (walk fuel schema cache c previous).
Proof.
  revert c previous. induction fuel as [|fuel IH]; intros c previous; cbn [walk].
  - destruct (bool_decide _); [apply readonly_ret|apply readonly_pending].
  - destruct (bool_decide _); [apply readonly_ret|].
    apply readonly_bind; [apply readonly_advance|]. intros. apply IH.
Qed.

Lemma readonly_resolveEach fuel schema cache originals resolved :
  readonly (resolveEach fuel schema cache originals resolved).
Proof.
  revert resolved.
  induction originals as [|c rest IH]; intros resolved; cbn [resolveEach].
  - apply readonly_ret.
  - destruct (bool_decide _); [apply IH|].
    apply readonly_bind; [apply readonly_walk|]. intros. apply IH.
Qed.

Lemma readonly_resolveConstraints fuel schema originals :
  readonly (resolveConstraints fuel schema originals).
Proof. apply readonly_resolveEach. Qed.

End ReadOnly.

(** ** The walk along a chain of foreign keys *)

Section Walk.
Context {Store : Type} `{!Database Store}.

Lemma walk_primary fuel schema cache c previous :
  Constraint.type c = primary ->
  walk fuel schema cache c previous = ret previous.
Proof.
  intros E. destruct fuel; cbn [walk];
    rewrite bool_decide_eq_true_2 by assumption; reflexivity.
Qed.

Lemma walk_step fuel schema cache c previous :
  Constraint.type c <> primary ->
  walk (S fuel) schema cache c previous
  = bind (advance schema cache c)
      (fun next => walk fuel schema cache next (Some c)).
Proof.
  intros E. cbn [walk]. rewrite bool_decide_eq_false_2 by assumption.
  reflexivity.
Qed.

Lemma walk_out_of_fuel schema cache c previous st :
  Constraint.type c <> primary ->
  fst (walk 0 schema cache c previous st) = Pending.
Proof.
  intros E. cbn [walk]. rewrite bool_decide_eq_false_2 by assumption.
  reflexivity.
Qed.

(** An iteration either finds the next link or throws, naming the column
    it looked for. *)
Lemma advance_outcome schema cache c st :
  (exists next, fst (advance schema cache c st) = Fulfilled next)
  \/ fst (advance schema cache c st)
     = Rejected (couldNotFind (Constraint.foreignColumn c)).
Proof.
  unfold advance, bind.
  assert (exists others st',
            getConstraints schema cache (Constraint.foreignTable c) st
            = (Fulfilled others, st')) as [others [st' ->]].
  { unfold getConstraints.
    destruct (cache !! _); [eexists _, _; reflexivity|].
    destruct (Js.inherited _); eexists _, _; reflexivity. }
  unfold findConstraint.
  destruct (Js.find others _); cbn; eauto.
Qed.

(** With nothing in the cache, a column without a record in the list that
    [constraints] returns is not found. *)
Lemma advance_dangling schema c others st0 st :
  fst (constraints schema (Constraint.foreignTable c) st0) = Fulfilled others ->
  Js.find others
    (fun other => bool_decide (Some (Constraint.localColumn other)
                               = Constraint.foreignColumn c)) = None ->
  store st = store st0 ->
  fst (advance schema ∅ c st)
  = Rejected (couldNotFind (Constraint.foreignColumn c)).
Proof.
  intros Hothers Hfind Hstore. unfold advance, bind, getConstraints.
  rewrite lookup_empty.
  destruct (Js.inherited _).
  - reflexivity.
  - rewrite <- (proj2 (readonly_constraints schema (Constraint.foreignTable c))
                  st st0 Hstore) in Hothers.
    destruct (constraints schema (Constraint.foreignTable c) st) as [o st'].
    cbn in Hothers. subst o. unfold findConstraint. rewrite Hfind. reflexivity.
Qed.

(** The loop over a list that starts with constraints that resolve goes on
    with the rest of the list. *)
Lemma resolveEach_app fuel schema cache pre rest resolved resolved' st st' :
  resolveEach fuel schema cache pre resolved st = (Fulfilled resolved', st') ->
  resolveEach fuel schema cache (pre ++ rest) resolved st
  = resolveEach fuel schema cache rest resolved' st'.
Proof.
  revert resolved st. induction pre as [|c pre IH]; intros resolved st Hpre.
  - cbn in Hpre. injection Hpre as -> ->. reflexivity.
  - cbn [resolveEach app] in *. destruct (bool_decide _).
    + apply IH. assumption.
    + unfold bind in *.
      destruct (walk fuel schema cache c None st) as [[p|e|] st1];
        try discriminate.
      apply IH. assumption.
Qed.

End Walk.

(** ** Closed evaluations on the reference store *)

Import Reference.

(** C1: on the chain A.foo -> B.bar -> C.baz (primary), resolving the
    constraint list of A yields a single foreign constraint whose target is
    C.baz, but whose local column is bar, the column of the intermediate
    table B, and not foo. *)
Theorem resolveConstraints_chain_yields_intermediate_link :
  fst (resolveConstraints 2 "db"
         [fooToB] (start chain))
  = Fulfilled [Constraint.mk foreign "bar" (Some "C") (Some "baz")].
Proof. reflexivity. Qed.

(** C5: resolving two foreign constraints that reference the same table C
    sends the key-usage query for C to the store twice: nothing is ever
    written to the cache. *)
Theorem resolveConstraints_fetches_table_twice :
  sent (snd (resolveConstraints 1 "db"
               [ Constraint.mk foreign "x" (Some "C") (Some "id");
                 Constraint.mk foreign "y" (Some "C") (Some "id") ]
               (start twoReferences)))
  = [ SelectKeyColumnUsage "db" (Some "C");
      SelectKeyColumnUsage "db" (Some "C") ].
Proof. reflexivity. Qed.

(** C8: for the raw type enum('point','line'), which [parseType] accepts,
    [headers] produces a header whose canonical type is integer and whose
    enum values are present. *)
Theorem headers_enum_values_without_enum_type :
  exists id kind,
    fst (headers "db" "shapes" (start shapes)) = Fulfilled [id; kind]
    /\ TableHeader.rawType kind = "enum('point','line')"
    /\ TableHeader.type kind = integer
    /\ TableHeader.enumValues kind = Some ["point"; "line"].
Proof. eexists _, _. repeat split. Qed.

(** C2: with prepared rows for orders and for orders__detail, the names are
    visited in ascending order, and both insert statements name the table
    passed to [insertRow] as their target: the rows prepared for
    orders__detail are inserted into orders. *)
Theorem insertRow_inserts_part_rows_into_master :
  Js.sortBy (keys submissionSameColumns) = ["orders"; "orders__detail"]
  /\ insertRow "db" "orders" submissionSameColumns (start orders)
     = (Fulfilled tt,
        {| store :=
             {| catalog := orders;
                data :=
                  [ ("`db`.`orders`",
                     [("`id`", VNumber (Literal 7)); ("`paid`", VNumber (Literal 1))]);
                    ("`db`.`orders`", [("`id`", VNumber (Literal 1))]) ] |};
           sent :=
             [ InsertInto "`db`.`orders`"
                 [[("`id`", VNumber (Literal 7)); ("`paid`", VNumber (Literal 1))]];
               InsertInto "`db`.`orders`" [[("`id`", VNumber (Literal 1))]] ] |}).
Proof. split; reflexivity. Qed.

(** ** Header selection *)

Lemma orderBy_insert_In {A} (key : A -> Z) (x r : A) (l : list A) :
  In r (Sql.orderBy_insert key x l) <-> r = x \/ In r l.
Proof.
  induction l as [|y l IH]; cbn [Sql.orderBy_insert].
  - cbn. intuition.
  - destruct (key x <? key y)%Z; cbn [In]; [intuition|].
    rewrite IH. intuition.
Qed.

Lemma orderBy_In {A} (key : A -> Z) (r : A) (l : list A) :
  In r (Sql.orderBy key l) <-> In r l.
Proof.
  unfold Sql.orderBy. rewrite (in_rev l).
  induction (rev l) as [|y l' IH]; cbn [fold_right]; [reflexivity|].
  rewrite orderBy_insert_In, IH. cbn. intuition.
Qed.

(** C10: the rows [headers] reads are the catalog columns of the schema
    whose table name is LIKE the given name, and not only those of the table
    with that name: on a catalog with the tables user_roles and userXroles,
    [meta] for user_roles returns the columns of both tables. *)
Theorem headers_like_returns_columns_of_every_matching_table :
  (forall (Store : Type) (D : Database Store) (schema name : string)
          (st : state Store),
      exists rows st',
        executeSelectColumns schema name st = (Fulfilled rows, st')
        /\ forall r, In r rows <->
             In r (COLUMNS (information_schema (store st)))
             /\ Columns.TABLE_SCHEMA r = schema
             /\ Sql.like (Columns.TABLE_NAME r) name = true)
  /\ Sql.like "userXroles" "user_roles" = true
  /\ exists m,
       fst (meta 0 "db" "user_roles" (start userRoles)) = Fulfilled m
       /\ map (fun h => (TableHeader.tableName h, TableHeader.name h))
            (TableMeta.headers m)
          = [ ("user_roles", "user_id"); ("userXroles", "legacy_id");
              ("user_roles", "role"); ("userXroles", "notes") ].
Proof.
  split; [|split; [reflexivity|eexists; split; reflexivity]].
  intros Store D schema name st. eexists _, _. split; [reflexivity|].
  intros r. rewrite orderBy_In, filter_In, andb_true_iff, String.eqb_eq.
  reflexivity.
Qed.

(** ** Termination of resolveConstraints *)

Lemma advance_at {Store} `{!Database Store} schema cache c next
    (st0 st : state Store) :
  fst (advance schema cache c st0) = Fulfilled next ->
  store st = store st0 ->
  exists st', advance schema cache c st = (Fulfilled next, st')
              /\ store st' = store st0.
Proof.
  intros Hnext Hstore.
  pose proof (proj2 (readonly_advance schema cache c) st st0 Hstore) as Eo.
  pose proof (proj1 (readonly_advance schema cache c) st) as Es.
  destruct (advance schema cache c st) as [o st']. cbn [fst snd] in Eo, Es.
  exists st'. split; [congruence|congruence].
Qed.

(** On the cyclic catalog the walk is pending whatever the fuel. *)
Lemma walk_cycle_pending fuel :
  forall previous st,
    store st = store (start cycle) ->
    fst (walk fuel "db" ∅ xToB
           previous st) = Pending
    /\ fst (walk fuel "db" ∅ yToA
              previous st) = Pending.
Proof.
  assert (fst (advance "db" ∅ xToB (start cycle)) = Fulfilled yToA) as HA
    by reflexivity.
  assert (fst (advance "db" ∅ yToA (start cycle)) = Fulfilled xToB) as HB
    by reflexivity.
  induction fuel as [|fuel IH]; intros previous st Hstore.
  - split; apply walk_out_of_fuel; discriminate.
  - split; rewrite walk_step by discriminate; unfold bind.
    + destruct (advance_at "db" ∅ xToB yToA (start cycle) st HA Hstore)
        as [st' [-> Hst']].
      apply IH. assumption.
    + destruct (advance_at "db" ∅ yToA xToB (start cycle) st HB Hstore)
        as [st' [-> Hst']].
      apply IH. assumption.
Qed.

(** C3, as stated, fails: on a catalog where A.x references B.y and B.y
    references A.x, no amount of fuel lets [resolveConstraints] settle; it
    neither returns nor fails. *)
Lemma resolveConstraints_cycle_never_settles :
  ~ exists fuel,
      settled (fst (resolveConstraints fuel "db"
                      [xToB]
                      (start cycle))).
Proof.
  intros [fuel Hsettled].
  unfold resolveConstraints in Hsettled. cbn [resolveEach] in Hsettled.
  rewrite bool_decide_eq_false_2 in Hsettled by (intros E; apply E; reflexivity).
  unfold bind in Hsettled.
  pose proof (proj1 (walk_cycle_pending fuel None (start cycle) eq_refl)) as E.
  destruct (walk fuel "db" ∅ _ None (start cycle)) as [o st']. cbn [fst] in E.
  subst o. exact Hsettled.
Qed.

(** The chain of the constraint of A in [chain] ends after two hops. *)
Lemma chain_ends :
  forall c, In c [fooToB] -> Constraint.type c = foreign ->
    chainEnds (start chain) "db" c.
Proof.
  intros c [<-|[]] _.
  constructor. intros next [_ Hnext]. vm_compute in Hnext.
  injection Hnext as <-.
  constructor. intros next [_ Hnext]. vm_compute in Hnext.
  injection Hnext as <-.
  constructor. intros next [Hprimary _]. exfalso. apply Hprimary. reflexivity.
Qed.

(** ** A foreign key to a column without a constraint record *)

Section Dangling.
Context `{Common} {Store : Type} `{!Database Store}.

Lemma readonly_tables db : readonly (tables db).
Proof.
  unfold tables. apply readonly_bind; [apply readonly_executeShowTables|].
  intros. apply readonly_ret.
Qed.

Lemma readonly_headers schema name : readonly (headers schema name).
Proof.
  unfold headers. apply readonly_bind; [apply readonly_executeSelectColumns|].
  intros. apply readonly_lift.
Qed.

Lemma readonly_count schema table : readonly (count schema table).
Proof. apply readonly_executeSelectCount. Qed.

(** The fourth promise of [meta]: the constraints of the table, resolved. *)
Lemma meta_constraints fuel schema table (st : state Store) :
  exists st3 st5 o1 o2 o3 o5,
    store st3 = store st
    /\ meta fuel schema table st
       = match o1, o2, o3,
               fst (bind (constraints schema (Some table))
                      (resolveConstraints fuel schema) st3), o5 with
         | Fulfilled allTables', Fulfilled hs', Fulfilled n', Fulfilled cs',
           Fulfilled cm' =>
             (Fulfilled
                {| TableMeta.name := table;
                   TableMeta.headers := hs';
                   TableMeta.totalRows := n';
                   TableMeta.constraints := cs';
                   TableMeta.comment := cm';
                   TableMeta.parts :=
                     match Js.find (unflattenTableNames allTables')
                             (fun t => String.eqb (rawName t) table) with
                     | Some t => parts t
                     | None => []
                     end |}, st5)
         | _, _, _, cs, _ =>
             match reasons o1 ++ reasons o2 ++ reasons o3 ++ reasons cs
                   ++ reasons o5 with
             | [] => (Pending, st5)
             | rs => (Rejected rs, st5)
             end
         end.
Proof.
  unfold meta.
  pose proof (proj1 (readonly_tables schema) st) as E1.
  destruct (tables schema st) as [o1 st1]. cbn [snd] in E1.
  pose proof (proj1 (readonly_headers schema table) st1) as E2.
  destruct (headers schema table st1) as [o2 st2]. cbn [snd] in E2.
  pose proof (proj1 (readonly_count schema table) st2) as E3.
  destruct (count schema table st2) as [o3 st3]. cbn [snd] in E3.
  destruct (bind (constraints schema (Some table))
              (fun result => resolveConstraints fuel schema result) st3)
    as [o4 st4] eqn:E4.
  destruct (comment schema table st4) as [o5 st5].
  exists st3, st5, o1, o2, o3, o5. split; [congruence|].
  change (bind (constraints schema (Some table)) (resolveConstraints fuel schema) st3)
    with (bind (constraints schema (Some table))
            (fun result => resolveConstraints fuel schema result) st3).
  rewrite E4. cbn [fst].
  destruct o1, o2, o3, o4, o5; reflexivity.
Qed.

(** The outcome of that promise, from the list [constraints] returns. *)
Lemma constraints_then_resolve fuel schema table originals (st0 st : state Store) :
  fst (constraints schema (Some table) st0) = Fulfilled originals ->
  store st = store st0 ->
  fst (bind (constraints schema (Some table)) (resolveConstraints fuel schema) st)
  = fst (resolveConstraints fuel schema originals st0).
Proof.
  intros Horiginals Hstore. unfold bind.
  pose proof (proj2 (readonly_constraints schema (Some table)) st st0 Hstore) as Eo.
  pose proof (proj1 (readonly_constraints schema (Some table)) st) as Es.
  destruct (constraints schema (Some table) st) as [o st']. cbn [fst snd] in Eo, Es.
  rewrite Horiginals in Eo. subst o.
  apply (proj2 (readonly_resolveConstraints fuel schema originals)). congruence.
Qed.

(** [meta] is fulfilled only when the resolution of the constraints is. *)
Lemma meta_fulfilled fuel schema table originals m (st : state Store) :
  fst (constraints schema (Some table) st) = Fulfilled originals ->
  fst (meta fuel schema table st) = Fulfilled m ->
  exists resolved,
    fst (resolveConstraints fuel schema originals st) = Fulfilled resolved.
Proof.
  intros Horiginals Hmeta.
  destruct (meta_constraints fuel schema table st)
    as (st3 & st5 & o1 & o2 & o3 & o5 & Hstore & Emeta).
  rewrite Emeta in Hmeta.
  rewrite (constraints_then_resolve fuel schema table originals st st3
             Horiginals Hstore) in Hmeta.
  destruct (fst (resolveConstraints fuel schema originals st)) as [cs|e|];
    [eexists; reflexivity|exfalso..];
    destruct o1, o2, o3, o5; cbn in Hmeta; discriminate.
Qed.

(** When the resolution of the constraints of the table is rejected, so is
    [meta], and the reason is among those of the rejected promises. *)
Lemma meta_rejected fuel schema table originals e (st : state Store) :
  fst (constraints schema (Some table) st) = Fulfilled originals ->
  fst (resolveConstraints fuel schema originals st) = Rejected e ->
  exists rs, fst (meta fuel schema table st) = Rejected rs /\ In e rs.
Proof.
  intros Horiginals Hrejected.
  destruct (meta_constraints fuel schema table st)
    as (st3 & st5 & o1 & o2 & o3 & o5 & Hstore & ->).
  rewrite (constraints_then_resolve fuel schema table originals st st3
             Horiginals Hstore), Hrejected.
  destruct o1, o2, o3, o5; cbn; eexists; (split; [reflexivity|cbn; tauto]).
Qed.

(** The walk from a foreign constraint whose referenced column has no record
    never yields a link. *)
Lemma walk_dangling fuel schema c others previous (st0 st : state Store) :
  Constraint.type c = foreign ->
  fst (constraints schema (Constraint.foreignTable c) st0) = Fulfilled others ->
  Js.find others
    (fun other => bool_decide (Some (Constraint.localColumn other)
                               = Constraint.foreignColumn c)) = None ->
  store st = store st0 ->
  fst (walk fuel schema ∅ c previous st)
  = match fuel with
    | O => Pending
    | S _ => Rejected (couldNotFind (Constraint.foreignColumn c))
    end.
Proof.
  intros Hc Hothers Hfind Hstore. destruct fuel as [|fuel].
  - apply walk_out_of_fuel. rewrite Hc. discriminate.
  - rewrite walk_step by (rewrite Hc; discriminate). unfold bind.
    pose proof (advance_dangling schema c others st0 st Hothers Hfind Hstore) as E.
    destruct (advance schema ∅ c st) as [o st']. cbn in E. subst o. reflexivity.
Qed.

(** A list is resolved only when each of its prefixes is. *)
Lemma resolveEach_prefix fuel schema cache pre rest resolved r (st : state Store) :
  fst (resolveEach fuel schema cache (pre ++ rest) resolved st) = Fulfilled r ->
  exists resolved' st',
    resolveEach fuel schema cache pre resolved st = (Fulfilled resolved', st').
Proof.
  revert resolved st. induction pre as [|c pre IH]; intros resolved st Hall.
  - eexists _, _. reflexivity.
  - cbn [resolveEach app] in *. destruct (bool_decide _).
    + apply IH. assumption.
    + unfold bind in *.
      destruct (walk fuel schema cache c None st) as [[p|e|] st1];
        try discriminate.
      apply IH. assumption.
Qed.

Lemma resolveConstraints_dangling fuel schema pre c post others (st : state Store) :
  Constraint.type c = foreign ->
  fst (constraints schema (Constraint.foreignTable c) st) = Fulfilled others ->
  Js.find others
    (fun other => bool_decide (Some (Constraint.localColumn other)
                               = Constraint.foreignColumn c)) = None ->
  (forall resolved,
      fst (resolveConstraints fuel schema (pre ++ c :: post) st)
      <> Fulfilled resolved)
  /\ (forall resolved st',
        resolveConstraints fuel schema pre st = (Fulfilled resolved, st') ->
        0 < fuel ->
        fst (resolveConstraints fuel schema (pre ++ c :: post) st)
        = Rejected (couldNotFind (Constraint.foreignColumn c))).
Proof.
  intros Hc Hothers Hfind. unfold resolveConstraints.
  assert (forall resolved st',
            resolveEach fuel schema ∅ pre [] st = (Fulfilled resolved, st') ->
            fst (resolveEach fuel schema ∅ (pre ++ c :: post) [] st)
            = match fuel with
              | O => Pending
              | S _ => Rejected (couldNotFind (Constraint.foreignColumn c))
              end) as Hafter.
  { intros resolved st' Hpre.
    rewrite (resolveEach_app _ _ _ _ _ _ _ _ _ Hpre). cbn [resolveEach].
    rewrite bool_decide_eq_false_2 by (rewrite Hc; intros E; apply E; reflexivity).
    unfold bind.
    assert (store st' = store st) as Hstore.
    { pose proof (proj1 (readonly_resolveEach fuel schema ∅ pre []) st) as Es.
      rewrite Hpre in Es. exact Es. }
    pose proof (walk_dangling fuel schema c others None st st'
                  Hc Hothers Hfind Hstore) as E.
    destruct (walk fuel schema ∅ c None st') as [o st'']. cbn [fst] in E. subst o.
    destruct fuel; reflexivity. }
  split.
  - intros resolved Hall.
    destruct (resolveEach_prefix _ _ _ _ _ _ _ _ Hall) as (resolved' & st' & Hpre).
    rewrite (Hafter _ _ Hpre) in Hall. destruct fuel; discriminate.
  - intros resolved st' Hpre Hfuel. rewrite (Hafter _ _ Hpre).
    destruct fuel; [lia|reflexivity].
Qed.

End Dangling.

Example meta_of_dangling_table :
  fst (meta 1 "db" "A" (start dangling))
  = Rejected [Error "could not find constraint with name 'bar'"].
Proof. reflexivity. Qed.

(** ** The statements of insertRow *)

Section Inserts.
Context {Store : Type} `{!Database Store}.

(** Every statement the loop of [insertRow] sends is an insert into the
    table given to [insertRow], whatever the name being visited. *)
Lemma insertEach_targets schema table preparedData names (st : state Store) :
  exists new,
    sent (snd (insertEach schema table preparedData names st)) = sent st ++ new
    /\ Forall (fun s => exists rows,
                 s = InsertInto (escapeId schema +:+ "." +:+ escapeId table) rows)
         new.
Proof.
  revert st. induction names as [|name rest IH]; intros st; cbn [insertEach].
  - exists []. split; [cbn; rewrite app_nil_r; reflexivity|constructor].
  - unfold bind at 1. unfold executeInsert, bind, send, ask, lift, put. cbn.
    destruct (insertInto _ _ (store st)) as [s'|e]; cbn.
    + match goal with |- context [insertEach _ _ _ rest ?st1] =>
        destruct (IH st1) as [new [Hsent Hall]] end.
      rewrite Hsent. cbn. rewrite <- app_assoc. eexists. split; [reflexivity|].
      constructor; [eexists; reflexivity|assumption].
    + eexists. split; [reflexivity|].
      constructor; [eexists; reflexivity|constructor].
Qed.

(** The loop over a list that starts with names whose inserts succeed goes
    on with the rest of the list. *)
Lemma insertEach_app schema table preparedData before rest (st st1 : state Store) :
  insertEach schema table preparedData before st = (Fulfilled tt, st1) ->
  insertEach schema table preparedData (before ++ rest) st
  = insertEach schema table preparedData rest st1.
Proof.
  revert st. induction before as [|name before IH]; intros st Hbefore.
  - cbn in Hbefore. injection Hbefore as ->. reflexivity.
  - cbn [insertEach app] in *. unfold bind at 1. unfold bind at 1 in Hbefore.
    destruct (executeInsert _ _ st) as [[[]|e|] st']; try discriminate.
    apply IH. assumption.
Qed.

(** An insert the store refuses rejects the loop with the store's error. *)
Lemma insertEach_refused schema table preparedData name rest e (st : state Store) :
  insertInto (escapeId schema +:+ "." +:+ escapeId table)
    (map prepareForInsert (default [] (preparedData !! name))) (store st)
  = Throw e ->
  fst (insertEach schema table preparedData (name :: rest) st) = Rejected e.
Proof.
  intros Hrefused. cbn [insertEach].
  unfold bind at 1. unfold executeInsert, bind, send, ask, lift, put. cbn.
  rewrite Hrefused. reflexivity.
Qed.

End Inserts.

(** ** insertRow and the transaction *)

(** C7: when [insertRow] is rejected, whether by the validator or by an
    insert inside the transaction, the store afterwards is the store before
    the call: no row of a partial multi-table insert remains.  And an insert
    the store refuses, after the inserts for the names before it have
    succeeded, rejects [insertRow] with the store's error. *)
Theorem insertRow_rejected_leaves_store_unchanged :
  forall (Store : Type) (D : Database Store) (V : TableInputValidator Store)
         (schema table : string) (data : SubmittedData) (st : state Store),
    (forall e,
        fst (insertRow schema table data st) = Rejected e ->
        store (snd (insertRow schema table data st)) = store st)
    /\ (forall preparedData before name after st1 e,
          validate schema data (store st) = Ok preparedData ->
          Js.sortBy (keys preparedData) = before ++ name :: after ->
          insertEach schema table preparedData before st = (Fulfilled tt, st1) ->
          insertInto (escapeId schema +:+ "." +:+ escapeId table)
            (map prepareForInsert (default [] (preparedData !! name))) (store st1)
          = Throw e ->
          fst (insertRow schema table data st) = Rejected e
          /\ store (snd (insertRow schema table data st)) = store st).
Proof.
  intros Store D V schema table data st.
  assert (forall e,
             fst (insertRow schema table data st) = Rejected e ->
             store (snd (insertRow schema table data st)) = store st) as Hback.
  { intros e. unfold insertRow, bind, ask, lift.
    destruct (validate schema data (store st)) as [preparedData|e'];
      [|reflexivity].
    cbn. unfold transaction.
    destruct (insertEach schema table preparedData
                (Js.sortBy (keys preparedData)) st) as [[[]|e'|] st'];
      cbn; intros E; try discriminate. reflexivity. }
  split; [exact Hback|].
  intros preparedData before name after st1 e Hvalid Hnames Hbefore Hrefused.
  assert (fst (insertRow schema table data st) = Rejected e) as Hrejected.
  { unfold insertRow, bind, ask, lift. rewrite Hvalid. cbn.
    unfold transaction. rewrite Hnames.
    rewrite (insertEach_app _ _ _ _ _ _ _ Hbefore).
    pose proof (insertEach_refused schema table preparedData name after e st1
                  Hrefused) as E.
    destruct (insertEach schema table preparedData (name :: after) st1)
      as [o st2]. cbn [fst] in E. subst o. reflexivity. }
  split; [exact Hrejected|]. exact (Hback e Hrejected).
Qed.

(** C7 at a submission for orders and orders__detail: the insert for orders
    succeeds, the store refuses the second insert, and the store ends as it
    began. *)
Lemma insertRow_rolls_back_on_reference_store :
  fst (insertRow "db" "orders" submission (start orders))
  = Rejected (StoreError "Unknown column in `db`.`orders`")
  /\ store (snd (insertRow "db" "orders" submission (start orders)))
     = store (start orders).
Proof.
  exact (proj2 (insertRow_rejected_leaves_store_unchanged Store database
                  validator "db" "orders" submission (start orders))
           submission ["orders"] "orders__detail" []
           (snd (insertEach "db" "orders" submission ["orders"] (start orders)))
           (StoreError "Unknown column in `db`.`orders`")
           eq_refl eq_refl eq_refl eq_refl).
Defined.

(** Without the transaction around it, the loop of [insertRow] leaves the
    row of the first insert in the store when the second insert fails. *)
Example insertEach_alone_is_partial :
  insertEach "db" "orders" submission ["orders"; "orders__detail"] (start orders)
  = (Rejected (StoreError "Unknown column in `db`.`orders`"),
     {| store :=
          {| catalog := orders;
             data := [ ("`db`.`orders`",
                        [("`id`", VNumber (Literal 7));
                         ("`paid`", VNumber (Literal 1))]) ] |};
        sent :=
          [ InsertInto "`db`.`orders`"
              [[("`id`", VNumber (Literal 7)); ("`paid`", VNumber (Literal 1))]];
            InsertInto "`db`.`orders`"
              [[("`id`", VNumber (Literal 1)); ("`item`", VString "tea")]] ] |}).
Proof. reflexivity. Qed.

(** ** What resolveConstraints returns for a chain *)

Section LastLink.
Context {Store : Type} `{!Database Store}.

Lemma walk_leadsTo (st : state Store) schema c last n :
  leadsTo st schema c last n ->
  forall fuel previous st1,
    n <= fuel -> store st1 = store st ->
    fst (walk fuel schema ∅ c previous st1) = Fulfilled (Some last).
Proof.
  induction 1 as [c p [Hc Hp] Hprimary|c next last n [Hc Hnext] Hnp _ IH];
    intros fuel previous st1 Hfuel Hstore;
    (destruct fuel as [|fuel]; [lia|]);
    rewrite walk_step by assumption; unfold bind.
  - destruct (advance_at schema ∅ c p st st1 Hp Hstore) as [st' [-> Hst']].
    rewrite walk_primary by assumption. reflexivity.
  - destruct (advance_at schema ∅ c next st st1 Hnext Hstore) as [st' [-> Hst']].
    apply IH; [lia|assumption].
Qed.

Lemma leadsTo_target (st : state Store) schema c last n :
  leadsTo st schema c last n ->
  exists p, hop st schema last p /\ Constraint.type p = primary.
Proof. induction 1; eauto. Qed.

End LastLink.

(** X1: when the chain of a foreign constraint reaches a primary constraint,
    [resolveConstraints] on the list that holds just that constraint returns
    the last link of the chain, the record found just before the primary
    one (the given constraint itself only when the chain has a single hop);
    the column that link references is backed by a primary constraint. *)
Theorem resolveConstraints_returns_last_link :
  forall (Store : Type) (D : Database Store) (st : state Store)
         (schema : string) (c last : Constraint) (n fuel : nat),
    Constraint.type c = foreign ->
    leadsTo st schema c last n ->
    n <= fuel ->
    fst (resolveConstraints fuel schema [c] st) = Fulfilled [last]
    /\ exists p, hop st schema last p /\ Constraint.type p = primary.
Proof.
  intros Store D st schema c last n fuel Hc Hleads Hfuel.
  split; [|exact (leadsTo_target st schema c last n Hleads)].
  unfold resolveConstraints. cbn [resolveEach].
  rewrite bool_decide_eq_false_2 by (rewrite Hc; intros E; apply E; reflexivity).
  unfold bind.
  pose proof (walk_leadsTo st schema c last n Hleads fuel None st Hfuel eq_refl)
    as E.
  destruct (walk fuel schema ∅ c None st) as [o st']. cbn [fst] in E. subst o.
  reflexivity.
Qed.

(** X1 at the chain A.foo -> B.bar -> C.baz. *)
Lemma resolveConstraints_returns_last_link_of_chain :
  fst (resolveConstraints 2 "db" [fooToB] (start chain))
  = Fulfilled [Constraint.mk foreign "bar" (Some "C") (Some "baz")]
  /\ exists p,
      hop (start chain) "db" (Constraint.mk foreign "bar" (Some "C") (Some "baz")) p
      /\ Constraint.type p = primary.
Proof.
  refine (resolveConstraints_returns_last_link Store database (start chain)
            "db" fooToB (Constraint.mk foreign "bar" (Some "C") (Some "baz"))
            2 2 eq_refl _ (le_n 2)).
  apply (leadsTo_next _ _ _ (Constraint.mk foreign "bar" (Some "C") (Some "baz"))).
  - split; [discriminate|reflexivity].
  - discriminate.
  - apply (leadsTo_last _ _ _ (Constraint.mk primary "baz" None None)).
    + split; [discriminate|reflexivity].
    + reflexivity.
Defined.

(** ** The order in which insertRow visits the target tables *)

Lemma ltb_leb (x y : string) : String.ltb x y = true -> String.leb x y = true.
Proof.
  unfold String.ltb, String.leb.
  destruct (String.compare x y); intros; congruence.
Qed.

Lemma not_ltb_leb (x y : string) : String.ltb x y = false -> String.leb y x = true.
Proof.
  unfold String.ltb, String.leb. rewrite (String.compare_antisym y x).
  destruct (String.compare x y); cbn; intros; congruence.
Qed.

Lemma leb_trans (x y z : string) :
  String.leb x y = true -> String.leb y z = true -> String.leb x z = true.
Proof.
  intros Hxy Hyz. apply Is_true_true.
  apply (@transitivity _ String.le _ x y z); apply Is_true_true; assumption.
Qed.

Lemma sortBy_insert_Permutation x l : Permutation (Js.sortBy_insert x l) (x :: l).
Proof.
  induction l as [|y l IH]; cbn [Js.sortBy_insert]; [reflexivity|].
  destruct (String.ltb x y); [reflexivity|].
  rewrite IH. apply perm_swap.
Qed.

Lemma sortBy_insert_sorted x l :
  StronglySorted (fun a b => String.leb a b = true) l ->
  StronglySorted (fun a b => String.leb a b = true) (Js.sortBy_insert x l).
Proof.
  induction 1 as [|y l Hl IH Hy]; cbn [Js.sortBy_insert].
  - repeat constructor.
  - destruct (String.ltb x y) eqn:E.
    + constructor; [constructor; assumption|].
      constructor; [apply ltb_leb; assumption|].
      eapply Forall_impl; [exact Hy|]. intros z Hz.
      eapply leb_trans; [apply ltb_leb; exact E|exact Hz].
    + constructor; [exact IH|].
      rewrite (sortBy_insert_Permutation x l).
      constructor; [apply not_ltb_leb; assumption|assumption].
Qed.

Lemma sortBy_Permutation l : Permutation (Js.sortBy l) l.
Proof.
  unfold Js.sortBy. rewrite (Permutation_rev l) at 2.
  induction (rev l) as [|x l' IH]; cbn [fold_right]; [reflexivity|].
  rewrite sortBy_insert_Permutation, IH. reflexivity.
Qed.

Lemma sortBy_sorted l :
  StronglySorted (fun a b => String.leb a b = true) (Js.sortBy l).
Proof.
  unfold Js.sortBy. induction (rev l) as [|x l' IH]; cbn [fold_right].
  - constructor.
  - apply sortBy_insert_sorted. exact IH.
Qed.

Lemma ascii_compare_refl (a : ascii) : Ascii.compare a a = Eq.
Proof. unfold Ascii.compare. apply N.compare_refl. Qed.

Lemma string_compare_refl (s : string) : String.compare s s = Eq.
Proof.
  induction s as [|a s IH]; [reflexivity|].
  cbn [String.compare]. rewrite ascii_compare_refl. exact IH.
Qed.



(** ** Values prepared for insertion *)

Lemma assign_In key value obj k v :
  In (k, v) (assign key value obj) -> (k, v) = (key, value) \/ In (k, v) obj.
Proof.
  induction obj as [|[k' w] obj IH]; cbn [assign].
  - intros [E|[]]. left. congruence.
  - destruct (String.eqb k' key) eqn:E.
    + apply String.eqb_eq in E. subst k'. intros [E'|Hin].
      * left. congruence.
      * right. right. assumption.
    + intros [E'|Hin].
      * right. left. assumption.
      * destruct (IH Hin); [left|right; right]; assumption.
Qed.

Section Prepared.
Context {Store : Type} `{!Database Store}.

Lemma prepareValue_not_boolean v b : prepareValue v <> VBoolean b.
Proof. destruct v; discriminate. Qed.

(** X3: no boolean is left in a row prepared for insertion: [true] has
    become 1, [false] has become 0, and every value of the prepared row is
    [prepareValue] of a value of the validated row, under the escaped name of
    its column. *)
Theorem prepareForInsert_coerces_booleans :
  forall (validated : SqlRow) (k : string) (v : JsValue),
    In (k, v) (prepareForInsert validated) ->
    (exists columnName w,
        In (columnName, w) validated
        /\ k = escapeId columnName /\ v = prepareValue w)
    /\ (forall b, v <> VBoolean b)
    /\ prepareValue (VBoolean true) = VNumber (Literal 1)
    /\ prepareValue (VBoolean false) = VNumber (Literal 0).
Proof.
  intros validated k v Hin.
  assert (exists columnName w,
             In (columnName, w) validated
             /\ k = escapeId columnName /\ v = prepareValue w) as Hfrom.
  { unfold prepareForInsert in Hin.
    assert (forall acc,
               In (k, v) (fold_left
                            (fun result '(columnName, w) =>
                               assign (escapeId columnName) (prepareValue w) result)
                            validated acc) ->
               In (k, v) acc
               \/ exists columnName w,
                   In (columnName, w) validated
                   /\ k = escapeId columnName /\ v = prepareValue w) as Hgen.
    { clear Hin. induction validated as [|[columnName w] rest IH]; intros acc Hin.
      - left. exact Hin.
      - cbn [fold_left] in Hin. destruct (IH _ Hin) as [Hacc|(c' & w' & H1 & H2)].
        + apply assign_In in Hacc as [E|Hacc].
          * right. exists columnName, w. split; [left; reflexivity|].
            split; congruence.
          * left. assumption.
        + right. exists c', w'. split; [right; assumption|assumption]. }
    destruct (Hgen [] Hin) as [[]|H]. exact H. }
  split; [exact Hfrom|]. split; [|split; reflexivity].
  destruct Hfrom as (columnName & w & _ & _ & ->). intros b.
  apply prepareValue_not_boolean.
Qed.

End Prepared.

(** X3 at the row of an order. *)
Lemma prepareForInsert_order_row :
  (exists columnName w,
      In (columnName, w) orderRow
      /\ "`paid`" = escapeId columnName /\ VNumber (Literal 1) = prepareValue w)
  /\ (forall b, VNumber (Literal 1) <> VBoolean b)
  /\ prepareValue (VBoolean true) = VNumber (Literal 1)
  /\ prepareValue (VBoolean false) = VNumber (Literal 0).
Proof.
  apply (prepareForInsert_coerces_booleans orderRow "`paid`" (VNumber (Literal 1))).
  right. left. reflexivity.
Defined.

(** ** What a resolved list looks like *)

Section Resolved.
Context {Store : Type} `{!Database Store}.

(** A walk that comes back has followed the chain to a primary constraint. *)
Lemma walk_fulfilled (st : state Store) schema fuel :
  forall c previous st1 p,
    store st1 = store st ->
    fst (walk fuel schema ∅ c previous st1) = Fulfilled p ->
    (Constraint.type c = primary /\ p = previous)
    \/ (Constraint.type c <> primary
        /\ exists last n, p = Some last /\ leadsTo st schema c last n /\ n <= fuel).
Proof.
  induction fuel as [|fuel IH]; intros c previous st1 p Hstore Hwalk;
    destruct (decide (Constraint.type c = primary)) as [Hc|Hc].
  - left. rewrite walk_primary in Hwalk by assumption.
    unfold ret in Hwalk. cbn in Hwalk. split; congruence.
  - rewrite walk_out_of_fuel in Hwalk by assumption. discriminate.
  - left. rewrite walk_primary in Hwalk by assumption.
    unfold ret in Hwalk. cbn in Hwalk. split; congruence.
  - right. split; [assumption|].
    rewrite walk_step in Hwalk by assumption. unfold bind in Hwalk.
    pose proof (proj2 (readonly_advance schema ∅ c) st1 st Hstore) as Eo.
    pose proof (proj1 (readonly_advance schema ∅ c) st1) as Es.
    destruct (advance schema ∅ c st1) as [[next|e|] st1']; cbn [fst snd] in *;
      try discriminate.
    assert (hop st schema c next) as Hhop by (split; [assumption|congruence]).
    assert (store st1' = store st) as Hstore' by congruence.
    destruct (IH next (Some c) st1' p Hstore' Hwalk)
      as [[Hnext ->]|[Hnext (last & n & -> & Hleads & Hn)]].
    + exists c, 1. split; [reflexivity|]. split; [|lia].
      exact (leadsTo_last st schema c next Hhop Hnext).
    + exists last, (S n). split; [reflexivity|]. split; [|lia].
      exact (leadsTo_next st schema c next last n Hhop Hnext Hleads).
Qed.

Lemma resolveEach_fulfilled (st : state Store) schema fuel originals :
  forall resolved st1 r,
    store st1 = store st ->
    fst (resolveEach fuel schema ∅ originals resolved st1) = Fulfilled r ->
    exists out, r = resolved ++ out
                /\ Forall2 (resolvesTo st schema) originals out.
Proof.
  induction originals as [|c rest IH]; intros resolved st1 r Hstore Hall;
    cbn [resolveEach] in Hall.
  - unfold ret in Hall. cbn in Hall. injection Hall as <-.
    exists []. split; [symmetry; apply app_nil_r|constructor].
  - destruct (bool_decide (Constraint.type c <> foreign)) eqn:Hc.
    + apply bool_decide_eq_true in Hc.
      destruct (IH _ _ _ Hstore Hall) as (out & -> & Hout).
      exists (c :: out). split; [rewrite <- app_assoc; reflexivity|].
      constructor; [left; split; [assumption|reflexivity]|assumption].
    + apply bool_decide_eq_false in Hc.
      assert (Constraint.type c = foreign) as Hforeign
        by (destruct (Constraint.type c); try reflexivity; exfalso; apply Hc; discriminate).
      unfold bind in Hall.
      pose proof (proj1 (readonly_walk fuel schema ∅ c None) st1) as Es.
      pose proof (walk_fulfilled st schema fuel c None st1) as Hw.
      destruct (walk fuel schema ∅ c None st1) as [[p|e|] st1']; cbn [fst snd] in *;
        try discriminate.
      destruct (Hw p Hstore eq_refl)
        as [[Hprimary _]|[_ (last & n & -> & Hleads & _)]]; [congruence|].
      assert (store st1' = store st) as Hstore' by congruence.
      destruct (IH _ _ _ Hstore' Hall) as (out & -> & Hout).
      exists (last :: out). split; [rewrite <- app_assoc; reflexivity|].
      constructor; [right; split; [assumption|eauto]|assumption].
Qed.

(** A list of constraints each of which is what some constraint resolves to
    resolves to itself. *)
Lemma resolveEach_again (st : state Store) schema fuel originals out :
  Forall2 (resolvesTo st schema) originals out ->
  forall resolved st1,
    store st1 = store st ->
    fst (resolveEach (S fuel) schema ∅ out resolved st1) = Fulfilled (resolved ++ out).
Proof.
  induction 1 as [|c r originals out Hr _ IH]; intros resolved st1 Hstore;
    cbn [resolveEach].
  - cbn. rewrite app_nil_r. reflexivity.
  - destruct (bool_decide (Constraint.type r <> foreign)) eqn:Hforeign.
    + rewrite IH by assumption. rewrite <- app_assoc. reflexivity.
    + apply bool_decide_eq_false in Hforeign.
      assert (leadsTo st schema r r 1) as Hself.
      { destruct Hr as [[Hc ->]|[_ [n Hleads]]]; [contradiction|].
        destruct (leadsTo_target st schema c r n Hleads) as (p & Hhop & Hp).
        exact (leadsTo_last st schema r p Hhop Hp). }
      unfold bind.
      pose proof (proj1 (readonly_walk (S fuel) schema ∅ r None) st1) as Es.
      pose proof (walk_leadsTo st schema r r 1 Hself (S fuel) None st1
                    ltac:(lia) Hstore) as Hw.
      destruct (walk (S fuel) schema ∅ r None st1) as [o st1']; cbn [fst snd] in *.
      subst o. rewrite IH by congruence. rewrite <- app_assoc. reflexivity.
Qed.

End Resolved.

(** X4: a list that [resolveConstraints] returns matches the given list
    position by position: a constraint that is not a foreign key is kept as
    it is, and a foreign key is replaced by the last link of its chain, whose
    target is backed by a primary constraint.  The two lists have the same
    length. *)
Theorem resolveConstraints_resolves_each_in_place :
  forall (Store : Type) (D : Database Store) (st : state Store)
         (schema : string) (fuel : nat) (originals resolved : list Constraint),
    fst (resolveConstraints fuel schema originals st) = Fulfilled resolved ->
    Forall2 (resolvesTo st schema) originals resolved
    /\ length resolved = length originals.
Proof.
  intros Store D st schema fuel originals resolved Hresolved.
  destruct (resolveEach_fulfilled st schema fuel originals [] st resolved
              eq_refl Hresolved) as (out & -> & Hout).
  split; [exact Hout|]. symmetry. exact (Forall2_length _ _ _ Hout).
Qed.

(** X4 at the constraints of a table with a primary key and the first link
    of the chain A.foo -> B.bar -> C.baz. *)
Lemma resolveConstraints_resolves_each_in_place_on_chain :
  Forall2 (resolvesTo (start chain) "db")
    [Constraint.mk primary "id" None None; fooToB]
    [Constraint.mk primary "id" None None;
     Constraint.mk foreign "bar" (Some "C") (Some "baz")]
  /\ length [Constraint.mk primary "id" None None;
             Constraint.mk foreign "bar" (Some "C") (Some "baz")]
     = length [Constraint.mk primary "id" None None; fooToB].
Proof.
  exact (resolveConstraints_resolves_each_in_place Store database (start chain)
           "db" 2 [Constraint.mk primary "id" None None; fooToB]
           [Constraint.mk primary "id" None None;
            Constraint.mk foreign "bar" (Some "C") (Some "baz")] eq_refl).
Defined.

(** X5: resolving is idempotent: a list that [resolveConstraints] has
    returned is returned unchanged when it is resolved again on the same
    store, and one iteration of the loop per constraint is enough for that. *)
Theorem resolveConstraints_idempotent :
  forall (Store : Type) (D : Database Store) (st : state Store)
         (schema : string) (fuel fuel' : nat)
         (originals resolved : list Constraint),
    fst (resolveConstraints fuel schema originals st) = Fulfilled resolved ->
    fst (resolveConstraints (S fuel') schema resolved st) = Fulfilled resolved.
Proof.
  intros Store D st schema fuel fuel' originals resolved Hresolved.
  destruct (resolveEach_fulfilled st schema fuel originals [] st resolved
              eq_refl Hresolved) as (out & -> & Hout).
  exact (resolveEach_again st schema fuel' originals out Hout [] st eq_refl).
Qed.

(** X5 at the chain A.foo -> B.bar -> C.baz. *)
Lemma resolveConstraints_idempotent_on_chain :
  fst (resolveConstraints 1 "db"
         [Constraint.mk foreign "bar" (Some "C") (Some "baz")] (start chain))
  = Fulfilled [Constraint.mk foreign "bar" (Some "C") (Some "baz")].
Proof.
  exact (resolveConstraints_idempotent Store database (start chain) "db" 2 0
           [fooToB] [Constraint.mk foreign "bar" (Some "C") (Some "baz")] eq_refl).
Defined.

(** ** Chains that break, and chains that never end *)

Section Chains.
Context {Store : Type} `{!Database Store}.

Lemma hop_functional (st : state Store) schema c next next' :
  hop st schema c next -> hop st schema c next' -> next = next'.
Proof. intros [_ E] [_ E']. congruence. Qed.

Lemma hops_trans (st : state Store) schema n m a b c :
  hops st schema n a b -> hops st schema m b c -> hops st schema (n + m) a c.
Proof.
  induction 1 as [|n a next b Hhop _ IH]; intros Hbc; [exact Hbc|].
  cbn [Nat.add]. apply (hops_next st schema _ a next c Hhop). auto.
Qed.

Lemma hops_prefix (st : state Store) schema n m a c :
  hops st schema (n + m) a c -> exists b, hops st schema n a b.
Proof.
  revert a. induction n as [|n IH]; intros a Hac.
  - exists a. constructor.
  - cbn [Nat.add] in Hac. inversion Hac as [|n' a' next c' Hhop Hrest]; subst.
    destruct (IH next Hrest) as [b Hb].
    exists b. exact (hops_next st schema n a next b Hhop Hb).
Qed.

(** A chain that forms a cycle has hops without end. *)
Lemma cycles_hops (st : state Store) schema c :
  cycles st schema c -> forall m, exists x, hops st schema m c x.
Proof.
  intros (n & back & k & Hto & Hround) m.
  assert (forall j, hops st schema (j * S k) back back) as Hrounds.
  { induction j as [|j IH]; [constructor|].
    exact (hops_trans st schema _ _ _ _ _ Hround IH). }
  pose proof (hops_trans st schema _ _ _ _ _ Hto (Hrounds m)) as Hlong.
  replace (n + m * S k) with (m + (n + m * k)) in Hlong by lia.
  exact (hops_prefix st schema _ _ _ _ Hlong).
Qed.

(** A column without a record is not found. *)
Lemma advance_lacksRecord (st : state Store) schema last :
  lacksRecord st schema last <->
  fst (advance schema ∅ last st)
  = Rejected (couldNotFind (Constraint.foreignColumn last)).
Proof.
  unfold lacksRecord, advance, bind.
  assert (exists others st',
            getConstraints schema ∅ (Constraint.foreignTable last) st
            = (Fulfilled others, st')) as (others & st' & E).
  { unfold getConstraints. rewrite lookup_empty.
    destruct (Js.inherited _); eexists _, _; reflexivity. }
  rewrite E. cbn [fst]. unfold findConstraint, Js.find. split.
  - intros (others' & Eothers & Hnone). injection Eothers as <-.
    destruct (List.find _ others) as [found|] eqn:Efind; [|reflexivity].
    exfalso. apply find_some in Efind as [Hin Hfound].
    apply bool_decide_eq_true in Hfound.
    rewrite List.Forall_forall in Hnone. exact (Hnone found Hin Hfound).
  - intros Hrejected. exists others. split; [reflexivity|].
    destruct (List.find _ others) as [found|] eqn:Efind; [discriminate|].
    apply List.Forall_forall. intros other Hin Hother.
    pose proof (find_none _ _ Efind other Hin) as Hfalse. cbn in Hfalse.
    apply bool_decide_eq_false in Hfalse. contradiction.
Qed.

(** A column without a record in the list [constraints] returns for the
    referenced table is without a record for the lookup of the loop. *)
Lemma constraints_lacksRecord (st : state Store) schema last others :
  fst (constraints schema (Constraint.foreignTable last) st) = Fulfilled others ->
  Js.find others
    (fun other => bool_decide (Some (Constraint.localColumn other)
                               = Constraint.foreignColumn last)) = None ->
  lacksRecord st schema last.
Proof.
  intros Hothers Hfind. apply advance_lacksRecord.
  exact (advance_dangling schema last others st st Hothers Hfind eq_refl).
Qed.

(** An iteration at another state of the same store. *)
Lemma advance_rejected_at schema c e (st st1 : state Store) :
  fst (advance schema ∅ c st) = Rejected e ->
  store st1 = store st ->
  exists st2, advance schema ∅ c st1 = (Rejected e, st2).
Proof.
  intros Hrejected Hstore.
  pose proof (proj2 (readonly_advance schema ∅ c) st1 st Hstore) as Eo.
  destruct (advance schema ∅ c st1) as [o st2]. cbn [fst] in Eo.
  exists st2. congruence.
Qed.

(** The walk along a chain that breaks is rejected as soon as it is followed
    past the link at which the chain breaks, with the error that names the
    column without a record; it is pending before. *)
Lemma walk_breaks (st : state Store) schema n c last :
  hops st schema n c last ->
  Constraint.type last <> primary ->
  lacksRecord st schema last ->
  forall fuel previous st1,
    store st1 = store st ->
    fst (walk fuel schema ∅ c previous st1)
    = if Nat.ltb n fuel
      then Rejected (couldNotFind (Constraint.foreignColumn last))
      else Pending.
Proof.
  intros Hhops Hlast Hlacks. apply advance_lacksRecord in Hlacks.
  induction Hhops as [c|n c next last [Hc Hnext] _ IH];
    intros fuel previous st1 Hstore.
  - destruct fuel as [|fuel]; [apply walk_out_of_fuel; exact Hlast|].
    rewrite walk_step by exact Hlast. unfold bind.
    destruct (advance_rejected_at schema c _ st st1 Hlacks Hstore) as [st2 ->].
    reflexivity.
  - destruct fuel as [|fuel]; [apply walk_out_of_fuel; exact Hc|].
    rewrite walk_step by exact Hc. unfold bind.
    destruct (advance_at schema ∅ c next st st1 Hnext Hstore) as [st2 [-> Hst2]].
    rewrite (IH Hlast Hlacks fuel (Some c) st2) by congruence.
    reflexivity.
Qed.

(** The walk along a chain that reaches a primary constraint is pending
    until it has been followed that far. *)
Lemma walk_leadsTo_short (st : state Store) schema c last n :
  leadsTo st schema c last n ->
  forall fuel previous st1,
    fuel < n -> store st1 = store st ->
    fst (walk fuel schema ∅ c previous st1) = Pending.
Proof.
  induction 1 as [c p [Hc Hp] Hprimary|c next last n [Hc Hnext] Hnp _ IH];
    intros fuel previous st1 Hfuel Hstore.
  - assert (fuel = 0) as -> by lia. apply walk_out_of_fuel. exact Hc.
  - destruct fuel as [|fuel]; [apply walk_out_of_fuel; exact Hc|].
    rewrite walk_step by exact Hc. unfold bind.
    destruct (advance_at schema ∅ c next st st1 Hnext Hstore) as [st2 [-> Hst2]].
    apply IH; [lia|congruence].
Qed.

(** The walk along a chain whose hops have no end is pending however far it
    is followed. *)
Lemma walk_endless (st : state Store) schema fuel :
  forall c previous st1,
    (forall m, exists x, hops st schema m c x) ->
    store st1 = store st ->
    fst (walk fuel schema ∅ c previous st1) = Pending.
Proof.
  induction fuel as [|fuel IH]; intros c previous st1 Hendless Hstore.
  - destruct (Hendless 1) as [x Hx].
    inversion Hx as [|n' c' next x' [Hc _] _]; subst.
    apply walk_out_of_fuel. exact Hc.
  - destruct (Hendless 1) as [x Hx].
    inversion Hx as [|n' c' next x' Hhop _]; subst.
    destruct Hhop as [Hc Hnext].
    rewrite walk_step by exact Hc. unfold bind.
    destruct (advance_at schema ∅ c next st st1 Hnext Hstore) as [st2 [-> Hst2]].
    apply IH; [|congruence].
    intros m. destruct (Hendless (S m)) as [y Hy].
    inversion Hy as [|n' c' next' y' Hhop' Hrest]; subst.
    rewrite (hop_functional st schema c next next' (conj Hc Hnext) Hhop').
    exists y. exact Hrest.
Qed.

(** A chain that comes to an end reaches a primary constraint or breaks. *)
Lemma chainEnds_cases (st : state Store) schema c :
  chainEnds st schema c ->
  Constraint.type c <> primary ->
  (exists last n, leadsTo st schema c last n)
  \/ (exists last, breaksAt st schema c last).
Proof.
  unfold chainEnds. induction 1 as [c _ IH]. intros Hc.
  destruct (advance_outcome schema ∅ c st) as [[next Hnext]|Hrejected].
  - assert (hop st schema c next) as Hhop by (split; assumption).
    destruct (decide (Constraint.type next = primary)) as [Hp|Hp].
    + left. exists c, 1. exact (leadsTo_last st schema c next Hhop Hp).
    + destruct (IH next Hhop Hp)
        as [(last & n & Hleads)|(last & n & Hhops & Hlast & Hlacks)].
      * left. exists last, (S n).
        exact (leadsTo_next st schema c next last n Hhop Hp Hleads).
      * right. exists last, (S n). split; [|split; assumption].
        exact (hops_next st schema n c next last Hhop Hhops).
  - right. exists c, 0. split; [constructor|]. split; [exact Hc|].
    apply advance_lacksRecord. exact Hrejected.
Qed.

(** The loop over constraints each of which reaches a primary key: it goes
    on with the rest of the list, or is pending when a walk has not been
    followed far enough; beyond some bound it always goes on. *)
Lemma resolveEach_resolving (st : state Store) schema pre resolvedPre :
  Forall2 (resolvesTo st schema) pre resolvedPre ->
  exists bound, forall fuel rest resolved st1,
    store st1 = store st ->
    (fst (resolveEach fuel schema ∅ (pre ++ rest) resolved st1) = Pending
     /\ fuel < bound)
    \/ exists st2,
         store st2 = store st
         /\ resolveEach fuel schema ∅ (pre ++ rest) resolved st1
            = resolveEach fuel schema ∅ rest (resolved ++ resolvedPre) st2.
Proof.
  induction 1 as [|c r pre resolvedPre Hr _ [bound IH]].
  - exists 0. intros fuel rest resolved st1 Hstore. right. exists st1.
    split; [exact Hstore|]. rewrite app_nil_r. reflexivity.
  - destruct Hr as [[Hc ->]|[Hc [n Hleads]]].
    + exists bound. intros fuel rest resolved st1 Hstore.
      cbn [resolveEach app]. rewrite bool_decide_eq_true_2 by exact Hc.
      destruct (IH fuel rest (resolved ++ [c]) st1 Hstore)
        as [Hpending|(st2 & Hst2 & E)]; [left; exact Hpending|].
      right. exists st2. split; [exact Hst2|].
      rewrite E, <- app_assoc. reflexivity.
    + exists (Nat.max n bound). intros fuel rest resolved st1 Hstore.
      cbn [resolveEach app].
      rewrite bool_decide_eq_false_2
        by (rewrite Hc; intros E; apply E; reflexivity).
      unfold bind.
      pose proof (proj1 (readonly_walk fuel schema ∅ c None) st1) as Es.
      destruct (le_lt_dec n fuel) as [Hfuel|Hfuel].
      * pose proof (walk_leadsTo st schema c r n Hleads fuel None st1
                      Hfuel Hstore) as Hw.
        destruct (walk fuel schema ∅ c None st1) as [o st1'].
        cbn [fst snd] in *. subst o.
        destruct (IH fuel rest (resolved ++ [r]) st1' ltac:(congruence))
          as [[Hpending Hshort]|(st2 & Hst2 & E)].
        -- left. split; [exact Hpending|lia].
        -- right. exists st2. split; [exact Hst2|].
           rewrite E, <- app_assoc. reflexivity.
      * pose proof (walk_leadsTo_short st schema c r n Hleads fuel None st1
                      Hfuel Hstore) as Hw.
        destruct (walk fuel schema ∅ c None st1) as [o st1'].
        cbn [fst] in Hw. subst o. left. split; [reflexivity|lia].
Qed.

(** The loop at a foreign constraint whose walk does not come back. *)
Lemma resolveEach_stops fuel schema c rest resolved
    (o : outcome exn (option Constraint)) (st1 : state Store) :
  Constraint.type c = foreign ->
  fst (walk fuel schema ∅ c None st1) = o ->
  (forall p, o <> Fulfilled p) ->
  fst (resolveEach fuel schema ∅ (c :: rest) resolved st1)
  = match o with
    | Rejected e => Rejected e
    | _ => Pending
    end.
Proof.
  intros Hc Hwalk Hnot. cbn [resolveEach].
  rewrite bool_decide_eq_false_2 by (rewrite Hc; intros E; apply E; reflexivity).
  unfold bind. destruct (walk fuel schema ∅ c None st1) as [o' st2].
  cbn [fst] in Hwalk. subst o'.
  destruct o as [p|e|]; [exfalso; exact (Hnot p eq_refl)|reflexivity..].
Qed.

(** A list in which a chain breaks after chains that reach a primary key:
    rejected beyond some bound, with the error that names the column
    without a record; pending or rejected in that way below it. *)
Lemma resolveConstraints_breaks (st : state Store) schema pre resolvedPre c last
    post :
  Forall2 (resolvesTo st schema) pre resolvedPre ->
  Constraint.type c = foreign ->
  breaksAt st schema c last ->
  (forall fuel,
      fst (resolveConstraints fuel schema (pre ++ c :: post) st) = Pending
      \/ fst (resolveConstraints fuel schema (pre ++ c :: post) st)
         = Rejected (couldNotFind (Constraint.foreignColumn last)))
  /\ exists bound, forall fuel,
       bound <= fuel ->
       fst (resolveConstraints fuel schema (pre ++ c :: post) st)
       = Rejected (couldNotFind (Constraint.foreignColumn last)).
Proof.
  intros Hpre Hc (n & Hhops & Hlast & Hlacks).
  destruct (resolveEach_resolving st schema pre resolvedPre Hpre) as [bound Hbound].
  assert (forall fuel st2,
             store st2 = store st ->
             fst (resolveEach fuel schema ∅ (c :: post) ([] ++ resolvedPre) st2)
             = if Nat.ltb n fuel
               then Rejected (couldNotFind (Constraint.foreignColumn last))
               else Pending) as Hat.
  { intros fuel st2 Hst2.
    pose proof (walk_breaks st schema n c last Hhops Hlast Hlacks fuel None st2
                  Hst2) as Hw.
    rewrite (resolveEach_stops fuel schema c post _ _ st2 Hc Hw)
      by (intros p; destruct (Nat.ltb n fuel); discriminate).
    destruct (Nat.ltb n fuel); reflexivity. }
  unfold resolveConstraints. split.
  - intros fuel.
    destruct (Hbound fuel (c :: post) [] st eq_refl)
      as [[Hpending _]|(st2 & Hst2 & E)]; [left; exact Hpending|].
    rewrite E, (Hat fuel st2 Hst2). destruct (Nat.ltb n fuel); auto.
  - exists (Nat.max bound (S n)). intros fuel Hfuel.
    destruct (Hbound fuel (c :: post) [] st eq_refl)
      as [[_ Hshort]|(st2 & Hst2 & E)]; [lia|].
    rewrite E, (Hat fuel st2 Hst2).
    rewrite (proj2 (Nat.ltb_lt n fuel)) by lia. reflexivity.
Qed.

(** A list in which a chain forms a cycle after chains that reach a primary
    key is pending however far the loop is followed. *)
Lemma resolveConstraints_cycles (st : state Store) schema pre resolvedPre c
    post :
  Forall2 (resolvesTo st schema) pre resolvedPre ->
  Constraint.type c = foreign ->
  cycles st schema c ->
  forall fuel,
    fst (resolveConstraints fuel schema (pre ++ c :: post) st) = Pending.
Proof.
  intros Hpre Hc Hcycles fuel.
  destruct (resolveEach_resolving st schema pre resolvedPre Hpre) as [bound Hbound].
  unfold resolveConstraints.
  destruct (Hbound fuel (c :: post) [] st eq_refl)
    as [[Hpending _]|(st2 & Hst2 & E)]; [exact Hpending|].
  rewrite E.
  pose proof (walk_endless st schema fuel c None st2
                (cycles_hops st schema c Hcycles) Hst2) as Hw.
  rewrite (resolveEach_stops fuel schema c post _ _ st2 Hc Hw) by discriminate.
  reflexivity.
Qed.

(** A list in which a chain breaks is never resolved, whatever comes before
    the constraint of that chain. *)
Lemma resolveConstraints_never (st : state Store) schema pre c last post fuel
    resolved :
  Constraint.type c = foreign ->
  breaksAt st schema c last ->
  fst (resolveConstraints fuel schema (pre ++ c :: post) st) <> Fulfilled resolved.
Proof.
  intros Hc (n & Hhops & Hlast & Hlacks) Hall. unfold resolveConstraints in Hall.
  destruct (resolveEach_prefix _ _ _ _ _ _ _ _ Hall) as (resolved' & st' & Hpre).
  rewrite (resolveEach_app _ _ _ _ _ _ _ _ _ Hpre) in Hall.
  assert (store st' = store st) as Hstore.
  { pose proof (proj1 (readonly_resolveEach fuel schema ∅ pre []) st) as Es.
    rewrite Hpre in Es. exact Es. }
  pose proof (walk_breaks st schema n c last Hhops Hlast Hlacks fuel None st'
                Hstore) as Hw.
  rewrite (resolveEach_stops fuel schema c post _ _ st' Hc Hw) in Hall
    by (intros p; destruct (Nat.ltb n fuel); discriminate).
  destruct (Nat.ltb n fuel); discriminate.
Qed.

(** The constraints of a list whose chains all come to an end all reach a
    primary key, or there is a first one whose chain breaks. *)
Lemma chains_end_cases (st : state Store) schema originals :
  (forall c, In c originals -> Constraint.type c = foreign ->
     chainEnds st schema c) ->
  (exists resolved, Forall2 (resolvesTo st schema) originals resolved)
  \/ (exists pre resolvedPre c last post,
        originals = pre ++ c :: post
        /\ Forall2 (resolvesTo st schema) pre resolvedPre
        /\ Constraint.type c = foreign
        /\ breaksAt st schema c last).
Proof.
  induction originals as [|c rest IH]; intros Hends.
  - left. exists []. constructor.
  - assert ((exists r, resolvesTo st schema c r)
            \/ (Constraint.type c = foreign
                /\ exists last, breaksAt st schema c last)) as Hc.
    { destruct (decide (Constraint.type c = foreign)) as [Hc|Hc].
      - destruct (chainEnds_cases st schema c)
          as [(last & n & Hleads)|Hbreaks].
        + apply Hends; [left; reflexivity|exact Hc].
        + rewrite Hc. discriminate.
        + left. exists last. right. split; [exact Hc|eauto].
        + right. split; assumption.
      - left. exists c. left. split; [exact Hc|reflexivity]. }
    destruct Hc as [[r Hr]|[Hc [last Hbreaks]]].
    + destruct IH
        as [[resolved Hrest]
           |(pre & resolvedPre & c' & last & post & -> & Hpre & Hc' & Hbreaks)].
      * intros c' Hin. apply Hends. right. exact Hin.
      * left. exists (r :: resolved). constructor; assumption.
      * right. exists (c :: pre), (r :: resolvedPre), c', last, post.
        split; [reflexivity|]. split; [constructor; assumption|].
        split; assumption.
    + right. exists [], [], c, last, rest.
      split; [reflexivity|]. split; [constructor|]. split; assumption.
Qed.

(** A list whose constraints all reach a primary key is resolved beyond
    some bound. *)
Lemma resolveConstraints_resolves (st : state Store) schema originals
    resolved :
  Forall2 (resolvesTo st schema) originals resolved ->
  exists bound, forall fuel,
    bound <= fuel ->
    fst (resolveConstraints fuel schema originals st) = Fulfilled resolved.
Proof.
  intros Hall.
  destruct (resolveEach_resolving st schema originals resolved Hall)
    as [bound Hbound].
  exists bound. intros fuel Hfuel. unfold resolveConstraints.
  destruct (Hbound fuel [] [] st eq_refl) as [[_ Hshort]|(st2 & _ & E)]; [lia|].
  rewrite app_nil_r in E. rewrite E. reflexivity.
Qed.

End Chains.

(** C3, amended.  When the chain of every foreign constraint of the list
    comes to an end (no infinite sequence of hops leaves it),
    [resolveConstraints] settles once the loop is followed far enough:
    either every constraint reaches a primary key and the resolved list is
    returned, or there is a first constraint of the list whose chain has no
    primary key at its end (it breaks at a link for whose referenced column
    the lookup finds no record), and the call fails with the error that
    names that column.  The loop has no bound of its own: when the chain of
    a foreign constraint forms a cycle, and the constraints before it in the
    list reach a primary key, the call is pending however far the loop is
    followed. *)
Theorem resolveConstraints_settles_when_chains_end :
  forall (Store : Type) (D : Database Store) (st : state Store)
         (schema : string) (originals : list Constraint),
    ((forall c, In c originals -> Constraint.type c = foreign ->
        chainEnds st schema c) ->
     (exists resolved bound,
         Forall2 (resolvesTo st schema) originals resolved
         /\ forall fuel, bound <= fuel ->
              fst (resolveConstraints fuel schema originals st)
              = Fulfilled resolved)
     \/ (exists pre resolvedPre c last post bound,
           originals = pre ++ c :: post
           /\ Forall2 (resolvesTo st schema) pre resolvedPre
           /\ Constraint.type c = foreign
           /\ breaksAt st schema c last
           /\ forall fuel, bound <= fuel ->
                fst (resolveConstraints fuel schema originals st)
                = Rejected (couldNotFind (Constraint.foreignColumn last))))
    /\ (forall pre resolvedPre c post,
          originals = pre ++ c :: post ->
          Forall2 (resolvesTo st schema) pre resolvedPre ->
          Constraint.type c = foreign ->
          cycles st schema c ->
          forall fuel,
            fst (resolveConstraints fuel schema originals st) = Pending).
Proof.
  intros Store D st schema originals. split.
  - intros Hends.
    destruct (chains_end_cases st schema originals Hends)
      as [[resolved Hall]
         |(pre & resolvedPre & c & last & post & -> & Hpre & Hc & Hbreaks)].
    + left. destruct (resolveConstraints_resolves st schema originals resolved Hall)
        as [bound Hbound].
      exists resolved, bound. split; assumption.
    + right.
      destruct (resolveConstraints_breaks st schema pre resolvedPre c last post
                  Hpre Hc Hbreaks) as [_ [bound Hbound]].
      exists pre, resolvedPre, c, last, post, bound.
      repeat (split; [reflexivity || assumption|]). exact Hbound.
  - intros pre resolvedPre c post -> Hpre Hc Hcycles.
    exact (resolveConstraints_cycles st schema pre resolvedPre c post
             Hpre Hc Hcycles).
Qed.

(** The amended C3 at the chain A.foo -> B.bar -> C.baz. *)
Lemma resolveConstraints_settles_on_chain :
  (exists resolved bound,
      Forall2 (resolvesTo (start chain) "db") [fooToB] resolved
      /\ forall fuel, bound <= fuel ->
           fst (resolveConstraints fuel "db" [fooToB] (start chain))
           = Fulfilled resolved)
  \/ (exists pre resolvedPre c last post bound,
        [fooToB] = pre ++ c :: post
        /\ Forall2 (resolvesTo (start chain) "db") pre resolvedPre
        /\ Constraint.type c = foreign
        /\ breaksAt (start chain) "db" c last
        /\ forall fuel, bound <= fuel ->
             fst (resolveConstraints fuel "db" [fooToB] (start chain))
             = Rejected (couldNotFind (Constraint.foreignColumn last))).
Proof.
  exact (proj1 (resolveConstraints_settles_when_chains_end Store database
                  (start chain) "db" [fooToB]) chain_ends).
Defined.

(** C4, as stated, fails: on a catalog where A.x and B.y reference each
    other and A.foo references B.bar, for which the constraint list of B
    has no record, resolving the constraints of A does not fail; it is
    pending however far the loop is followed. *)
Lemma dangling_foreign_key_after_cycle_never_fails :
  fst (constraints "db" (Some "A") (start Cases.cycleBeforeDangling))
  = Fulfilled [xToB; fooToB]
  /\ Constraint.type fooToB = foreign
  /\ fst (constraints "db" (Constraint.foreignTable fooToB)
            (start Cases.cycleBeforeDangling))
     = Fulfilled [yToA]
  /\ Js.find [yToA]
       (fun other => bool_decide (Some (Constraint.localColumn other)
                                  = Constraint.foreignColumn fooToB)) = None
  /\ forall fuel,
       fst (resolveConstraints fuel "db" [xToB; fooToB]
              (start Cases.cycleBeforeDangling)) = Pending.
Proof.
  repeat (split; [reflexivity|]).
  apply (resolveConstraints_cycles (start Cases.cycleBeforeDangling) "db"
           [] [] xToB [fooToB]); [constructor|reflexivity|].
  exists 0, xToB, 1. split; [constructor|].
  apply (hops_next _ _ _ xToB yToA); [split; [discriminate|reflexivity]|].
  apply (hops_next _ _ _ yToA xToB); [split; [discriminate|reflexivity]|].
  constructor.
Qed.

(** C4, amended.  Take a foreign constraint [c] of the list whose chain
    gets, after any number of hops, to a constraint [last] that is not a
    primary one and whose referenced column has no record in the constraint
    list of the referenced table ([last] is [c] itself when there is no
    hop).  Then [resolveConstraints] never returns a list and [meta] never
    yields a [TableMeta] for a table with these constraints.  When the
    constraints before [c] in the list reach a primary key,
    [resolveConstraints] fails, once the loop is followed far enough, with
    the error that names that column, and [meta] is rejected with that error
    among the reasons.  When the chain of a constraint before [c] forms a
    cycle, and the constraints before that one reach a primary key, the
    call does not fail: it is pending however far the loop is followed. *)
Theorem dangling_foreign_key_is_rejected :
  forall (C : Common) (Store : Type) (D : Database Store) (st : state Store)
         (schema : string) (pre post others : list Constraint)
         (c last : Constraint) (n : nat),
    Constraint.type c = foreign ->
    hops st schema n c last ->
    Constraint.type last <> primary ->
    fst (constraints schema (Constraint.foreignTable last) st) = Fulfilled others ->
    Js.find others
      (fun other => bool_decide (Some (Constraint.localColumn other)
                                 = Constraint.foreignColumn last)) = None ->
    (forall fuel resolved,
        fst (resolveConstraints fuel schema (pre ++ c :: post) st)
        <> Fulfilled resolved)
    /\ (forall fuel table m,
          fst (constraints schema (Some table) st) = Fulfilled (pre ++ c :: post) ->
          fst (meta fuel schema table st) <> Fulfilled m)
    /\ (forall resolvedPre,
          Forall2 (resolvesTo st schema) pre resolvedPre ->
          exists bound, forall fuel,
            bound <= fuel ->
            fst (resolveConstraints fuel schema (pre ++ c :: post) st)
            = Rejected (couldNotFind (Constraint.foreignColumn last))
            /\ forall table,
                 fst (constraints schema (Some table) st)
                 = Fulfilled (pre ++ c :: post) ->
                 exists rs,
                   fst (meta fuel schema table st) = Rejected rs
                   /\ In (couldNotFind (Constraint.foreignColumn last)) rs)
    /\ (forall before resolvedBefore cyc between,
          pre = before ++ cyc :: between ->
          Forall2 (resolvesTo st schema) before resolvedBefore ->
          Constraint.type cyc = foreign ->
          cycles st schema cyc ->
          forall fuel,
            fst (resolveConstraints fuel schema (pre ++ c :: post) st) = Pending).
Proof.
  intros C Store D st schema pre post others c last n Hc Hhops Hlast
    Hothers Hfind.
  assert (breaksAt st schema c last) as Hbreaks.
  { exists n. split; [exact Hhops|]. split; [exact Hlast|].
    exact (constraints_lacksRecord st schema last others Hothers Hfind). }
  assert (forall fuel resolved,
             fst (resolveConstraints fuel schema (pre ++ c :: post) st)
             <> Fulfilled resolved) as Hnever.
  { intros fuel resolved.
    exact (resolveConstraints_never st schema pre c last post fuel resolved
             Hc Hbreaks). }
  split; [exact Hnever|]. split; [|split].
  - intros fuel table m Htable Hmeta.
    destruct (meta_fulfilled fuel schema table _ m st Htable Hmeta)
      as [resolved Hresolved].
    exact (Hnever fuel resolved Hresolved).
  - intros resolvedPre Hpre.
    destruct (resolveConstraints_breaks st schema pre resolvedPre c last post
                Hpre Hc Hbreaks) as [_ [bound Hbound]].
    exists bound. intros fuel Hfuel. split; [exact (Hbound fuel Hfuel)|].
    intros table Htable.
    exact (meta_rejected fuel schema table (pre ++ c :: post) _ st Htable
             (Hbound fuel Hfuel)).
  - intros before resolvedBefore cyc between -> Hbefore Hcyc Hcycles fuel.
    rewrite <- app_assoc. cbn [app].
    exact (resolveConstraints_cycles st schema before resolvedBefore cyc
             (between ++ c :: post) Hbefore Hcyc Hcycles fuel).
Qed.

(** The amended C4 at a catalog where A.foo references B.bar, B.bar
    references C.baz and C has no record for baz; the primary key of A
    comes first in the list and resolves.  The error names baz, the column
    at which the chain breaks. *)
Lemma dangling_foreign_key_on_reference_store :
  (forall fuel resolved,
      fst (resolveConstraints fuel "db"
             ([Constraint.mk primary "id" None None] ++ fooToB :: [])
             (start Cases.midDangling))
      <> Fulfilled resolved)
  /\ (forall fuel m,
        fst (meta fuel "db" "A" (start Cases.midDangling)) <> Fulfilled m)
  /\ exists bound, forall fuel,
       bound <= fuel ->
       fst (resolveConstraints fuel "db"
              ([Constraint.mk primary "id" None None] ++ fooToB :: [])
              (start Cases.midDangling))
       = Rejected (Error "could not find constraint with name 'baz'")
       /\ exists rs,
            fst (meta fuel "db" "A" (start Cases.midDangling)) = Rejected rs
            /\ In (Error "could not find constraint with name 'baz'") rs.
Proof.
  assert (hops (start Cases.midDangling) "db" 1 fooToB Cases.barToC) as Hhops.
  { apply (hops_next _ _ _ fooToB Cases.barToC);
      [split; [discriminate|reflexivity]|constructor]. }
  destruct (dangling_foreign_key_is_rejected common Store database
              (start Cases.midDangling) "db"
              [Constraint.mk primary "id" None None] []
              [Constraint.mk primary "id" None None]
              fooToB Cases.barToC 1
              eq_refl Hhops ltac:(discriminate) eq_refl eq_refl)
    as (Hnever & Hmeta & Hrejected & _).
  split; [exact Hnever|]. split.
  - intros fuel m. exact (Hmeta fuel "A" m eq_refl).
  - destruct (Hrejected [Constraint.mk primary "id" None None])
      as [bound Hbound].
    { constructor; [left; split; [discriminate|reflexivity]|constructor]. }
    exists bound. intros fuel Hfuel.
    destruct (Hbound fuel Hfuel) as [Hresolve Hreasons].
    split; [exact Hresolve|]. exact (Hreasons "A" eq_refl).
Defined.

(** ** A unique key with a name of its own *)

Section NamedKeys.
Context `{Common} {Store : Type} `{!Database Store}.

(** No key-usage row belongs to the null table. *)
Lemma constraints_of_null schema (st : state Store) :
  fst (constraints schema None st) = Fulfilled [].
Proof.
  unfold constraints, executeSelectKeyColumnUsage, bind, send, ask, ret. cbn.
  assert (forall rows,
             List.filter
               (fun r => String.eqb (KeyColumnUsage.CONSTRAINT_SCHEMA r) schema
                         && bool_decide (Some (KeyColumnUsage.TABLE_NAME r) = None))
               rows = []) as ->; [|reflexivity].
  induction rows as [|r rows IH]; [reflexivity|]. cbn [List.filter].
  rewrite bool_decide_eq_false_2 by discriminate.
  rewrite andb_false_r. exact IH.
Qed.

Lemma toConstraint_foreign row :
  KeyColumnUsage.CONSTRAINT_NAME row <> "PRIMARY" ->
  KeyColumnUsage.CONSTRAINT_NAME row <> KeyColumnUsage.COLUMN_NAME row ->
  Constraint.type (toConstraint row) = foreign.
Proof.
  intros Hp Hu. unfold toConstraint. cbn.
  apply String.eqb_neq in Hp, Hu. rewrite Hp, Hu. reflexivity.
Qed.

End NamedKeys.

(** X6: a key-usage row whose constraint name is neither PRIMARY nor the
    name of its column is classified as a foreign key even when it references
    no table, as the row of a unique key with a name of its own does.  A
    constraint list that holds such a row is never resolved, and [meta] never
    yields a [TableMeta] for its table; once the constraints before it
    resolve, the failure is the error that names the referenced column of the
    row. *)
Theorem named_unique_key_is_rejected :
  forall (C : Common) (Store : Type) (D : Database Store) (st : state Store)
         (schema : string) (fuel : nat) (pre post : list Constraint)
         (row : KeyColumnUsage.row),
    KeyColumnUsage.CONSTRAINT_NAME row <> "PRIMARY" ->
    KeyColumnUsage.CONSTRAINT_NAME row <> KeyColumnUsage.COLUMN_NAME row ->
    KeyColumnUsage.REFERENCED_TABLE_NAME row = None ->
    Constraint.type (toConstraint row) = foreign
    /\ (forall resolved,
          fst (resolveConstraints fuel schema (pre ++ toConstraint row :: post) st)
          <> Fulfilled resolved)
    /\ (forall table m,
          fst (constraints schema (Some table) st)
          = Fulfilled (pre ++ toConstraint row :: post) ->
          fst (meta fuel schema table st) <> Fulfilled m)
    /\ (forall resolved st',
          resolveConstraints fuel schema pre st = (Fulfilled resolved, st') ->
          0 < fuel ->
          fst (resolveConstraints fuel schema (pre ++ toConstraint row :: post) st)
          = Rejected (couldNotFind (KeyColumnUsage.REFERENCED_COLUMN_NAME row))).
Proof.
  intros C Store D st schema fuel pre post row Hp Hu Href.
  pose proof (toConstraint_foreign row Hp Hu) as Hforeign.
  assert (fst (constraints schema (Constraint.foreignTable (toConstraint row)) st)
          = Fulfilled []) as Hnone.
  { cbn [toConstraint Constraint.foreignTable]. rewrite Href.
    apply constraints_of_null. }
  destruct (resolveConstraints_dangling fuel schema pre (toConstraint row) post []
              st Hforeign Hnone eq_refl) as [Hnever Hrejected].
  split; [exact Hforeign|]. split; [exact Hnever|]. split.
  - intros table m Htable Hmeta.
    destruct (meta_fulfilled fuel schema table _ m st Htable Hmeta)
      as [resolved Hresolved].
    exact (Hnever resolved Hresolved).
  - exact Hrejected.
Qed.

(** X6 at a table users with a primary key on id and the unique key
    uq_email on email. *)
Lemma named_unique_key_on_users :
  fst (constraints "db" (Some "users") (start Cases.users))
  = Fulfilled [ Constraint.mk primary "id" None None;
                Constraint.mk foreign "email" None None ]
  /\ fst (resolveConstraints 1 "db"
            [ Constraint.mk primary "id" None None;
              Constraint.mk foreign "email" None None ] (start Cases.users))
     = Rejected (Error "could not find constraint with name 'null'")
  /\ forall m, fst (meta 1 "db" "users" (start Cases.users)) <> Fulfilled m.
Proof.
  destruct (named_unique_key_is_rejected common Store database
              (start Cases.users) "db" 1
              [Constraint.mk primary "id" None None] [] Cases.uniqueEmail
              ltac:(discriminate) ltac:(discriminate) eq_refl)
    as (_ & _ & Hmeta & Hrejected).
  split; [reflexivity|]. split.
  - exact (Hrejected [Constraint.mk primary "id" None None] (start Cases.users)
             eq_refl (le_n 1)).
  - intros m. exact (Hmeta "users" m eq_refl).
Defined.

(** ** How meta is put together *)

Section MetaParts.
Context `{Common} {Store : Type} `{!Database Store}.

Lemma readonly_comment schema table : readonly (comment schema table).
Proof.
  unfold comment. apply readonly_bind.
  - unfold executeSelectTableComment.
    repeat (apply readonly_bind; [|intros]);
      auto using readonly_send, readonly_ask, readonly_ret.
  - intros [|first rest]; [apply readonly_throw|apply readonly_ret].
Qed.

Lemma readonly_constraints_resolved fuel schema table :
  readonly (bind (constraints schema (Some table)) (resolveConstraints fuel schema)).
Proof.
  apply readonly_bind; [apply readonly_constraints|].
  intros. apply readonly_resolveConstraints.
Qed.

(** [meta] joins the outcomes its five promises have on the store it is
    called on. *)
Lemma meta_joined fuel schema table (st : state Store) :
  fst (meta fuel schema table st)
  = match fst (tables schema st), fst (headers schema table st),
          fst (count schema table st),
          fst (bind (constraints schema (Some table))
                 (resolveConstraints fuel schema) st),
          fst (comment schema table st) with
    | Fulfilled allTables', Fulfilled hs', Fulfilled n', Fulfilled cs',
      Fulfilled cm' =>
        Fulfilled
          {| TableMeta.name := table;
             TableMeta.headers := hs';
             TableMeta.totalRows := n';
             TableMeta.constraints := cs';
             TableMeta.comment := cm';
             TableMeta.parts :=
               match Js.find (unflattenTableNames allTables')
                       (fun t => String.eqb (rawName t) table) with
               | Some t => parts t
               | None => []
               end |}
    | o1, o2, o3, o4, o5 =>
        match reasons o1 ++ reasons o2 ++ reasons o3 ++ reasons o4
              ++ reasons o5 with
        | [] => Pending
        | rs => Rejected rs
        end
    end.
Proof.
  unfold meta.
  pose proof (proj1 (readonly_tables schema) st) as E1.
  destruct (tables schema st) as [o1 st1]. cbn [fst snd] in *.
  pose proof (proj1 (readonly_headers schema table) st1) as E2.
  rewrite <- (proj2 (readonly_headers schema table) st1 st E1).
  destruct (headers schema table st1) as [o2 st2]. cbn [fst snd] in *.
  assert (store st2 = store st) as E2' by congruence.
  pose proof (proj1 (readonly_count schema table) st2) as E3.
  rewrite <- (proj2 (readonly_count schema table) st2 st E2').
  destruct (count schema table st2) as [o3 st3]. cbn [fst snd] in *.
  assert (store st3 = store st) as E3' by congruence.
  pose proof (proj1 (readonly_constraints_resolved fuel schema table) st3) as E4.
  rewrite <- (proj2 (readonly_constraints_resolved fuel schema table) st3 st E3').
  change (bind (constraints schema (Some table))
            (fun result => resolveConstraints fuel schema result) st3)
    with (bind (constraints schema (Some table)) (resolveConstraints fuel schema) st3).
  destruct (bind (constraints schema (Some table)) (resolveConstraints fuel schema) st3)
    as [o4 st4]. cbn [fst snd] in *.
  assert (store st4 = store st) as E4' by congruence.
  rewrite <- (proj2 (readonly_comment schema table) st4 st E4').
  destruct (comment schema table st4) as [o5 st5]. cbn [fst snd] in *.
  destruct o1, o2, o3, o4, o5; cbn; try reflexivity;
    match goal with |- context [match ?l with [] => _ | _ => _ end] =>
      destruct l; reflexivity end.
Qed.

Lemma comment_of_missing_table schema table (st : state Store) :
  (forall r, In r (TABLES (information_schema (store st))) ->
     Tables.TABLE_NAME r = table -> Tables.TABLE_SCHEMA r <> schema) ->
  fst (comment schema table st)
  = Rejected (TypeError "Cannot read property 'TABLE_COMMENT' of undefined").
Proof.
  intros Hmissing.
  unfold comment, executeSelectTableComment, bind, send, ask, ret. cbn.
  assert (List.filter
            (fun r => String.eqb (Tables.TABLE_NAME r) table
                      && String.eqb (Tables.TABLE_SCHEMA r) schema)
            (TABLES (information_schema (store st))) = []) as ->; [|reflexivity].
  induction (TABLES (information_schema (store st))) as [|r rows IH];
    [reflexivity|].
  cbn [List.filter].
  destruct (String.eqb (Tables.TABLE_NAME r) table) eqn:En.
  - apply String.eqb_eq in En.
    assert (Tables.TABLE_SCHEMA r <> schema) as Hs
      by (apply Hmissing; [left; reflexivity|assumption]).
    apply String.eqb_neq in Hs. rewrite Hs. cbn.
    apply IH. intros r' Hr'. apply Hmissing. right. assumption.
  - cbn. apply IH. intros r' Hr'. apply Hmissing. right. assumption.
Qed.

End MetaParts.

(** X7: a [TableMeta] that [meta] returns is made of what the other
    operations return on the same store: its name is the table asked for,
    its headers are those of [headers], its row count that of [count], its
    comment that of [comment], and its constraints are the constraints of
    the table as [resolveConstraints] resolves them. *)
Theorem meta_is_made_of_its_parts :
  forall (C : Common) (Store : Type) (D : Database Store) (st : state Store)
         (schema table : string) (fuel : nat) (m : TableMeta),
    fst (meta fuel schema table st) = Fulfilled m ->
    TableMeta.name m = table
    /\ fst (headers schema table st) = Fulfilled (TableMeta.headers m)
    /\ fst (count schema table st) = Fulfilled (TableMeta.totalRows m)
    /\ fst (comment schema table st) = Fulfilled (TableMeta.comment m)
    /\ exists originals,
         fst (constraints schema (Some table) st) = Fulfilled originals
         /\ fst (resolveConstraints fuel schema originals st)
            = Fulfilled (TableMeta.constraints m).
Proof.
  intros C Store D st schema table fuel m Hmeta.
  rewrite meta_joined in Hmeta.
  destruct (fst (tables schema st)) as [allTables| |] eqn:E1,
           (fst (headers schema table st)) as [hs| |] eqn:E2,
           (fst (count schema table st)) as [n| |] eqn:E3,
           (fst (bind (constraints schema (Some table))
                   (resolveConstraints fuel schema) st)) as [cs| |] eqn:E4,
           (fst (comment schema table st)) as [cm| |] eqn:E5;
    cbn in Hmeta; try discriminate;
    try (match type of Hmeta with
         | match ?l with [] => _ | _ => _ end = _ => destruct l; discriminate
         end).
  injection Hmeta as <-.
  do 4 (split; [reflexivity|]).
  cbn [TableMeta.constraints]. unfold bind in E4.
  destruct (constraints schema (Some table) st) as [[originals|e|] st'] eqn:E;
    cbn in E4; try discriminate.
  exists originals. split; [reflexivity|].
  rewrite <- E4.
  apply (proj2 (readonly_resolveConstraints fuel schema originals)).
  pose proof (proj1 (readonly_constraints schema (Some table)) st) as Es.
  rewrite E in Es. symmetry. exact Es.
Qed.

(** X7 at the table shapes. *)
Lemma meta_is_made_of_its_parts_for_shapes :
  exists m,
    fst (meta 0 "db" "shapes" (start shapes)) = Fulfilled m
    /\ TableMeta.name m = "shapes"
    /\ fst (headers "db" "shapes" (start shapes)) = Fulfilled (TableMeta.headers m)
    /\ fst (count "db" "shapes" (start shapes)) = Fulfilled (TableMeta.totalRows m)
    /\ fst (comment "db" "shapes" (start shapes)) = Fulfilled (TableMeta.comment m)
    /\ exists originals,
         fst (constraints "db" (Some "shapes") (start shapes)) = Fulfilled originals
         /\ fst (resolveConstraints 0 "db" originals (start shapes))
            = Fulfilled (TableMeta.constraints m).
Proof.
  eexists. split; [reflexivity|].
  apply (meta_is_made_of_its_parts common Store database (start shapes)
           "db" "shapes" 0).
  reflexivity.
Defined.

(** X8: for a table that has no row in the TABLES relation of the schema,
    [comment] throws the TypeError of reading a property of [undefined], and
    [meta] is rejected with that TypeError among the reasons, whatever the
    other four promises do. *)
Theorem meta_of_missing_table_is_rejected :
  forall (C : Common) (Store : Type) (D : Database Store) (st : state Store)
         (schema table : string) (fuel : nat),
    (forall r, In r (TABLES (information_schema (store st))) ->
       Tables.TABLE_NAME r = table -> Tables.TABLE_SCHEMA r <> schema) ->
    fst (comment schema table st)
    = Rejected (TypeError "Cannot read property 'TABLE_COMMENT' of undefined")
    /\ exists rs,
         fst (meta fuel schema table st) = Rejected rs
         /\ In (TypeError "Cannot read property 'TABLE_COMMENT' of undefined") rs.
Proof.
  intros C Store D st schema table fuel Hmissing.
  pose proof (comment_of_missing_table schema table st Hmissing) as Hcomment.
  split; [exact Hcomment|].
  rewrite meta_joined, Hcomment.
  destruct (fst (tables schema st)), (fst (headers schema table st)),
           (fst (count schema table st)),
           (fst (bind (constraints schema (Some table))
                   (resolveConstraints fuel schema) st));
    cbn; eexists; (split; [reflexivity|cbn; tauto]).
Qed.

(** X8 at a table name that the catalog of users does not hold. *)
Lemma meta_of_missing_table_on_users :
  fst (comment "db" "orders" (start Cases.users))
  = Rejected (TypeError "Cannot read property 'TABLE_COMMENT' of undefined")
  /\ exists rs,
       fst (meta 0 "db" "orders" (start Cases.users)) = Rejected rs
       /\ In (TypeError "Cannot read property 'TABLE_COMMENT' of undefined") rs.
Proof.
  apply (meta_of_missing_table_is_rejected common Store database
           (start Cases.users) "db" "orders" 0).
  intros r [<-|[]] Hname. discriminate Hname.
Defined.

(** ** Headers *)

Lemma like_chars_plain (pattern subject : list ascii) :
  forallb (fun c => negb (Ascii.eqb c "%" || Ascii.eqb c "_" || Ascii.eqb c "\"))
    pattern = true ->
  Sql.like_chars pattern subject = true <-> subject = pattern.
Proof.
  revert subject. induction pattern as [|p pattern IH]; intros subject Hplain.
  - destruct subject; cbn; split; congruence.
  - cbn [forallb] in Hplain. apply andb_true_iff in Hplain as [Hp Hplain].
    apply negb_true_iff in Hp.
    apply orb_false_iff in Hp as [Hp H3]. apply orb_false_iff in Hp as [H1 H2].
    cbn [Sql.like_chars]. rewrite H1, H2, H3.
    destruct subject as [|c subject]; [split; discriminate|].
    rewrite andb_true_iff, Ascii.eqb_eq, (IH subject Hplain).
    split; [intros [-> ->]; reflexivity|intros E; injection E; auto].
Qed.

Lemma like_plain (subject name : string) :
  plainName name = true ->
  Sql.like subject name = true <-> subject = name.
Proof.
  intros Hplain. unfold Sql.like. rewrite (like_chars_plain _ _ Hplain). split.
  - intros E. rewrite <- (string_of_list_ascii_of_string subject), E.
    apply string_of_list_ascii_of_string.
  - intros ->. reflexivity.
Qed.

Lemma orderBy_insert_sorted {A} (key : A -> Z) (x : A) (l : list A) :
  StronglySorted (fun a b => (key a <= key b)%Z) l ->
  StronglySorted (fun a b => (key a <= key b)%Z) (Sql.orderBy_insert key x l).
Proof.
  induction 1 as [|y l Hl IH Hy]; cbn [Sql.orderBy_insert].
  - repeat constructor.
  - destruct (key x <? key y)%Z eqn:E.
    + apply Z.ltb_lt in E. constructor; [constructor; assumption|].
      constructor; [lia|].
      eapply Forall_impl; [exact Hy|]. cbn. intros z Hz. lia.
    + apply Z.ltb_ge in E. constructor; [exact IH|].
      apply List.Forall_forall. intros z Hz.
      apply orderBy_insert_In in Hz as [->|Hz]; [exact E|].
      exact (proj1 (List.Forall_forall _ _) Hy z Hz).
Qed.

Lemma orderBy_sorted {A} (key : A -> Z) (l : list A) :
  StronglySorted (fun a b => (key a <= key b)%Z) (Sql.orderBy key l).
Proof.
  unfold Sql.orderBy. induction (rev l) as [|x l' IH]; cbn [fold_right].
  - constructor.
  - apply orderBy_insert_sorted. exact IH.
Qed.

Section Headers.
Context `{Common} {Store : Type} `{!Database Store}.

(** The rows [headers] reads. *)
Lemma executeSelectColumns_rows schema name (st : state Store) :
  fst (executeSelectColumns schema name st)
  = Fulfilled
      (Sql.orderBy Columns.ORDINAL_POSITION
         (List.filter
            (fun r => String.eqb (Columns.TABLE_SCHEMA r) schema
                      && Sql.like (Columns.TABLE_NAME r) name)
            (COLUMNS (information_schema (store st))))).
Proof. reflexivity. Qed.

Lemma headers_outcome schema name (st : state Store) :
  exists rows,
    fst (executeSelectColumns schema name st) = Fulfilled rows
    /\ fst (headers schema name st)
       = match mapThrowing toHeader rows with
         | Ok hs => Fulfilled hs
         | Throw e => Rejected e
         end.
Proof.
  eexists. split; [apply executeSelectColumns_rows|].
  unfold headers, bind. unfold executeSelectColumns, bind, send, ask, ret. cbn.
  destruct (mapThrowing toHeader _); reflexivity.
Qed.

Lemma mapThrowing_Ok {A B} (f : A -> result B) (l : list A) (ys : list B) :
  mapThrowing f l = Ok ys <-> Forall2 (fun x y => f x = Ok y) l ys.
Proof.
  revert ys. induction l as [|x l IH]; intros ys; cbn [mapThrowing].
  - split; [intros E; injection E as <-; constructor|].
    intros Hall. inversion Hall. reflexivity.
  - destruct (f x) as [y|e] eqn:Ex.
    + destruct (mapThrowing f l) as [ys'|e] eqn:El.
      * split.
        -- intros E. injection E as <-. constructor; [assumption|].
           apply IH. reflexivity.
        -- intros Hall. inversion Hall as [|x' y' l' ys'' Hy Hrest]; subst.
           apply IH in Hrest. congruence.
      * split; [discriminate|].
        intros Hall. inversion Hall as [|x' y' l' ys'' Hy Hrest]; subst.
        apply IH in Hrest. discriminate.
    + split; [discriminate|].
      intros Hall. inversion Hall as [|x' y' l' ys'' Hy Hrest]; subst. congruence.
Qed.

(** The first element on which the callback throws decides the error. *)
Lemma mapThrowing_Throw {A B} (f : A -> result B) (l : list A) (e : exn) :
  mapThrowing f l = Throw e <->
  exists before x after ys,
    l = before ++ x :: after
    /\ Forall2 (fun x y => f x = Ok y) before ys
    /\ f x = Throw e.
Proof.
  induction l as [|x l IH]; cbn [mapThrowing].
  - split; [discriminate|]. intros (before & x & after & ys & E & _).
    destruct before; discriminate.
  - destruct (f x) as [y|e'] eqn:Ex.
    + destruct (mapThrowing f l) as [ys'|e'] eqn:El.
      * split; [discriminate|].
        intros (before & x' & after & ys & E & Hbefore & Hx).
        destruct before as [|b before]; cbn in E; injection E as -> ->.
        -- congruence.
        -- inversion Hbefore; subst.
           assert (Ok ys' = Throw e) as Habs; [|discriminate].
           apply IH. eauto 10.
      * split.
        -- intros E. injection E as ->.
           destruct (proj1 IH eq_refl) as (before & x' & after & ys & -> & Hb & Hx).
           exists (x :: before), x', after, (y :: ys).
           split; [reflexivity|]. split; [constructor; assumption|assumption].
        -- intros (before & x' & after & ys & E & Hbefore & Hx).
           destruct before as [|b before]; cbn in E; injection E as -> ->.
           ++ congruence.
           ++ inversion Hbefore; subst.
              apply IH. eauto 10.
    + split.
      * intros E. injection E as ->. exists [], x, l, []. repeat split; auto.
      * intros (before & x' & after & ys & E & Hbefore & Hx).
        destruct before as [|b before]; cbn in E; injection E as -> ->.
        -- congruence.
        -- inversion Hbefore; subst. congruence.
Qed.

(** What [toHeader] makes of a row whose raw type it accepts. *)
Lemma toHeader_Ok row h :
  toHeader row = Ok h ->
  exists type enumValues,
    parseType (Columns.COLUMN_TYPE row) = Ok type
    /\ findEnumValues (Columns.COLUMN_TYPE row) = Ok enumValues
    /\ TableHeader.name h = Columns.COLUMN_NAME row
    /\ TableHeader.tableName h = Columns.TABLE_NAME row
    /\ TableHeader.ordinalPosition h = Columns.ORDINAL_POSITION row
    /\ TableHeader.rawType h = Columns.COLUMN_TYPE row
    /\ TableHeader.type h = type
    /\ TableHeader.enumValues h = enumValues
    /\ TableHeader.isNumerical h
       = (bool_decide (type = integer) || bool_decide (type = float))
    /\ TableHeader.isTextual h = negb (TableHeader.isNumerical h)
    /\ TableHeader.signed h
       = (TableHeader.isNumerical h
          && negb (Js.includes (Columns.COLUMN_TYPE row) "unsigned"))
    /\ TableHeader.defaultValue h
       = identifyDefaultValue CURRENT_TIMESTAMP (Columns.COLUMN_TYPE row) type
           (Columns.COLUMN_DEFAULT row).
Proof.
  unfold toHeader.
  destruct (parseType (Columns.COLUMN_TYPE row)) as [type|e]; [|discriminate].
  destruct (findEnumValues (Columns.COLUMN_TYPE row)) as [enumValues|e];
    [|discriminate].
  intros E. injection E as <-. exists type, enumValues. cbn. repeat split.
Qed.

End Headers.

Lemma orderBy_insert_length {A} (key : A -> Z) (x : A) (l : list A) :
  length (Sql.orderBy_insert key x l) = S (length l).
Proof.
  induction l as [|y l IH]; cbn [Sql.orderBy_insert]; [reflexivity|].
  destruct (key x <? key y)%Z; cbn [length]; [reflexivity|]. rewrite IH. reflexivity.
Qed.

Lemma orderBy_length {A} (key : A -> Z) (l : list A) :
  length (Sql.orderBy key l) = length l.
Proof.
  unfold Sql.orderBy. rewrite <- (length_rev l).
  induction (rev l) as [|x l' IH]; cbn [fold_right]; [reflexivity|].
  rewrite orderBy_insert_length, IH. reflexivity.
Qed.

Lemma Forall2_In_right {A B} (R : A -> B -> Prop) (l : list A) (l' : list B) (b : B) :
  Forall2 R l l' -> In b l' -> exists a, In a l /\ R a b.
Proof.
  induction 1 as [|a b' l l' Hab _ IH]; intros Hb; [contradiction|].
  destruct Hb as [<-|Hb].
  - exists a. split; [left; reflexivity|assumption].
  - destruct (IH Hb) as (a' & Ha' & HR). exists a'. split; [right|]; assumption.
Qed.

Lemma StronglySorted_map_Forall2 {A B} (f : A -> Z) (g : B -> Z)
    (l : list A) (l' : list B) :
  Forall2 (fun a b => g b = f a) l l' ->
  StronglySorted (fun a b => (f a <= f b)%Z) l ->
  StronglySorted Z.le (map g l').
Proof.
  induction 1 as [|a b l l' Hab Hrest IH]; intros Hsorted; cbn [map].
  - constructor.
  - inversion Hsorted as [|a' l'' Hl Ha]; subst.
    constructor; [apply IH; assumption|].
    apply List.Forall_forall. intros z Hz. apply in_map_iff in Hz as (b' & <- & Hb').
    destruct (Forall2_In_right _ _ _ _ Hrest Hb') as (a' & Ha' & Hg).
    rewrite Hab, Hg. exact (proj1 (List.Forall_forall _ _) Ha a' Ha').
Qed.

(** X9: for a table name without a metacharacter of LIKE, the headers that
    [headers] returns all belong to the table of that name, and there is one
    for each column the catalog has for that table in the schema. *)
Theorem headers_of_plain_name_are_of_that_table :
  forall (C : Common) (Store : Type) (D : Database Store) (st : state Store)
         (schema name : string) (hs : list TableHeader),
    plainName name = true ->
    fst (headers schema name st) = Fulfilled hs ->
    (forall h, In h hs -> TableHeader.tableName h = name)
    /\ length hs
       = length (List.filter
                   (fun r => String.eqb (Columns.TABLE_SCHEMA r) schema
                             && String.eqb (Columns.TABLE_NAME r) name)
                   (COLUMNS (information_schema (store st)))).
Proof.
  intros C Store D st schema name hs Hplain Hheaders.
  destruct (headers_outcome schema name st) as (rows & Hrows & Hout).
  rewrite executeSelectColumns_rows in Hrows. injection Hrows as <-.
  rewrite Hheaders in Hout.
  destruct (mapThrowing toHeader _) as [hs'|e] eqn:Emap; [|discriminate].
  injection Hout as ->. apply mapThrowing_Ok in Emap. split.
  - intros h Hh.
    destruct (Forall2_In_right _ _ _ _ Emap Hh) as (row & Hrow & Hto).
    apply toHeader_Ok in Hto as (type & enumValues & _ & _ & _ & Htable & _).
    rewrite Htable. apply orderBy_In in Hrow. apply filter_In in Hrow as [_ Hrow].
    apply andb_true_iff in Hrow as [_ Hlike].
    apply like_plain; assumption.
  - rewrite <- (Forall2_length _ _ _ Emap), orderBy_length. f_equal.
    apply filter_ext. intros r. f_equal.
    destruct (Sql.like (Columns.TABLE_NAME r) name) eqn:Elike.
    + apply (like_plain _ _ Hplain) in Elike. symmetry.
      apply String.eqb_eq. assumption.
    + destruct (String.eqb (Columns.TABLE_NAME r) name) eqn:Eeq; [|reflexivity].
      apply String.eqb_eq in Eeq. apply (like_plain _ _ Hplain) in Eeq. congruence.
Qed.

(** X9 at the table shapes. *)
Lemma headers_of_shapes_are_of_shapes :
  exists hs,
    fst (headers "db" "shapes" (start shapes)) = Fulfilled hs
    /\ (forall h, In h hs -> TableHeader.tableName h = "shapes")
    /\ length hs = 2.
Proof.
  eexists. split; [reflexivity|].
  apply (headers_of_plain_name_are_of_that_table common Store database
           (start shapes) "db" "shapes"); reflexivity.
Defined.

(** X10: the headers that [headers] returns come one for each row the query
    selects, in the order of the rows, which is ascending in ordinal
    position; each header carries the column name, table name, raw type and
    ordinal position of its row. *)
Theorem headers_follow_ordinal_position :
  forall (C : Common) (Store : Type) (D : Database Store) (st : state Store)
         (schema name : string) (hs : list TableHeader),
    fst (headers schema name st) = Fulfilled hs ->
    StronglySorted Z.le (map TableHeader.ordinalPosition hs)
    /\ exists rows,
         fst (executeSelectColumns schema name st) = Fulfilled rows
         /\ Forall2 describes rows hs.
Proof.
  intros C Store D st schema name hs Hheaders.
  destruct (headers_outcome schema name st) as (rows & Hrows & Hout).
  rewrite Hheaders in Hout.
  destruct (mapThrowing toHeader rows) as [hs'|e] eqn:Emap; [|discriminate].
  injection Hout as <-. apply mapThrowing_Ok in Emap.
  assert (Forall2 describes rows hs) as Hdescribes.
  { eapply Forall2_impl; [exact Emap|]. cbn. intros row h Hto.
    apply toHeader_Ok in Hto
      as (type & enumValues & _ & _ & Hn & Ht & Ho & Hr & _).
    repeat split; assumption. }
  split; [|exists rows; split; assumption].
  apply (StronglySorted_map_Forall2 Columns.ORDINAL_POSITION
           TableHeader.ordinalPosition rows hs).
  - eapply Forall2_impl; [exact Hdescribes|]. cbn. intros row h (_ & _ & _ & Ho).
    exact Ho.
  - rewrite executeSelectColumns_rows in Hrows. injection Hrows as <-.
    apply orderBy_sorted.
Qed.

(** X10 at the tables the name user_roles selects. *)
Lemma headers_follow_ordinal_position_for_user_roles :
  exists hs,
    fst (headers "db" "user_roles" (start userRoles)) = Fulfilled hs
    /\ StronglySorted Z.le (map TableHeader.ordinalPosition hs)
    /\ exists rows,
         fst (executeSelectColumns "db" "user_roles" (start userRoles))
         = Fulfilled rows
         /\ Forall2 describes rows hs.
Proof.
  eexists. split; [reflexivity|].
  apply (headers_follow_ordinal_position common Store database (start userRoles)
           "db" "user_roles").
  reflexivity.
Defined.

Lemma toHeader_Throw `{Common} (row : Columns.row) (e : exn) :
  toHeader row = Throw e <->
  parseType (Columns.COLUMN_TYPE row) = Throw e
  \/ ((exists type, parseType (Columns.COLUMN_TYPE row) = Ok type)
      /\ findEnumValues (Columns.COLUMN_TYPE row) = Throw e).
Proof.
  unfold toHeader.
  destruct (parseType (Columns.COLUMN_TYPE row)) as [type|e1].
  - destruct (findEnumValues (Columns.COLUMN_TYPE row)) as [enumValues|e2].
    + split; [discriminate|]. intros [E|[_ E]]; discriminate.
    + split; [intros E; right; split; [eauto|congruence]|].
      intros [E|[_ E]]; congruence.
  - split; [intros E; left; congruence|].
    intros [E|[[type E] _]]; congruence.
Qed.

(** X11: [headers] is never left pending, and it is rejected exactly when
    one of the rows the query selects has a raw type that [parseType] does
    not recognise or an enum type that [findEnumValues] cannot take apart;
    the error is that of the first such row in the order of the query, the
    rows before it being accepted. *)
Theorem headers_rejected_by_first_bad_column :
  forall (C : Common) (Store : Type) (D : Database Store) (st : state Store)
         (schema name : string) (e : exn),
    fst (headers schema name st) <> Pending
    /\ (fst (headers schema name st) = Rejected e <->
        exists rows before row after,
          fst (executeSelectColumns schema name st) = Fulfilled rows
          /\ rows = before ++ row :: after
          /\ Forall (fun r => exists h, toHeader r = Ok h) before
          /\ (parseType (Columns.COLUMN_TYPE row) = Throw e
              \/ ((exists type, parseType (Columns.COLUMN_TYPE row) = Ok type)
                  /\ findEnumValues (Columns.COLUMN_TYPE row) = Throw e))).
Proof.
  intros C Store D st schema name e.
  destruct (headers_outcome schema name st) as (rows & Hrows & Hout).
  split.
  { rewrite Hout. destruct (mapThrowing toHeader rows); discriminate. }
  rewrite Hout. split.
  - destruct (mapThrowing toHeader rows) as [hs|e'] eqn:Emap; [discriminate|].
    intros E. injection E as ->.
    apply mapThrowing_Throw in Emap
      as (before & row & after & ys & -> & Hbefore & Hrow).
    exists (before ++ row :: after), before, row, after.
    split; [assumption|]. split; [reflexivity|]. split.
    + apply List.Forall_forall. intros r Hr.
      clear -Hbefore Hr. induction Hbefore as [|a b l l' Hab _ IH];
        [contradiction|].
      destruct Hr as [<-|Hr]; [eauto|auto].
    + apply toHeader_Throw. assumption.
  - intros (rows' & before & row & after & Hrows' & -> & Hbefore & Hrow).
    rewrite Hrows in Hrows'. injection Hrows' as ->.
    assert (mapThrowing toHeader (before ++ row :: after) = Throw e) as ->;
      [|reflexivity].
    apply mapThrowing_Throw.
    assert (exists ys, Forall2 (fun x y => toHeader x = Ok y) before ys)
      as [ys Hys].
    { clear -Hbefore. induction Hbefore as [|r l [h Hh] _ [ys IH]].
      - exists []. constructor.
      - exists (h :: ys). constructor; assumption. }
    exists before, row, after, ys. split; [reflexivity|]. split; [assumption|].
    apply toHeader_Throw. assumption.
Qed.

(** X11 at a table whose second column is of type json and whose third is of
    type geometry. *)
Lemma headers_of_events_rejected :
  fst (headers "db" "events" (start MoreCases.events))
  = Rejected (Error "Could not determine TableDataType for raw type 'json'").
Proof.
  apply (proj2 (headers_rejected_by_first_bad_column common Store database
                  (start MoreCases.events) "db" "events" _)).
  eexists _, [Reference.column "db" "events" "id" 1 "int" "int(11)" None],
    (Reference.column "db" "events" "payload" 2 "json" "json" None),
    [Reference.column "db" "events" "place" 3 "geometry" "geometry" None].
  split; [reflexivity|]. split; [reflexivity|]. split.
  - constructor; [eexists; reflexivity|constructor].
  - left. reflexivity.
Defined.

(** ** What holds of every header *)

Lemma append_assoc (s t u : string) : (s +:+ t) +:+ u = s +:+ t +:+ u.
Proof.
  induction s as [|a s IH]; [reflexivity|].
  rewrite !append_cons, IH. reflexivity.
Qed.

Lemma contains_trans (s a b : string) :
  contains s a -> contains a b -> contains s b.
Proof.
  intros (pre & post & ->) (pre' & post' & ->).
  exists (pre +:+ pre'), (post' +:+ post).
  rewrite !append_assoc. reflexivity.
Qed.

Lemma includes_int_tinyint (raw : string) :
  Js.includes raw "int" = false -> Js.includes raw "tinyint(1)" = false.
Proof.
  rewrite !includes_false. intros Hint Htiny. apply Hint.
  apply (contains_trans _ _ _ Htiny). exists "tiny", "(1)". reflexivity.
Qed.

Lemma startsWith_enum_paren (raw : string) :
  Js.startsWith raw "enum(" = true -> Js.startsWith raw "enum" = true.
Proof.
  rewrite !startsWith_spec. intros [post ->]. exists ("(" +:+ post). reflexivity.
Qed.

Lemma parseType_blob_not_datetime (raw : string) :
  parseType raw = Ok blob -> raw <> "datetime".
Proof. intros E ->. discriminate E. Qed.

Lemma parseType_enum (raw : string) :
  parseType raw = Ok enum -> starts_with raw "enum".
Proof.
  unfold parseType.
  repeat match goal with
         | |- context [if ?b then _ else _] => destruct b eqn:?
         end; try discriminate.
  intros _. apply startsWith_spec. assumption.
Qed.

Lemma parseType_of_enum (raw : string) :
  Js.startsWith raw "enum(" = true ->
  Js.includes raw "int" = false ->
  Js.includes raw "double" = false ->
  Js.includes raw "float" = false ->
  Js.includes raw "decimal" = false ->
  parseType raw = Ok enum.
Proof.
  intros Henum Hint Hdouble Hfloat Hdecimal. unfold parseType.
  rewrite (includes_int_tinyint raw Hint), Hint, Hdouble, Hfloat, Hdecimal.
  cbn [orb].
  destruct (String.eqb raw "date") eqn:E1;
    [apply String.eqb_eq in E1; subst raw; discriminate Henum|].
  destruct (String.eqb raw "datetime") eqn:E2;
    [apply String.eqb_eq in E2; subst raw; discriminate Henum|].
  destruct (String.eqb raw "timestamp") eqn:E3;
    [apply String.eqb_eq in E3; subst raw; discriminate Henum|].
  cbn [orb]. rewrite (startsWith_enum_paren raw Henum). reflexivity.
Qed.

Lemma findEnumValues_Some (raw : string) (enumValues : option (list string)) :
  findEnumValues raw = Ok enumValues ->
  (enumValues <> None <-> starts_with raw "enum(").
Proof.
  unfold findEnumValues. rewrite <- startsWith_spec.
  destruct (Js.startsWith raw "enum("); cbn [negb].
  - destruct (matchEnum raw); [|discriminate].
    intros E. injection E as <-. split; [reflexivity|discriminate].
  - intros E. injection E as <-. split; [congruence|discriminate].
Qed.

Lemma headers_Forall `{Common} {Store} `{!Database Store} (st : state Store)
    schema name hs (P : TableHeader -> Prop) :
  (forall row h, toHeader row = Ok h -> P h) ->
  fst (headers schema name st) = Fulfilled hs ->
  Forall P hs.
Proof.
  intros HP Hheaders.
  destruct (headers_outcome schema name st) as (rows & Hrows & Hout).
  rewrite Hheaders in Hout.
  destruct (mapThrowing toHeader rows) as [hs'|e] eqn:Emap; [|discriminate].
  injection Hout as <-. apply mapThrowing_Ok in Emap.
  apply List.Forall_forall. intros h Hh.
  destruct (Forall2_In_right _ _ _ _ Emap Hh) as (row & _ & Hto).
  exact (HP row h Hto).
Qed.

(** X12: for every header that [headers] returns, the enum values are
    present exactly when the raw type starts with the text enum and an
    opening parenthesis; a header of type enum has a raw type that starts
    with enum; and when the raw type contains none of int, double, float and
    decimal, a header with enum values is of type enum, and a header of type
    enum whose raw type opens its list of values has them. *)
Theorem headers_enum_values_and_type :
  forall (C : Common) (Store : Type) (D : Database Store) (st : state Store)
         (schema name : string) (hs : list TableHeader),
    fst (headers schema name st) = Fulfilled hs ->
    Forall
      (fun h =>
         (TableHeader.enumValues h <> None
          <-> starts_with (TableHeader.rawType h) "enum(")
         /\ (TableHeader.type h = enum -> starts_with (TableHeader.rawType h) "enum")
         /\ (~ contains (TableHeader.rawType h) "int" ->
             ~ contains (TableHeader.rawType h) "double" ->
             ~ contains (TableHeader.rawType h) "float" ->
             ~ contains (TableHeader.rawType h) "decimal" ->
             (TableHeader.enumValues h <> None -> TableHeader.type h = enum)
             /\ (TableHeader.type h = enum ->
                 starts_with (TableHeader.rawType h) "enum(" ->
                 TableHeader.enumValues h <> None)))
      hs.
Proof.
  intros C Store D st schema name hs. apply headers_Forall.
  intros row h Hto.
  apply toHeader_Ok in Hto
    as (type & enumValues & Hparse & Hfind & _ & _ & _ & Hraw & Htype & Henum & _).
  rewrite Hraw, Htype, Henum.
  pose proof (findEnumValues_Some _ _ Hfind) as Hsome.
  split; [exact Hsome|]. split.
  - intros ->. apply parseType_enum. assumption.
  - intros Hint Hdouble Hfloat Hdecimal. split.
    + intros Hvalues. apply Hsome in Hvalues. apply startsWith_spec in Hvalues.
      apply includes_false in Hint, Hdouble, Hfloat, Hdecimal.
      rewrite (parseType_of_enum _ Hvalues Hint Hdouble Hfloat Hdecimal) in Hparse.
      congruence.
    + intros _ Hopen. apply Hsome. assumption.
Qed.

(** X12 at the table shapes. *)
Lemma headers_enum_values_and_type_for_shapes :
  exists hs,
    fst (headers "db" "shapes" (start shapes)) = Fulfilled hs
    /\ Forall
         (fun h =>
            (TableHeader.enumValues h <> None
             <-> starts_with (TableHeader.rawType h) "enum(")
            /\ (TableHeader.type h = enum
                -> starts_with (TableHeader.rawType h) "enum")
            /\ (~ contains (TableHeader.rawType h) "int" ->
                ~ contains (TableHeader.rawType h) "double" ->
                ~ contains (TableHeader.rawType h) "float" ->
                ~ contains (TableHeader.rawType h) "decimal" ->
                (TableHeader.enumValues h <> None -> TableHeader.type h = enum)
                /\ (TableHeader.type h = enum ->
                    starts_with (TableHeader.rawType h) "enum(" ->
                    TableHeader.enumValues h <> None)))
         hs.
Proof.
  eexists. split; [reflexivity|].
  apply (headers_enum_values_and_type common Store database (start shapes)
           "db" "shapes").
  reflexivity.
Defined.

(** X13: for every header that [headers] returns, the header is numerical
    exactly when its type is integer or float, and textual otherwise; it is
    signed only when it is numerical and its raw type does not contain
    unsigned; a header of type blob has the default value null; and a header
    whose default value is a named constant has the raw type datetime and the
    type datetime. *)
Theorem headers_flags_and_defaults :
  forall (C : Common) (Store : Type) (D : Database Store) (st : state Store)
         (schema name : string) (hs : list TableHeader),
    fst (headers schema name st) = Fulfilled hs ->
    Forall
      (fun h =>
         (TableHeader.isNumerical h = true
          <-> TableHeader.type h = integer \/ TableHeader.type h = float)
         /\ TableHeader.isTextual h = negb (TableHeader.isNumerical h)
         /\ (TableHeader.signed h = true ->
             TableHeader.isNumerical h = true
             /\ ~ contains (TableHeader.rawType h) "unsigned")
         /\ (TableHeader.type h = blob -> TableHeader.defaultValue h = DNull)
         /\ (forall constantName,
                TableHeader.defaultValue h = DConstant constantName ->
                TableHeader.rawType h = "datetime"
                /\ TableHeader.type h = datetime))
      hs.
Proof.
  intros C Store D st schema name hs. apply headers_Forall.
  intros row h Hto.
  apply toHeader_Ok in Hto
    as (type & enumValues & Hparse & Hfind & _ & _ & _ & Hraw & Htype & _
        & Hnum & Htext & Hsigned & Hdefault).
  rewrite Hraw, Htype, Hnum in *. split; [|split; [|split; [|split]]].
  - rewrite orb_true_iff, !bool_decide_eq_true. reflexivity.
  - rewrite Htext. reflexivity.
  - rewrite Hsigned. intros E. apply andb_true_iff in E as [E1 E2].
    split; [exact E1|]. apply includes_false. apply negb_true_iff. exact E2.
  - intros ->. rewrite Hdefault. unfold identifyDefaultValue.
    pose proof (parseType_blob_not_datetime _ Hparse) as Hne.
    apply String.eqb_neq in Hne. rewrite Hne, andb_false_r. reflexivity.
  - intros constantName E. rewrite Hdefault in E.
    unfold identifyDefaultValue in E.
    destruct (bool_decide _ && String.eqb (Columns.COLUMN_TYPE row) "datetime")
      eqn:Efirst.
    + apply andb_true_iff in Efirst as [_ Eraw]. apply String.eqb_eq in Eraw.
      split; [exact Eraw|]. rewrite Eraw in Hparse. cbn in Hparse. congruence.
    + destruct type, (Columns.COLUMN_DEFAULT row); discriminate.
Qed.

(** X13 at the table orders. *)
Lemma headers_flags_and_defaults_for_orders :
  exists hs,
    fst (headers "db" "orders" (start orders)) = Fulfilled hs
    /\ Forall
         (fun h =>
            (TableHeader.isNumerical h = true
             <-> TableHeader.type h = integer \/ TableHeader.type h = float)
            /\ TableHeader.isTextual h = negb (TableHeader.isNumerical h)
            /\ (TableHeader.signed h = true ->
                TableHeader.isNumerical h = true
                /\ ~ contains (TableHeader.rawType h) "unsigned")
            /\ (TableHeader.type h = blob -> TableHeader.defaultValue h = DNull)
            /\ (forall constantName,
                   TableHeader.defaultValue h = DConstant constantName ->
                   TableHeader.rawType h = "datetime"
                   /\ TableHeader.type h = datetime))
         hs.
Proof.
  eexists. split; [reflexivity|].
  apply (headers_flags_and_defaults common Store database (start orders)
           "db" "orders").
  reflexivity.
Defined.

(** ** Enum values *)

Lemma rev_app_rev_app (v c d : string) :
  String.rev_app (String.rev_app v c) d = String.rev_app c (v +:+ d).
Proof.
  revert c d. induction v as [|a v IH]; intros c d; [reflexivity|].
  cbn [String.rev_app]. rewrite IH. cbn [String.rev_app]. reflexivity.
Qed.

Lemma rev_rev_app (v : string) : String.rev (String.rev_app v EmptyString) = v.
Proof.
  unfold String.rev. rewrite rev_app_rev_app. cbn [String.rev_app].
  induction v as [|a v IH]; [reflexivity|]. rewrite append_cons, IH. reflexivity.
Qed.

Lemma append_empty (s : string) : s +:+ EmptyString = s.
Proof.
  induction s as [|a s IH]; [reflexivity|]. rewrite append_cons, IH. reflexivity.
Qed.

Lemma length_append (s t : string) :
  String.length (s +:+ t) = String.length s + String.length t.
Proof.
  induction s as [|a s IH]; [reflexivity|].
  rewrite append_cons. cbn [String.length]. rewrite IH. reflexivity.
Qed.

(** Reading a text without a quote: no separator starts inside it. *)
Lemma split_go_value (v : string) :
  forall fuel cur rest,
    quoteFree v = true ->
    String.length v <= fuel ->
    Js.split_go fuel "','" cur (v +:+ rest)
    = Js.split_go (fuel - String.length v) "','" (String.rev_app v cur) rest.
Proof.
  induction v as [|a v IH]; intros fuel cur rest Hfree Hfuel.
  - cbn [String.length String.rev_app]. rewrite Nat.sub_0_r. reflexivity.
  - cbn [String.length] in *. destruct fuel as [|fuel]; [lia|].
    unfold quoteFree in Hfree. cbn [list_ascii_of_string forallb] in Hfree.
    apply andb_true_iff in Hfree as [Ha Hfree]. apply negb_true_iff in Ha.
    rewrite append_cons. cbn [Js.split_go].
    assert (Js.startsWith (String a (v +:+ rest)) "','" = false) as ->.
    { unfold Js.startsWith. cbn [String.prefix].
      destruct (ascii_dec "'" a) as [<-|_]; [discriminate Ha|reflexivity]. }
    rewrite (IH fuel (String a cur) rest Hfree ltac:(lia)).
    reflexivity.
Qed.

Lemma split_go_joinQuoted (values : list string) :
  forall v fuel,
    Forall (fun v => quoteFree v = true) (v :: values) ->
    String.length (joinQuoted (v :: values)) < fuel ->
    Js.split_go fuel "','" EmptyString (joinQuoted (v :: values)) = v :: values.
Proof.
  induction values as [|w values IH]; intros v fuel Hfree Hfuel.
  - cbn [joinQuoted] in *. inversion Hfree as [|? ? Hv _]; subst.
    rewrite <- (append_empty v) at 1.
    rewrite split_go_value by (assumption || lia).
    destruct (fuel - String.length v); cbn [Js.split_go];
      rewrite rev_rev_app; reflexivity.
  - inversion Hfree as [|? ? Hv Hrest]; subst.
    change (joinQuoted (v :: w :: values))
      with (v +:+ "','" +:+ joinQuoted (w :: values)) in *.
    rewrite !length_append in Hfuel. cbn [String.length] in Hfuel.
    rewrite split_go_value by (assumption || lia).
    destruct (fuel - String.length v) as [|fuel'] eqn:Efuel; [lia|].
    change ("','" +:+ joinQuoted (w :: values))
      with (String "'" ("," +:+ "'" +:+ joinQuoted (w :: values))).
    cbn [Js.split_go].
    assert (Js.startsWith (String "'" ("," +:+ "'" +:+ joinQuoted (w :: values)))
              "','" = true) as ->.
    { apply startsWith_spec. exists (joinQuoted (w :: values)). reflexivity. }
    rewrite rev_rev_app. f_equal.
    cbn [String.length Js.drop].
    change (Js.drop 2 ("," +:+ "'" +:+ joinQuoted (w :: values)))
      with (joinQuoted (w :: values)).
    apply IH; [assumption|lia].
Qed.

Lemma split_joinQuoted (values : list string) :
  values <> [] ->
  Forall (fun v => quoteFree v = true) values ->
  Js.split (joinQuoted values) "','" = values.
Proof.
  intros Hne Hfree. destruct values as [|v values]; [contradiction|].
  unfold Js.split. apply split_go_joinQuoted; [assumption|lia].
Qed.

Lemma endsWith_append (s p : string) : Js.endsWith (s +:+ p) p = true.
Proof.
  induction s as [|a s IH].
  - change (EmptyString +:+ p) with p.
    destruct p; cbn [Js.endsWith]; rewrite String.eqb_refl; reflexivity.
  - rewrite append_cons. cbn [Js.endsWith]. rewrite IH. apply orb_true_r.
Qed.

Lemma substring_middle (a b c : string) :
  String.substring (String.length a) (String.length b) (a +:+ b +:+ c) = b.
Proof.
  induction a as [|x a IH].
  - cbn [String.length]. change (EmptyString +:+ b +:+ c) with (b +:+ c).
    induction b as [|y b IHb].
    + destruct c; reflexivity.
    + rewrite append_cons. cbn [String.length String.substring]. rewrite IHb.
      reflexivity.
  - rewrite append_cons. cbn [String.length String.substring]. exact IH.
Qed.

Lemma matchEnum_enumType (values : list string) :
  existsb (Js.includes (joinQuoted values)) lineTerminators = false ->
  matchEnum (enumType values) = Some (joinQuoted values).
Proof.
  intros Hterm. unfold matchEnum, enumType.
  assert (Js.startsWith ("enum('" +:+ joinQuoted values +:+ "')") "enum('" = true)
    as -> by (apply startsWith_spec; eexists; reflexivity).
  assert (Js.endsWith ("enum('" +:+ joinQuoted values +:+ "')") "')" = true) as ->.
  { rewrite <- append_assoc. apply endsWith_append. }
  rewrite !length_append. cbn [String.length].
  replace (6 + (String.length (joinQuoted values) + 2) - 8)
    with (String.length (joinQuoted values)) by lia.
  replace (8 <=? 6 + (String.length (joinQuoted values) + 2))%nat with true
    by (symmetry; apply Nat.leb_le; lia).
  pose proof (substring_middle "enum('" (joinQuoted values) "')") as Hmiddle.
  cbn [String.length] in Hmiddle. cbv zeta. rewrite Hmiddle, Hterm.
  reflexivity.
Qed.

(** X14: [findEnumValues] gives back the values of an enum type: for a
    non-empty list of values without a quote character and without a line
    terminator, the raw type made of the quoted values separated by commas
    is taken apart into that list. *)
Theorem findEnumValues_of_enumType :
  forall (values : list string),
    values <> [] ->
    Forall (fun v => quoteFree v = true) values ->
    existsb (Js.includes (joinQuoted values)) lineTerminators = false ->
    findEnumValues (enumType values) = Ok (Some values).
Proof.
  intros values Hne Hfree Hterm. unfold findEnumValues.
  assert (Js.startsWith (enumType values) "enum(" = true) as ->.
  { apply startsWith_spec. exists ("'" +:+ joinQuoted values +:+ "')").
    reflexivity. }
  cbn [negb]. rewrite (matchEnum_enumType values Hterm).
  rewrite (split_joinQuoted values Hne Hfree). reflexivity.
Qed.

(** X14 at the values new, in progress and done. *)
Lemma findEnumValues_of_three_values :
  findEnumValues (enumType ["new"; "in progress"; "done"])
  = Ok (Some ["new"; "in progress"; "done"]).
Proof.
  apply (findEnumValues_of_enumType ["new"; "in progress"; "done"]).
  - discriminate.
  - repeat constructor.
  - reflexivity.
Defined.

(** ** The statements and rows of insertRow *)

Section InsertStatements.
Context {Store : Type} `{!Database Store}.

(** The loop sends one insert for every name it visits, up to and including
    the first the store refuses. *)
Lemma insertEach_sent schema table preparedData names (st : state Store) :
  exists new,
    sent (snd (insertEach schema table preparedData names st)) = sent st ++ new
    /\ Forall (fun s => exists rows,
                 s = InsertInto (escapeId schema +:+ "." +:+ escapeId table) rows)
         new
    /\ length new <= length names
    /\ (fst (insertEach schema table preparedData names st) = Fulfilled tt ->
        length new = length names).
Proof.
  revert st. induction names as [|name rest IH]; intros st; cbn [insertEach].
  - exists []. cbn. rewrite app_nil_r. repeat split; auto.
  - unfold executeInsert, bind, send, ask, lift, put. cbn.
    destruct (insertInto _ _ (store st)) as [s'|e]; cbn.
    + match goal with |- context [insertEach _ _ _ rest ?st1] =>
        destruct (IH st1) as (new & Hsent & Hall & Hle & Heq) end.
      rewrite Hsent. cbn. rewrite <- app_assoc. eexists. split; [reflexivity|].
      split; [constructor; [eexists; reflexivity|assumption]|].
      cbn [length app]. split; [lia|]. intros E. rewrite (Heq E). reflexivity.
    + eexists. split; [reflexivity|].
      split; [constructor; [eexists; reflexivity|constructor]|].
      cbn [length app]. split; [lia|discriminate].
Qed.

Lemma assign_fresh key value (obj : SqlRow) :
  ~ In key (map fst obj) -> assign key value obj = obj ++ [(key, value)].
Proof.
  induction obj as [|[k w] obj IH]; intros Hfresh; [reflexivity|].
  cbn [assign]. cbn [map fst In] in Hfresh.
  destruct (String.eqb k key) eqn:E.
  - apply String.eqb_eq in E. exfalso. apply Hfresh. left. assumption.
  - rewrite IH by tauto. reflexivity.
Qed.

Lemma assign_keys key value (obj : SqlRow) :
  List.NoDup (map fst obj) -> List.NoDup (map fst (assign key value obj)).
Proof.
  induction obj as [|[k w] obj IH]; intros Hnodup; cbn [assign].
  - cbn. apply List.NoDup_cons; [intros []|apply List.NoDup_nil].
  - destruct (String.eqb k key) eqn:E; [exact Hnodup|].
    cbn [map fst] in *. apply List.NoDup_cons_iff in Hnodup as [Hk Hnodup].
    apply List.NoDup_cons_iff. split; [|apply IH; assumption].
    intros Hin. apply in_map_iff in Hin as ([k' v'] & Ek & Hin). cbn in Ek. subst k'.
    apply assign_In in Hin as [Eq|Hin].
    + injection Eq as -> _. rewrite String.eqb_refl in E. discriminate.
    + apply Hk. apply in_map_iff. exists (k, v'). split; [reflexivity|assumption].
Qed.

End InsertStatements.

(** X15: [insertRow] sends nothing and leaves its state as it is when the
    validator throws; otherwise the statements it sends are inserts into the
    table given to [insertRow], at most one for each target name of the
    prepared data, and exactly one for each when [insertRow] is fulfilled. *)
Theorem insertRow_sends_one_insert_per_name :
  forall (Store : Type) (D : Database Store) (V : TableInputValidator Store)
         (schema table : string) (data : SubmittedData) (st : state Store),
    (forall e,
        validate schema data (store st) = Throw e ->
        insertRow schema table data st = (Rejected e, st))
    /\ (forall preparedData,
          validate schema data (store st) = Ok preparedData ->
          exists new,
            sent (snd (insertRow schema table data st)) = sent st ++ new
            /\ Forall (fun s => exists rows,
                         s = InsertInto (escapeId schema +:+ "." +:+ escapeId table)
                               rows) new
            /\ length new <= length (keys preparedData)
            /\ (fst (insertRow schema table data st) = Fulfilled tt ->
                length new = length (keys preparedData))).
Proof.
  intros Store D V schema table data st. split.
  - intros e Hvalid. unfold insertRow, bind, ask, lift. rewrite Hvalid.
    reflexivity.
  - intros preparedData Hvalid. unfold insertRow, bind, ask, lift.
    rewrite Hvalid. cbn. unfold transaction.
    destruct (insertEach_sent schema table preparedData
                (Js.sortBy (keys preparedData)) st)
      as (new & Hsent & Hall & Hle & Heq).
    rewrite (Permutation_length (sortBy_Permutation (keys preparedData)))
      in Hle, Heq.
    destruct (insertEach schema table preparedData
                (Js.sortBy (keys preparedData)) st) as [[[]|e|] st'];
      cbn [fst snd sent] in *; exists new; repeat split; auto; discriminate.
Qed.

(** X15 at the submission whose second insert the store refuses: both
    inserts have been sent, and both name the table orders. *)
Lemma insertRow_sends_two_inserts :
  exists new,
    sent (snd (insertRow "db" "orders" submission (start orders)))
    = sent (start orders) ++ new
    /\ Forall (fun s => exists rows,
                 s = InsertInto (escapeId "db" +:+ "." +:+ escapeId "orders") rows)
         new
    /\ length new <= length (keys submission)
    /\ (fst (insertRow "db" "orders" submission (start orders)) = Fulfilled tt ->
        length new = length (keys submission)).
Proof.
  exact (proj2 (insertRow_sends_one_insert_per_name Store database validator
                  "db" "orders" submission (start orders))
           submission eq_refl).
Defined.

(** X16: a row prepared for insertion names no column twice; and when the
    validated row names no column twice and [escapeId] keeps its column
    names apart, the prepared row has, in the same order, the escaped name
    and the prepared value of every entry of the validated row. *)
Theorem prepareForInsert_keeps_the_entries :
  forall (Store : Type) (D : Database Store) (validated : SqlRow),
    List.NoDup (map fst (prepareForInsert validated))
    /\ (List.NoDup (map fst validated) ->
        (forall a b, In a (map fst validated) -> In b (map fst validated) ->
           escapeId a = escapeId b -> a = b) ->
        prepareForInsert validated
        = map (fun kv => (escapeId (fst kv), prepareValue (snd kv))) validated).
Proof.
  intros Store D validated. unfold prepareForInsert. split.
  - assert (forall acc : SqlRow,
               List.NoDup (map fst acc) ->
               List.NoDup (map fst
                        (fold_left
                           (fun result '(columnName, v) =>
                              assign (escapeId columnName) (prepareValue v) result)
                           validated acc))) as Hgen.
    { induction validated as [|[k v] rest IH]; intros acc Hacc; [exact Hacc|].
      cbn [fold_left]. apply IH. apply assign_keys. exact Hacc. }
    apply Hgen. apply List.NoDup_nil.
  - intros Hnodup Hinj.
    assert (forall acc : SqlRow,
               (forall k, In k (map fst validated) ->
                  ~ In (escapeId k) (map fst acc)) ->
               fold_left
                 (fun result '(columnName, v) =>
                    assign (escapeId columnName) (prepareValue v) result)
                 validated acc
               = acc ++ map (fun kv => (escapeId (fst kv), prepareValue (snd kv)))
                          validated) as Hgen.
    { induction validated as [|[k v] rest IH]; intros acc Hfresh.
      - cbn. rewrite app_nil_r. reflexivity.
      - cbn [fold_left map fst snd] in *.
        apply List.NoDup_cons_iff in Hnodup as [Hk Hnodup].
        rewrite assign_fresh by (apply Hfresh; left; reflexivity).
        rewrite IH.
        + rewrite <- app_assoc. reflexivity.
        + assumption.
        + intros a b Ha Hb. apply Hinj; right; assumption.
        + intros k' Hk' Hin. rewrite map_app, in_app_iff in Hin.
          destruct Hin as [Hin|[Hin|[]]].
          * apply (Hfresh k'); [right; assumption|assumption].
          * cbn in Hin. apply Hinj in Hin; [|left; reflexivity|right; assumption].
            subst k'. contradiction. }
    apply (Hgen []). intros k _ [].
Qed.

(** X16 at the row of an order, with names escaped by backticks. *)
Lemma prepareForInsert_keeps_the_entries_of_order_row :
  prepareForInsert orderRow
  = map (fun kv => (escapeId (fst kv), prepareValue (snd kv))) orderRow.
Proof.
  apply (proj2 (prepareForInsert_keeps_the_entries Store database orderRow)).
  - cbn. repeat (apply List.NoDup_cons || apply List.NoDup_nil);
      cbn; intuition discriminate.
  - intros a b [<-|[<-|[]]] [<-|[<-|[]]]; cbn; intros E;
      try reflexivity; discriminate E.
Defined.

(** ** The order in which insertRow sends its inserts *)



Section InsertOrder.
Context {Store : Type} `{!Database Store}.


End InsertOrder.



(** ** content *)

Section ContentRows.
Context `{Common} {Store : Type} `{!Database Store} `{!ContentHelper Store}.

(** The rows [content] returns, cell by cell. *)
Lemma content_fulfilled schema table page limit sort (st : state Store) out :
  fst (content schema table page limit sort st) = Fulfilled out ->
  exists rows hs,
    selectFrom (escapeId schema +:+ "." +:+ escapeId table)
      (default 25%Z limit) ((default 1%Z page - 1) * default 25%Z limit)
      (option_map
         (fun sort => (escapeId (Sort.by_ sort),
                       bool_decide (Sort.direction sort = asc))) sort)
      (store st) = Ok rows
    /\ fst (headers schema table st) = Fulfilled hs
    /\ Forall2
         (Forall2
            (fun given returned =>
               fst returned = fst given
               /\ formatCell hs
                    (map TableHeader.name
                       (List.filter
                          (fun h => bool_decide (TableHeader.type h = blob)) hs))
                    (fst given) (snd given) = Ok (snd returned)))
         rows out.
Proof.
  unfold content, bind at 1, ask. cbn [fst snd]. unfold bind at 1.
  destruct (selectFrom _ _ _ _ (store st)) as [rows|e]; [|discriminate].
  cbn [lift ret]. unfold bind.
  destruct (headers schema table st) as [[hs|e|] st'] eqn:Eheaders;
    try discriminate.
  intros Hout. exists rows, hs. split; [reflexivity|]. split; [reflexivity|].
  destruct (mapThrowing _ rows) as [out'|e] eqn:Emap; [|discriminate].
  cbn in Hout. injection Hout as <-.
  apply mapThrowing_Ok in Emap.
  eapply Forall2_impl; [exact Emap|]. cbn. intros row row' Hrow.
  unfold formatRow in Hrow. apply mapThrowing_Ok in Hrow.
  eapply Forall2_impl; [exact Hrow|]. cbn. intros given returned Hcell.
  destruct (formatCell _ _ (fst given) (snd given)) as [v|e]; [|discriminate].
  injection Hcell as <-. split; reflexivity.
Qed.

Lemma formatCell_shown hs blobHeaders (given : string * Cell Date) v :
  formatCell hs blobHeaders (fst given) (snd given) = Ok v ->
  shown blobHeaders given (fst given, v).
Proof.
  unfold formatCell, shown. cbn [fst snd]. split; [reflexivity|].
  destruct (snd given) as [d|bytes|w].
  - destruct (Js.find hs _) as [header|]; [|discriminate].
    destruct (bool_decide (TableHeader.type header = date));
      [left; congruence|].
    destruct (bool_decide (TableHeader.type header = datetime));
      [right; congruence|discriminate].
  - destruct (existsb _ blobHeaders); congruence.
  - destruct (existsb _ blobHeaders); congruence.
Qed.

(** What [content] yields once the rows and the headers are there. *)
Lemma content_outcome schema table page limit sort (st : state Store) rows hs :
  selectFrom (escapeId schema +:+ "." +:+ escapeId table)
    (default 25%Z limit) ((default 1%Z page - 1) * default 25%Z limit)
    (option_map
       (fun sort => (escapeId (Sort.by_ sort),
                     bool_decide (Sort.direction sort = asc))) sort)
    (store st) = Ok rows ->
  fst (headers schema table st) = Fulfilled hs ->
  fst (content schema table page limit sort st)
  = match mapThrowing
            (formatRow hs
               (map TableHeader.name
                  (List.filter
                     (fun h => bool_decide (TableHeader.type h = blob)) hs)))
            rows with
    | Ok out => Fulfilled out
    | Throw e => Rejected e
    end.
Proof.
  intros Hrows Hheaders.
  unfold content, bind at 1, ask. cbn [fst snd]. unfold bind at 1.
  rewrite Hrows. cbn [lift ret]. unfold bind.
  destruct (headers schema table st) as [[hs'|e|] st']; try discriminate.
  cbn [fst] in Hheaders. injection Hheaders as ->.
  destruct (mapThrowing _ rows); reflexivity.
Qed.

End ContentRows.

(** X17: the rows [content] returns are the rows the store gave, with the
    same columns in the same order, in which every date has become the text
    of the date or of the date-time format, every other value under a column
    that has a header of type blob (null too) has become the placeholder
    text, and every other value is unchanged; no [Date] object and no bytes
    of a blob column are returned. *)
Theorem content_formats_dates_and_hides_blobs :
  forall (C : Common) (Store : Type) (D : Database Store)
         (H : ContentHelper Store) (st : state Store) (schema table : string)
         (page limit : option Z) (sort : option Sort.t)
         (out : list (list (string * Cell Date))),
    fst (content schema table page limit sort st) = Fulfilled out ->
    exists rows hs,
      selectFrom (escapeId schema +:+ "." +:+ escapeId table)
        (default 25%Z limit) ((default 1%Z page - 1) * default 25%Z limit)
        (option_map
           (fun sort => (escapeId (Sort.by_ sort),
                         bool_decide (Sort.direction sort = asc))) sort)
        (store st) = Ok rows
      /\ fst (headers schema table st) = Fulfilled hs
      /\ Forall2
           (Forall2
              (shown
                 (map TableHeader.name
                    (List.filter
                       (fun h => bool_decide (TableHeader.type h = blob)) hs))))
           rows out
      /\ Forall
           (Forall
              (fun returned =>
                 (forall d, snd returned <> CDate d)
                 /\ (In (fst returned)
                       (map TableHeader.name
                          (List.filter
                             (fun h => bool_decide (TableHeader.type h = blob)) hs))
                     -> forall bytes, snd returned <> CBytes bytes)))
           out.
Proof.
  intros C Store D H st schema table page limit sort out Hout.
  destruct (content_fulfilled schema table page limit sort st out Hout)
    as (rows & hs & Hrows & Hheaders & Hcells).
  exists rows, hs. split; [exact Hrows|]. split; [exact Hheaders|].
  set (blobHeaders :=
         map TableHeader.name
           (List.filter (fun h => bool_decide (TableHeader.type h = blob)) hs))
    in *.
  assert (Forall2 (Forall2 (shown blobHeaders)) rows out) as Hshown.
  { eapply Forall2_impl; [exact Hcells|]. cbn. intros row row' Hrow.
    eapply Forall2_impl; [exact Hrow|]. cbn. intros given [col v] [Hcol Hcell].
    cbn [fst snd] in *. subst col. exact (formatCell_shown hs blobHeaders given v Hcell). }
  split; [exact Hshown|].
  apply List.Forall_forall. intros row' Hrow'.
  destruct (Forall2_In_right _ _ _ _ Hshown Hrow') as (row & _ & Hrow).
  apply List.Forall_forall. intros returned Hreturned.
  destruct (Forall2_In_right _ _ _ _ Hrow Hreturned) as (given & _ & Hcol & Hcell).
  split.
  - intros d E. destruct (snd given) as [d'|bytes|w].
    + destruct Hcell as [Hcell|Hcell]; congruence.
    + destruct (existsb _ blobHeaders); congruence.
    + destruct (existsb _ blobHeaders); congruence.
  - intros Hblob bytes E. rewrite Hcol in Hblob.
    assert (existsb (String.eqb (fst given)) blobHeaders = true) as Hex.
    { apply existsb_exists. exists (fst given). split; [exact Hblob|].
      apply String.eqb_refl. }
    rewrite Hex in Hcell. destruct (snd given) as [d'|bytes'|w].
    + destruct Hcell as [Hcell|Hcell]; congruence.
    + congruence.
    + congruence.
Qed.

(** X17 at a table with a date, a timestamp and a binary column. *)
Lemma content_of_files :
  exists out rows hs,
    fst (content "db" "files" None None None Archive.start) = Fulfilled out
    /\ selectFrom (escapeId "db" +:+ "." +:+ escapeId "files") 25 ((1 - 1) * 25)
         None (store Archive.start) = Ok rows
    /\ fst (headers "db" "files" Archive.start) = Fulfilled hs
    /\ Forall2
         (Forall2
            (shown
               (map TableHeader.name
                  (List.filter
                     (fun h => bool_decide (TableHeader.type h = blob)) hs))))
         rows out
    /\ Forall
         (Forall
            (fun returned =>
               (forall d, snd returned <> CDate d)
               /\ (In (fst returned)
                     (map TableHeader.name
                        (List.filter
                           (fun h => bool_decide (TableHeader.type h = blob)) hs))
                   -> forall bytes, snd returned <> CBytes bytes)))
         out.
Proof.
  eexists.
  destruct (content_formats_dates_and_hides_blobs common Archive.Store
              Archive.database Archive.contentHelper Archive.start
              "db" "files" None None None _ eq_refl)
    as (rows & hs & Hrows & Hheaders & Hshown & Hnever).
  exists rows, hs. split; [reflexivity|]. repeat split; assumption.
Defined.

(** What makes [formatCell] throw: a date under a column without a header
    of that name, or whose first header of that name is of another type
    than date and datetime. *)
Lemma formatCell_refused `{Common} {Store : Type} `{!ContentHelper Store}
    (hs : list TableHeader) blobHeaders col (v : Cell Date) e :
  formatCell hs blobHeaders col v = Throw e ->
  exists d,
    v = CDate d
    /\ ((Js.find hs (fun h => String.eqb (TableHeader.name h) col) = None
         /\ e = Error ("Could not find header with name " +:+ col))
        \/ (exists header,
              Js.find hs (fun h => String.eqb (TableHeader.name h) col)
              = Some header
              /\ TableHeader.type header <> date
              /\ TableHeader.type header <> datetime
              /\ e = Error ("Header " +:+ TableHeader.name header
                            +:+ " unexpectedly had a Date value in it"))).
Proof.
  unfold formatCell. destruct v as [d|bytes|w].
  - intros E. exists d. split; [reflexivity|].
    destruct (Js.find hs _) as [header|].
    + destruct (bool_decide_reflect (TableHeader.type header = date));
        [discriminate|].
      destruct (bool_decide_reflect (TableHeader.type header = datetime));
        [discriminate|].
      injection E as <-. right. exists header. auto.
    + injection E as <-. left. auto.
  - destruct (existsb _ blobHeaders); discriminate.
  - destruct (existsb _ blobHeaders); discriminate.
Qed.

Lemma formatCell_accepted `{Common} {Store : Type} `{!ContentHelper Store}
    (hs : list TableHeader) blobHeaders (cell : string * Cell Date) v :
  formatCell hs blobHeaders (fst cell) (snd cell) = Ok v ->
  accepted hs cell.
Proof.
  unfold formatCell, accepted. destruct (snd cell) as [d|bytes|w]; [|auto..].
  destruct (Js.find hs _) as [header|]; [|discriminate].
  destruct (bool_decide_reflect (TableHeader.type header = date));
    [eauto|].
  destruct (bool_decide_reflect (TableHeader.type header = datetime));
    [eauto|discriminate].
Qed.

(** X18: when a row the store gave holds a date under a column for which
    [headers] has no header of that name, or whose first header of that name
    is neither of type date nor of type datetime, [content] is rejected, and
    the error is that of the first such cell in the order of the rows and,
    within a row, of the columns: every cell before it is accepted, and the
    error says that no header has the name of its column, or that the first
    header of that name, which it names, unexpectedly had a Date value in
    it. *)
Theorem content_rejects_unexpected_date :
  forall (C : Common) (Store : Type) (D : Database Store)
         (H : ContentHelper Store) (st : state Store) (schema table : string)
         (page limit : option Z) (sort : option Sort.t)
         (rows : list (list (string * Cell Date))) (hs : list TableHeader)
         (row : list (string * Cell Date)) (col : string) (d : Date),
    selectFrom (escapeId schema +:+ "." +:+ escapeId table)
      (default 25%Z limit) ((default 1%Z page - 1) * default 25%Z limit)
      (option_map
         (fun sort => (escapeId (Sort.by_ sort),
                       bool_decide (Sort.direction sort = asc))) sort)
      (store st) = Ok rows ->
    fst (headers schema table st) = Fulfilled hs ->
    In row rows ->
    In (col, CDate d) row ->
    match Js.find hs (fun h => String.eqb (TableHeader.name h) col) with
    | None => True
    | Some header =>
        TableHeader.type header <> date /\ TableHeader.type header <> datetime
    end ->
    exists rowsBefore cellsBefore refused d' cellsAfter rowsAfter e,
      rows = rowsBefore
             ++ (cellsBefore ++ (refused, CDate d') :: cellsAfter)
             :: rowsAfter
      /\ Forall (Forall (accepted hs)) rowsBefore
      /\ Forall (accepted hs) cellsBefore
      /\ fst (content schema table page limit sort st) = Rejected e
      /\ ((Js.find hs (fun h => String.eqb (TableHeader.name h) refused) = None
           /\ e = Error ("Could not find header with name " +:+ refused))
          \/ (exists header,
                Js.find hs (fun h => String.eqb (TableHeader.name h) refused)
                = Some header
                /\ TableHeader.type header <> date
                /\ TableHeader.type header <> datetime
                /\ e = Error ("Header " +:+ TableHeader.name header
                              +:+ " unexpectedly had a Date value in it"))).
Proof.
  intros C Store D H st schema table page limit sort rows hs row col d
    Hrows Hheaders Hrow Hcol Hheader.
  rewrite (content_outcome schema table page limit sort st rows hs Hrows Hheaders).
  set (blobHeaders :=
         map TableHeader.name
           (List.filter (fun h => bool_decide (TableHeader.type h = blob)) hs)).
  destruct (mapThrowing (formatRow hs blobHeaders) rows) as [out|e] eqn:Emap.
  - exfalso. apply mapThrowing_Ok in Emap.
    assert (exists row', formatRow hs blobHeaders row = Ok row') as [row' Hrow'].
    { clear -Emap Hrow.
      induction Emap as [|r r' l l' Hr _ IH]; [contradiction|].
      destruct Hrow as [<-|Hrow]; [eauto|auto]. }
    unfold formatRow in Hrow'. apply mapThrowing_Ok in Hrow'.
    assert (exists returned,
               formatCell hs blobHeaders col (CDate d) = Ok returned)
      as [returned Hreturned].
    { clear -Hrow' Hcol.
      induction Hrow' as [|g r l l' Hg _ IH]; [contradiction|].
      destruct Hcol as [->|Hcol]; [|auto]. cbn [fst snd] in Hg.
      destruct (formatCell hs blobHeaders col (CDate d)); [eauto|discriminate]. }
    unfold formatCell in Hreturned.
    destruct (Js.find hs _) as [header|]; [|discriminate].
    destruct Hheader as [Hdate Hdatetime].
    rewrite bool_decide_eq_false_2 in Hreturned by assumption.
    rewrite bool_decide_eq_false_2 in Hreturned by assumption.
    discriminate.
  - apply mapThrowing_Throw in Emap
      as (rowsBefore & bad & rowsAfter & outBefore & -> & HrowsBefore & Hbad).
    unfold formatRow in Hbad. apply mapThrowing_Throw in Hbad
      as (cellsBefore & [refused v] & cellsAfter & shownBefore & -> & HcellsBefore
          & Hcell).
    cbn [fst snd] in Hcell.
    destruct (formatCell hs blobHeaders refused v) as [w|e'] eqn:Ecell;
      [discriminate|].
    injection Hcell as ->.
    destruct (formatCell_refused hs blobHeaders refused v e Ecell)
      as (d' & -> & Hrefused).
    exists rowsBefore, cellsBefore, refused, d', cellsAfter, rowsAfter, e.
    split; [reflexivity|]. split; [|split; [|split; [reflexivity|exact Hrefused]]].
    + apply List.Forall_forall. intros r Hr.
      assert (exists r', formatRow hs blobHeaders r = Ok r') as [r' Hr'].
      { clear -HrowsBefore Hr.
        induction HrowsBefore as [|a b l l' Hab _ IH]; [contradiction|].
        destruct Hr as [<-|Hr]; [eauto|auto]. }
      unfold formatRow in Hr'. apply mapThrowing_Ok in Hr'.
      apply List.Forall_forall. intros cell Hin.
      assert (exists w, formatCell hs blobHeaders (fst cell) (snd cell) = Ok w)
        as [w Hw].
      { clear -Hr' Hin.
        induction Hr' as [|a b l l' Hab _ IH]; [contradiction|].
        destruct Hin as [<-|Hin]; [|auto].
        destruct (formatCell hs blobHeaders (fst a) (snd a)); [eauto|discriminate]. }
      exact (formatCell_accepted hs blobHeaders cell w Hw).
    + apply List.Forall_forall. intros cell Hin.
      assert (exists w, formatCell hs blobHeaders (fst cell) (snd cell) = Ok w)
        as [w Hw].
      { clear -HcellsBefore Hin.
        induction HcellsBefore as [|a b l l' Hab _ IH]; [contradiction|].
        destruct Hin as [<-|Hin]; [|auto].
        destruct (formatCell hs blobHeaders (fst a) (snd a)); [eauto|discriminate]. }
      exact (formatCell_accepted hs blobHeaders cell w Hw).
Qed.

(** X18 at a catalog that declares as text a column whose values are
    dates. *)
Lemma content_of_mislabeled_files_is_rejected :
  exists hs rowsBefore cellsBefore refused d' cellsAfter rowsAfter e,
    fst (headers "db" "files" {| store := Archive.mislabeled; sent := [] |})
    = Fulfilled hs
    /\ Archive.rowsOf Archive.mislabeled
       = [("`db`.`files`",
           rowsBefore
           ++ (cellsBefore ++ (refused, CDate d') :: cellsAfter)
           :: rowsAfter)]
    /\ Forall (Forall (accepted hs)) rowsBefore
    /\ Forall (accepted hs) cellsBefore
    /\ fst (content "db" "files" None None None
             {| store := Archive.mislabeled; sent := [] |}) = Rejected e
    /\ ((Js.find hs (fun h => String.eqb (TableHeader.name h) refused) = None
         /\ e = Error ("Could not find header with name " +:+ refused))
        \/ (exists header,
              Js.find hs (fun h => String.eqb (TableHeader.name h) refused)
              = Some header
              /\ TableHeader.type header <> date
              /\ TableHeader.type header <> datetime
              /\ e = Error ("Header " +:+ TableHeader.name header
                            +:+ " unexpectedly had a Date value in it"))).
Proof.
  eexists.
  assert (In (A := string * Cell Z) ("seen", CDate 7%Z)
            [("id", CValue (VNumber (Literal 1))); ("day", CDate 0%Z);
             ("seen", CDate 7%Z); ("body", CBytes "0101")]) as Hcol
    by (right; right; left; reflexivity).
  destruct (content_rejects_unexpected_date common Archive.Store
              Archive.database Archive.contentHelper
              {| store := Archive.mislabeled; sent := [] |}
              "db" "files" None None None _ _ _ "seen" 7%Z
              eq_refl eq_refl (or_introl eq_refl) Hcol
              ltac:(cbn; split; discriminate))
    as (rowsBefore & cellsBefore & refused & d' & cellsAfter & rowsAfter & e
        & Hsplit & HrowsBefore & HcellsBefore & Hrejected & Herror).
  exists rowsBefore, cellsBefore, refused, d', cellsAfter, rowsAfter, e.
  split; [reflexivity|]. split; [|repeat split; assumption].
  cbn. f_equal. f_equal. exact Hsplit.
Defined.

(** ** The default schema *)

Lemma leb_refl (s : string) : String.leb s s = true.
Proof. unfold String.leb. rewrite string_compare_refl. reflexivity. Qed.

Lemma filter_length_Permutation {A} (p : A -> bool) (l l' : list A) :
  Permutation l l' -> length (List.filter p l) = length (List.filter p l').
Proof.
  induction 1 as [|x l l' _ IH|x y l|l l' l'' _ IH1 _ IH2]; cbn [List.filter].
  - reflexivity.
  - destruct (p x); cbn [length]; congruence.
  - destruct (p x), (p y); reflexivity.
  - congruence.
Qed.

Lemma existsb_eqb_In (x : string) (l : list string) :
  existsb (String.eqb x) l = true <-> In x l.
Proof.
  rewrite existsb_exists. split.
  - intros (y & Hy & E). apply String.eqb_eq in E. congruence.
  - intros Hx. exists x. split; [exact Hx|apply String.eqb_refl].
Qed.

(** X19: what [determineDefaultSchema] can yield.  It throws, a
    [TypeError], exactly when the URL tree has no child for the primary
    outlet, as at the URL of the root, or no schema is given.  A schema it
    returns is one of the schemas given.  It returns [undefined] only when
    all that is given is a single schema whose lower case is
    information_schema (so that this schema is not chosen even though it is
    the only one). *)
Theorem determineDefaultSchema_outcomes :
  forall (toLocaleLowerCase : string -> string) (urlTree : UrlTree.t)
         (all : list string),
    match determineDefaultSchema toLocaleLowerCase urlTree all with
    | Ok (Some schema) =>
        primaryChild urlTree <> None /\ In schema all
    | Ok None =>
        primaryChild urlTree <> None
        /\ exists only,
             all = [only] /\ toLocaleLowerCase only = "information_schema"
    | Throw e =>
        (primaryChild urlTree = None \/ all = [])
        /\ exists message, e = TypeError message
    end
    /\ (primaryChild urlTree = None \/ all = [] ->
        exists message,
          determineDefaultSchema toLocaleLowerCase urlTree all
          = Throw (TypeError message)).
Proof.
  intros lower urlTree all. unfold determineDefaultSchema.
  destruct (primaryChild urlTree) as [group|].
  2:{ split; [split; [left; reflexivity|eauto]|]. intros _. eauto. }
  set (segments := map UrlSegment.path (UrlSegmentGroup.segments group)).
  assert (match Js.sortBy all with
          | [] =>
              all = []
          | first :: _ =>
              all <> []
              /\ match
                   (if String.eqb (lower first) "information_schema"
                       && Nat.ltb 0 (length (Js.sortBy all))
                    then Ok (nth_error (Js.sortBy all) 1)
                    else Ok (Some first))
                 with
                 | Ok (Some schema) => In schema all
                 | Ok None =>
                     exists only,
                       all = [only] /\ lower only = "information_schema"
                 | Throw e => False
                 end
          end) as Hsorted.
  { pose proof (sortBy_Permutation all) as Hperm.
    destruct (Js.sortBy all) as [|first rest].
    - apply Permutation_nil. exact Hperm.
    - split.
      { intros ->. apply Permutation_sym, Permutation_nil in Hperm.
        discriminate. }
      destruct (String.eqb (lower first) "information_schema") eqn:Elower;
        cbn [andb length Nat.ltb Nat.leb].
      + destruct rest as [|second rest]; cbn [nth_error].
        * exists first. split; [|apply String.eqb_eq; exact Elower].
          apply Permutation_length_1_inv. exact Hperm.
        * apply (Permutation_in _ Hperm). right. left. reflexivity.
      + apply (Permutation_in _ Hperm). left. reflexivity. }
  assert (match
            match Js.sortBy all with
            | [] =>
                Throw (TypeError
                         "Cannot read property 'toLocaleLowerCase' of undefined")
            | first :: _ =>
                if String.eqb (lower first) "information_schema"
                   && Nat.ltb 0 (length (Js.sortBy all))
                then Ok (nth_error (Js.sortBy all) 1)
                else Ok (Some first)
            end
          with
          | Ok (Some schema) => Some group <> None /\ In schema all
          | Ok None =>
              Some group <> None
              /\ exists only, all = [only] /\ lower only = "information_schema"
          | Throw e =>
              (Some group = None \/ all = [])
              /\ exists message, e = TypeError message
          end
          /\ (all = [] ->
              exists message,
                match Js.sortBy all with
                | [] =>
                    Throw (TypeError
                             "Cannot read property 'toLocaleLowerCase' of undefined")
                | first :: _ =>
                    if String.eqb (lower first) "information_schema"
                       && Nat.ltb 0 (length (Js.sortBy all))
                    then Ok (nth_error (Js.sortBy all) 1)
                    else Ok (Some first)
                end = Throw (TypeError message))) as Hrest.
  { destruct (Js.sortBy all) as [|first rest].
    - split; [split; [right; exact Hsorted|eauto]|eauto].
    - destruct Hsorted as [Hnonempty Hsorted]. split; [|contradiction].
      destruct (_ && _); [|split; [discriminate|exact Hsorted]].
      destruct (nth_error _ 1); (split; [discriminate|exact Hsorted]). }
  assert (Some group = None \/ all = [] -> all = []) as Hempty
    by (intros [E|E]; [discriminate|exact E]).
  destruct segments as [|first [|loadedSchema rest]].
  1, 2: split; [exact (proj1 Hrest)|intros E; exact (proj2 Hrest (Hempty E))].
  destruct ((String.eqb first "tables" || String.eqb first "forms")
            && existsb (String.eqb loadedSchema) all) eqn:Eindicated.
  - apply andb_true_iff in Eindicated as [_ Hin].
    apply existsb_eqb_In in Hin. split; [split; [discriminate|exact Hin]|].
    intros E. rewrite (Hempty E) in Hin. contradiction.
  - split; [exact (proj1 Hrest)|].
    intros E. exact (proj2 Hrest (Hempty E)).
Qed.

(** X20: when the URL has segments in its primary outlet that indicate no
    schema among those given, at most one of the schemas given has
    information_schema as its lower case and one at least has not, the
    schema [determineDefaultSchema] returns is the first in ascending order
    of those whose lower case is not information_schema. *)
Theorem determineDefaultSchema_first_but_information_schema :
  forall (toLocaleLowerCase : string -> string) (urlTree : UrlTree.t)
         (group : UrlSegmentGroup.t) (all : list string) (other : string),
    primaryChild urlTree = Some group ->
    (forall first loadedSchema rest,
        map UrlSegment.path (UrlSegmentGroup.segments group)
        = first :: loadedSchema :: rest ->
        first = "tables" \/ first = "forms" ->
        ~ In loadedSchema all) ->
    length
      (List.filter
         (fun s => String.eqb (toLocaleLowerCase s) "information_schema") all)
    <= 1 ->
    In other all ->
    toLocaleLowerCase other <> "information_schema" ->
    exists schema,
      determineDefaultSchema toLocaleLowerCase urlTree all = Ok (Some schema)
      /\ In schema all
      /\ toLocaleLowerCase schema <> "information_schema"
      /\ forall s,
           In s all ->
           toLocaleLowerCase s <> "information_schema" ->
           String.leb schema s = true.
Proof.
  intros lower urlTree group all other Hprimary Hurl Hone Hother Hlower.
  unfold determineDefaultSchema. rewrite Hprimary.
  assert (match map UrlSegment.path (UrlSegmentGroup.segments group) with
          | first :: loadedSchema :: _ =>
              if (String.eqb first "tables" || String.eqb first "forms")
                 && existsb (String.eqb loadedSchema) all
              then Some loadedSchema
              else None
          | _ => None
          end = None) as Hnone.
  { destruct (map UrlSegment.path (UrlSegmentGroup.segments group))
      as [|first [|loadedSchema rest]]; try reflexivity.
    destruct (String.eqb first "tables" || String.eqb first "forms") eqn:Efirst;
      [|reflexivity].
    destruct (existsb (String.eqb loadedSchema) all) eqn:Ein; [|reflexivity].
    exfalso. apply (Hurl first loadedSchema rest eq_refl).
    - apply orb_true_iff in Efirst as [E|E]; apply String.eqb_eq in E; auto.
    - apply existsb_eqb_In. exact Ein. }
  cbv zeta. rewrite Hnone. clear Hnone.
  pose proof (sortBy_Permutation all) as Hperm.
  pose proof (sortBy_sorted all) as Hsorted.
  rewrite (filter_length_Permutation _ _ _ (Permutation_sym Hperm)) in Hone.
  assert (forall s, In s all <-> In s (Js.sortBy all)) as Hin.
  { intros s. split; apply Permutation_in;
      [apply Permutation_sym|]; exact Hperm. }
  apply Hin in Hother. setoid_rewrite Hin. clear Hin Hperm Hurl.
  destruct (Js.sortBy all) as [|first rest]; [contradiction|].
  apply StronglySorted_inv in Hsorted as [Hrest Hfirst].
  rewrite List.Forall_forall in Hfirst.
  cbn [List.filter] in Hone.
  destruct (String.eqb (lower first) "information_schema") eqn:Efirst;
    cbn [andb length Nat.ltb Nat.leb].
  - apply String.eqb_eq in Efirst.
    destruct Hother as [->|Hother]; [contradiction|].
    cbn [length] in Hone.
    assert (List.filter
              (fun s => String.eqb (lower s) "information_schema") rest = [])
      as Hnone.
    { destruct (List.filter _ rest); [reflexivity|cbn [length] in Hone; lia]. }
    assert (forall s, In s rest -> lower s <> "information_schema") as Hrest'.
    { intros s Hs E. apply String.eqb_eq in E.
      assert (In s (List.filter
                      (fun s => String.eqb (lower s) "information_schema") rest))
        as Habsurd by (apply filter_In; auto).
      rewrite Hnone in Habsurd. exact Habsurd. }
    destruct rest as [|second rest]; [contradiction|]. cbn [nth_error].
    exists second. split; [reflexivity|].
    split; [right; left; reflexivity|].
    split; [apply Hrest'; left; reflexivity|].
    intros s [->|[->|Hs]] Hs'.
    + contradiction.
    + apply leb_refl.
    + apply StronglySorted_inv in Hrest as [_ Hsecond].
      rewrite List.Forall_forall in Hsecond. apply Hsecond. exact Hs.
  - exists first. split; [reflexivity|]. split; [left; reflexivity|].
    split; [intros E; rewrite E in Efirst; discriminate|].
    intros s [->|Hs] _; [apply leb_refl|apply Hfirst; exact Hs].
Qed.

(** X20 where the URL indicates a schema that is not among those given. *)
Lemma determineDefaultSchema_skips_information_schema :
  exists schema,
    determineDefaultSchema asciiLowerCase (urlOf ["tables"; "gone"])
      ["zeta"; "information_schema"; "alpha"] = Ok (Some schema)
    /\ In schema ["zeta"; "information_schema"; "alpha"]
    /\ asciiLowerCase schema <> "information_schema"
    /\ forall s,
         In s ["zeta"; "information_schema"; "alpha"] ->
         asciiLowerCase s <> "information_schema" ->
         String.leb schema s = true.
Proof.
  apply (determineDefaultSchema_first_but_information_schema asciiLowerCase
           (urlOf ["tables"; "gone"])
           (UrlSegmentGroup.mk (map UrlSegment.mk ["tables"; "gone"]))
           ["zeta"; "information_schema"; "alpha"] "zeta").
  - reflexivity.
  - intros first loadedSchema rest E _. injection E as <- <- <-.
    intros [E|[E|[E|[]]]]; discriminate.
  - vm_compute. lia.
  - left. reflexivity.
  - discriminate.
Defined.

(** At the URL of the root, whatever the schemas. *)
Example determineDefaultSchema_at_root (all : list string) :
  determineDefaultSchema asciiLowerCase rootUrl all
  = Throw (TypeError "Cannot read property 'segments' of undefined").
Proof. reflexivity. Qed.

(** ** Table names grouped by tier *)

Lemma orderBy_insert_Permutation {A} (key : A -> Z) (x : A) (l : list A) :
  Permutation (Sql.orderBy_insert key x l) (x :: l).
Proof.
  induction l as [|y l IH]; cbn [Sql.orderBy_insert]; [reflexivity|].
  destruct (key x <? key y)%Z; [reflexivity|].
  rewrite IH. apply perm_swap.
Qed.

Lemma orderBy_Permutation {A} (key : A -> Z) (l : list A) :
  Permutation (Sql.orderBy key l) l.
Proof.
  unfold Sql.orderBy. rewrite (Permutation_rev l) at 2.
  induction (rev l) as [|x l' IH]; cbn [fold_right]; [reflexivity|].
  rewrite orderBy_insert_Permutation, IH. reflexivity.
Qed.

(** An ascending list without two equal keys is strictly ascending. *)
Lemma StronglySorted_strict {A} (key : A -> Z) (l : list A) :
  StronglySorted (fun a b => (key a <= key b)%Z) l ->
  List.NoDup (map key l) ->
  StronglySorted (fun a b => (key a < key b)%Z) l.
Proof.
  induction 1 as [|x l Hl IH Hx]; intros Hnodup; [constructor|].
  cbn [map] in Hnodup. apply List.NoDup_cons_iff in Hnodup as [Hfresh Hnodup].
  constructor; [auto|].
  rewrite List.Forall_forall in *. intros y Hy.
  assert (key x <> key y) by (intros E; apply Hfresh; rewrite E; apply in_map; exact Hy).
  specialize (Hx y Hy). lia.
Qed.

(** Two strictly ascending lists with the same elements are equal. *)
Lemma StronglySorted_unique {A} (key : A -> Z) (l1 l2 : list A) :
  StronglySorted (fun a b => (key a < key b)%Z) l1 ->
  StronglySorted (fun a b => (key a < key b)%Z) l2 ->
  (forall x, In x l1 <-> In x l2) ->
  l1 = l2.
Proof.
  intros H1. revert l2. induction H1 as [|a r1 Hr1 IH Ha]; intros l2 H2 Hsame.
  - destruct l2 as [|b r2]; [reflexivity|].
    exfalso. apply (Hsame b). left. reflexivity.
  - destruct l2 as [|b r2]; [exfalso; apply (Hsame a); left; reflexivity|].
    apply StronglySorted_inv in H2 as [Hr2 Hb].
    rewrite List.Forall_forall in Ha, Hb.
    assert (a = b) as <-.
    { destruct (proj1 (Hsame a) (or_introl eq_refl)) as [E|Ha2]; [auto|].
      destruct (proj2 (Hsame b) (or_introl eq_refl)) as [E|Hb1]; [auto|].
      specialize (Ha b Hb1). specialize (Hb a Ha2). lia. }
    f_equal. apply IH; [exact Hr2|].
    intros x. split; intros Hx.
    + destruct (proj1 (Hsame x) (or_intror Hx)) as [E|Hx2]; [|exact Hx2].
      subst x. specialize (Ha a Hx). lia.
    + destruct (proj2 (Hsame x) (or_intror Hx)) as [E|Hx1]; [|exact Hx1].
      subst x. specialize (Hb a Hx). lia.
Qed.

Lemma StronglySorted_filter {A} (R : A -> A -> Prop) (p : A -> bool) (l : list A) :
  StronglySorted R l -> StronglySorted R (List.filter p l).
Proof.
  induction 1 as [|x l Hl IH Hx]; cbn [List.filter]; [constructor|].
  destruct (p x); [|exact IH]. constructor; [exact IH|].
  rewrite List.Forall_forall in *. intros y Hy. apply Hx.
  apply filter_In in Hy as [Hy _]. exact Hy.
Qed.

Lemma indexOf_lower (array : list string) (x : string) :
  (-1 <= indexOf array x)%Z.
Proof.
  induction array as [|y rest IH]; cbn [indexOf]; [lia|].
  destruct (String.eqb y x); [lia|].
  destruct (indexOf rest x <? 0)%Z; lia.
Qed.

Lemma indexOf_In (array : list string) (x : string) :
  (indexOf array x <? 0)%Z = false <-> In x array.
Proof.
  induction array as [|y rest IH]; cbn [indexOf In].
  - split; [discriminate|contradiction].
  - destruct (String.eqb y x) eqn:Eyx.
    + apply String.eqb_eq in Eyx. split; [auto|reflexivity].
    + apply String.eqb_neq in Eyx.
      pose proof (indexOf_lower rest x) as Hlower.
      destruct (indexOf rest x <? 0)%Z eqn:Erest.
      * split; [discriminate|]. intros [E|Hx]; [contradiction|].
        apply IH in Hx. discriminate.
      * split; [|intros _; apply Z.ltb_ge; apply Z.ltb_ge in Erest; lia].
        intros _. right. apply IH. reflexivity.
Qed.

Section GroupBy.
Context {A : Type} (iteratee : A -> string).

Lemma groupBy_push_keys key (value : A) object :
  map fst (Lodash.groupBy_push key value object)
  = if existsb (fun k => String.eqb k key) (map fst object)
    then map fst object
    else map fst object ++ [key].
Proof.
  induction object as [|[k values] rest IH];
    cbn [Lodash.groupBy_push map fst existsb app]; [reflexivity|].
  destruct (String.eqb k key); cbn [orb map fst]; [reflexivity|].
  rewrite IH. destruct (existsb _ (map fst rest)); reflexivity.
Qed.

Lemma groupBy_push_In key (value : A) object k values :
  List.NoDup (map fst object) ->
  In (k, values) (Lodash.groupBy_push key value object) ->
  (k <> key /\ In (k, values) object)
  \/ (k = key
      /\ ((exists before, In (key, before) object /\ values = before ++ [value])
          \/ (~ In key (map fst object) /\ values = [value]))).
Proof.
  induction object as [|[k0 values0] rest IH];
    cbn [Lodash.groupBy_push map fst]; intros Hnodup Hin.
  - destruct Hin as [E|[]]. injection E as <- <-. right. auto.
  - apply List.NoDup_cons_iff in Hnodup as [Hfresh Hnodup].
    destruct (String.eqb k0 key) eqn:Ek0.
    + apply String.eqb_eq in Ek0. subst k0.
      destruct Hin as [E|Hin].
      * injection E as <- <-. right. split; [reflexivity|]. left.
        exists values0. split; [left; reflexivity|reflexivity].
      * left. split; [|right; exact Hin].
        intros ->. apply Hfresh. apply (in_map fst) in Hin. exact Hin.
    + apply String.eqb_neq in Ek0.
      destruct Hin as [E|Hin].
      * injection E as <- <-. left. split; [exact Ek0|left; reflexivity].
      * destruct (IH Hnodup Hin)
          as [[Hk Hold]|[Hk [(before & Hbefore & E)|[Hnew E]]]].
        -- left. split; [exact Hk|right; exact Hold].
        -- right. split; [exact Hk|]. left. exists before.
           split; [right; exact Hbefore|exact E].
        -- right. split; [exact Hk|]. right. split; [|exact E].
           intros [E'|Hin']; [congruence|contradiction].
Qed.

Lemma existsb_key (key : string) (keys : list string) :
  existsb (fun k => String.eqb k key) keys = true <-> In key keys.
Proof.
  rewrite existsb_exists. split.
  - intros (k & Hk & E). apply String.eqb_eq in E. congruence.
  - intros Hkey. exists key. split; [exact Hkey|apply String.eqb_refl].
Qed.

Lemma grouped_push seen object x :
  grouped iteratee seen object ->
  grouped iteratee (seen ++ [x]) (Lodash.groupBy_push (iteratee x) x object).
Proof.
  intros (Hnodup & Hentries & Hkeys). split; [|split].
  - rewrite groupBy_push_keys.
    destruct (existsb _ (map fst object)) eqn:Eold; [exact Hnodup|].
    apply List.NoDup_app; [exact Hnodup| |].
    + apply List.NoDup_cons; [intros []|apply List.NoDup_nil].
    + intros k Hk [<-|[]]. apply existsb_key in Hk. congruence.
  - intros k values Hin. rewrite List.filter_app. cbn [List.filter].
    destruct (groupBy_push_In _ _ _ _ _ Hnodup Hin)
      as [[Hk Hold]|[-> [(before & Hbefore & ->)|[Hnew ->]]]].
    + destruct (Hentries k values Hold) as [Hnonempty ->].
      split; [exact Hnonempty|].
      rewrite (proj2 (String.eqb_neq _ _)) by congruence.
      rewrite app_nil_r. reflexivity.
    + destruct (Hentries _ _ Hbefore) as [_ ->].
      rewrite String.eqb_refl. split; [|reflexivity].
      intros E. apply app_eq_nil in E as [_ E]. discriminate.
    + rewrite String.eqb_refl. split; [discriminate|].
      assert (List.filter (fun y => String.eqb (iteratee y) (iteratee x)) seen = [])
        as ->; [|reflexivity].
      destruct (List.filter _ seen) as [|y others] eqn:Efilter; [reflexivity|].
      exfalso. apply Hnew.
      assert (In y (List.filter
                      (fun y => String.eqb (iteratee y) (iteratee x)) seen))
        as Hy by (rewrite Efilter; left; reflexivity).
      apply filter_In in Hy as [Hy E]. apply String.eqb_eq in E.
      rewrite <- E. apply Hkeys. exact Hy.
  - intros y Hy. rewrite groupBy_push_keys.
    apply in_app_or in Hy as [Hy|[<-|[]]].
    + destruct (existsb _ (map fst object)); [auto|].
      apply in_or_app. left. auto.
    + destruct (existsb _ (map fst object)) eqn:Eold.
      * apply existsb_key. exact Eold.
      * apply in_or_app. right. left. reflexivity.
Qed.

Lemma groupBy_grouped (collection : list A) :
  grouped iteratee collection (Lodash.groupBy collection iteratee).
Proof.
  unfold Lodash.groupBy.
  assert (forall rest seen object,
             grouped iteratee seen object ->
             grouped iteratee (seen ++ rest)
               (fold_left
                  (fun object value =>
                     Lodash.groupBy_push (iteratee value) value object)
                  rest object)) as Hfold.
  { induction rest as [|x rest IH]; intros seen object Hgrouped;
      cbn [fold_left].
    - rewrite app_nil_r. exact Hgrouped.
    - replace (seen ++ x :: rest) with ((seen ++ [x]) ++ rest)
        by (rewrite <- app_assoc; reflexivity).
      apply IH. apply grouped_push. exact Hgrouped. }
  apply (Hfold collection [] []).
  split; [apply List.NoDup_nil|]. split; intros; contradiction.
Qed.

End GroupBy.

Lemma NoDup_map_injective {A B} (f : A -> B) (l : list A) :
  (forall x y, In x l -> In y l -> f x = f y -> x = y) ->
  List.NoDup l -> List.NoDup (map f l).
Proof.
  intros Hinj. induction 1 as [|x l Hfresh Hl IH]; cbn [map];
    [apply List.NoDup_nil|].
  apply List.NoDup_cons.
  - intros Hx. apply in_map_iff in Hx as (y & E & Hy). apply Hfresh.
    rewrite <- (Hinj y x); [exact Hy|right; exact Hy|left; reflexivity|exact E].
  - apply IH. intros a b Ha Hb. apply Hinj; right; assumption.
Qed.

Lemma indexOf_injective (array : list string) (a b : string) :
  In a array -> indexOf array a = indexOf array b -> a = b.
Proof.
  induction array as [|y rest IH]; [contradiction|].
  cbn [indexOf]. intros Ha.
  pose proof (indexOf_lower rest a) as Hlower_a.
  pose proof (indexOf_lower rest b) as Hlower_b.
  destruct (String.eqb y a) eqn:Eya, (String.eqb y b) eqn:Eyb.
  - apply String.eqb_eq in Eya, Eyb. congruence.
  - destruct (indexOf rest b <? 0)%Z eqn:Eb; [lia|].
    apply Z.ltb_ge in Eb. lia.
  - destruct (indexOf rest a <? 0)%Z eqn:Ea; [lia|].
    apply Z.ltb_ge in Ea. lia.
  - apply String.eqb_neq in Eya.
    destruct Ha as [E|Ha]; [contradiction|].
    pose proof (proj2 (indexOf_In rest a) Ha) as Ea. rewrite Ea.
    destruct (indexOf rest b <? 0)%Z eqn:Eb.
    + apply Z.ltb_ge in Ea. lia.
    + intros E. apply IH; [exact Ha|lia].
Qed.

Lemma StronglySorted_map {A B} (R : B -> B -> Prop) (g : A -> B) (l : list A) :
  StronglySorted (fun a b => R (g a) (g b)) l -> StronglySorted R (map g l).
Proof.
  induction 1 as [|x l Hl IH Hx]; cbn [map]; constructor; [exact IH|].
  apply List.Forall_forall. intros y Hy.
  apply in_map_iff in Hy as (z & <- & Hz).
  rewrite List.Forall_forall in Hx. auto.
Qed.

Section LodashSortBy.
Context {A : Type} (iteratee : A -> result Z).

(** When the iteratee throws on no element: the elements in ascending order
    of the numbers it yields. *)
Lemma sortBy_Ok (key : A -> Z) (collection : list A) :
  (forall x, In x collection -> iteratee x = Ok (key x)) ->
  exists sorted,
    Lodash.sortBy collection iteratee = Ok sorted
    /\ Permutation sorted collection
    /\ StronglySorted (fun a b => (key a <= key b)%Z) sorted.
Proof.
  intros Hkey. unfold Lodash.sortBy.
  assert (mapThrowing
            (fun value =>
               match iteratee value with
               | Ok criteria => Ok (criteria, value)
               | Throw e => Throw e
               end) collection
          = Ok (map (fun x => (key x, x)) collection)) as ->.
  { induction collection as [|x rest IH]; cbn [mapThrowing map]; [reflexivity|].
    rewrite (Hkey x) by (left; reflexivity).
    rewrite IH by (intros y Hy; apply Hkey; right; exact Hy). reflexivity. }
  eexists. split; [reflexivity|]. split.
  - rewrite (orderBy_Permutation fst). rewrite map_map. cbn [snd].
    rewrite map_id. reflexivity.
  - apply StronglySorted_map.
    assert (forall p,
               In p (Sql.orderBy fst (map (fun x => (key x, x)) collection)) ->
               fst p = key (snd p)) as Hfst.
    { intros p Hp. apply orderBy_In in Hp.
      apply in_map_iff in Hp as (x & <- & _). reflexivity. }
    pose proof (orderBy_sorted (A := Z * A) fst
                  (map (fun x => (key x, x)) collection)) as Hsorted.
    induction Hsorted as [|p l Hl IH Hp]; constructor.
    + apply IH. intros q Hq. apply Hfst. right. exact Hq.
    + rewrite List.Forall_forall in *. intros q Hq.
      rewrite <- (Hfst p) by (left; reflexivity).
      rewrite <- (Hfst q) by (right; exact Hq). auto.
Qed.

(** When the iteratee throws on some element: what it throws on one of
    them. *)
Lemma sortBy_Throw (collection : list A) (x : A) (e : exn) :
  In x collection ->
  iteratee x = Throw e ->
  exists y e',
    In y collection
    /\ iteratee y = Throw e'
    /\ Lodash.sortBy collection iteratee = Throw e'.
Proof.
  intros Hx Ex. unfold Lodash.sortBy.
  destruct (mapThrowing _ collection) as [keyed|e'] eqn:Emap.
  - exfalso. apply mapThrowing_Ok in Emap.
    clear -Emap Hx Ex. induction Emap as [|a b l l' Hab _ IH]; [contradiction|].
    destruct Hx as [->|Hx]; [|auto]. rewrite Ex in Hab. discriminate.
  - apply mapThrowing_Throw in Emap as (before & y & after & _ & -> & _ & Ey).
    exists y, e'. split; [apply in_or_app; right; left; reflexivity|].
    split; [|reflexivity].
    destruct (iteratee y); [discriminate|congruence].
Qed.

End LodashSortBy.

Section SidebarGroups.
Context `{Common}.
Variable tier : TableName -> string.
Variable ownKeys : forall A : Type, list (string * A) -> list (string * A).
Hypothesis ownKeys_Permutation :
  forall (A : Type) (object : list (string * A)),
    Permutation (ownKeys A object) object.

(** The groups before they are sorted: one for every tier that occurs,
    with the names of that tier in their order. *)
Lemma groups_grouped (names : list TableName) :
  grouped tier names (ownKeys _ (Lodash.groupBy names tier)).
Proof.
  destruct (groupBy_grouped tier names) as (Hnodup & Hentries & Hkeys).
  pose proof (ownKeys_Permutation _ (Lodash.groupBy names tier)) as Hperm.
  split; [|split].
  - apply (Permutation_NoDup (l := map fst (Lodash.groupBy names tier)));
      [|exact Hnodup].
    apply Permutation_map. apply Permutation_sym. exact Hperm.
  - intros k values Hin. apply Hentries.
    apply (Permutation_in _ Hperm). exact Hin.
  - intros n Hn.
    apply (Permutation_in _ (Permutation_map fst (Permutation_sym Hperm))).
    apply Hkeys. exact Hn.
Qed.

(** X21: when the tier of every name is in [TIER_ORDER], the groups are
    returned, and they are: for every tier of [TIER_ORDER] that is the tier
    of some name, in the order of [TIER_ORDER], the group of that tier,
    which holds the names of that tier in the order in which they came.  No
    group is empty, no tier has two groups and no name is lost, whatever
    the order in which the runtime enumerates the keys of the grouping
    object. *)
Theorem groupNames_follows_TIER_ORDER :
  forall names : list TableName,
    (forall n, In n names -> In (tier n) TIER_ORDER) ->
    groupNames tier ownKeys names
    = Ok (map
            (fun t =>
               GroupedName.mk _ t
                 (List.filter (fun n => String.eqb (tier n) t) names))
            (List.filter
               (fun t => existsb (fun n => String.eqb (tier n) t) names)
               TIER_ORDER)).
Proof.
  intros names Hknown. unfold groupNames.
  destruct (groups_grouped names) as (Hnodup & Hentries & Hkeys).
  set (entries := ownKeys _ (Lodash.groupBy names tier)) in *.
  set (groups := map (fun entry => GroupedName.mk _ (fst entry) (snd entry))
                   entries).
  set (key := fun gn : GroupedName => indexOf TIER_ORDER (GroupedName.tier gn)).
  assert (forall gn, In gn groups ->
            exists k values, gn = GroupedName.mk _ k values
                             /\ In (k, values) entries) as Hgroups.
  { intros gn Hgn. apply in_map_iff in Hgn as ([k values] & <- & Hin).
    exists k, values. split; [reflexivity|exact Hin]. }
  assert (forall gn, In gn groups ->
            exists n, In n names /\ tier n = GroupedName.tier gn) as Hoccurs.
  { intros gn Hgn. destruct (Hgroups gn Hgn) as (k & values & -> & Hin).
    destruct (Hentries k values Hin) as [Hnonempty ->].
    destruct (List.filter _ names) as [|n others] eqn:Efilter; [congruence|].
    assert (In n (List.filter (fun n => String.eqb (tier n) k) names)) as Hn
      by (rewrite Efilter; left; reflexivity).
    apply filter_In in Hn as [Hn E]. apply String.eqb_eq in E.
    exists n. split; [exact Hn|exact E]. }
  assert (forall gn, In gn groups -> In (GroupedName.tier gn) TIER_ORDER)
    as Hin_order.
  { intros gn Hgn. destruct (Hoccurs gn Hgn) as (n & Hn & <-). auto. }
  destruct (sortBy_Ok tierPosition key groups) as (sorted & -> & Hperm & Hsorted).
  { intros gn Hgn. unfold tierPosition, key.
    rewrite (proj2 (indexOf_In _ _) (Hin_order gn Hgn)). reflexivity. }
  f_equal.
  assert (forall gn, In gn sorted <-> In gn groups) as Hsame.
  { intros gn. split; apply Permutation_in;
      [|apply Permutation_sym]; exact Hperm. }
  assert (List.NoDup (map GroupedName.tier groups)) as Htiers.
  { unfold groups. rewrite map_map. cbn [GroupedName.tier]. exact Hnodup. }
  assert (StronglySorted (fun a b => (key a < key b)%Z) sorted) as Hstrict.
  { apply StronglySorted_strict; [exact Hsorted|].
    apply (Permutation_NoDup (l := map key groups));
      [apply Permutation_map; apply Permutation_sym; exact Hperm|].
    change (map key groups)
      with (map (fun gn => indexOf TIER_ORDER (GroupedName.tier gn)) groups).
    rewrite <- (map_map GroupedName.tier (indexOf TIER_ORDER)).
    apply NoDup_map_injective; [|exact Htiers].
    intros a b Ha _. apply indexOf_injective.
    apply in_map_iff in Ha as (gn & <- & Hgn). auto. }
  assert (map GroupedName.tier sorted
          = List.filter
              (fun t => existsb (fun n => String.eqb (tier n) t) names)
              TIER_ORDER) as Horder.
  { apply (StronglySorted_unique (indexOf TIER_ORDER)).
    - apply StronglySorted_map. exact Hstrict.
    - apply StronglySorted_filter.
      repeat (constructor; [|repeat constructor; cbn; lia]). constructor.
    - intros t. rewrite filter_In, in_map_iff, existsb_exists. split.
      + intros (gn & <- & Hgn). apply Hsame in Hgn.
        split; [auto|].
        destruct (Hoccurs gn Hgn) as (n & Hn & E).
        exists n. split; [exact Hn|apply String.eqb_eq; exact E].
      + intros (_ & n & Hn & E). apply String.eqb_eq in E. subst t.
        pose proof (Hkeys n Hn) as Hkey.
        apply in_map_iff in Hkey as ([k values] & Ek & Hin).
        cbn [fst] in Ek. subst k.
        exists (GroupedName.mk _ (tier n) values). split; [reflexivity|].
        apply Hsame. unfold groups. apply in_map_iff.
        exists (tier n, values). split; [reflexivity|exact Hin]. }
  rewrite <- Horder, map_map.
  rewrite <- (map_id sorted) at 1. apply map_ext_in.
  intros gn Hgn. apply Hsame in Hgn.
  destruct (Hgroups gn Hgn) as (k & values & -> & Hin).
  destruct (Hentries k values Hin) as [_ ->]. reflexivity.
Qed.

(** X22: when the tier of some name is not in [TIER_ORDER], no groups are
    returned: an [Error] is thrown whose message names a tier that is the
    tier of one of the names and is not in [TIER_ORDER]. *)
Theorem groupNames_throws_on_unexpected_tier :
  forall (names : list TableName) (n : TableName),
    In n names ->
    ~ In (tier n) TIER_ORDER ->
    exists unexpected,
      groupNames tier ownKeys names
      = Throw (Error ("unexpected tier: " +:+ tier unexpected))
      /\ In unexpected names
      /\ ~ In (tier unexpected) TIER_ORDER.
Proof.
  intros names n Hn Hunknown. unfold groupNames.
  destruct (groups_grouped names) as (Hnodup & Hentries & Hkeys).
  set (entries := ownKeys _ (Lodash.groupBy names tier)) in *.
  pose proof (Hkeys n Hn) as Hkey.
  apply in_map_iff in Hkey as ([k values] & Ek & Hin). cbn [fst] in Ek. subst k.
  destruct (sortBy_Throw tierPosition
              (map (fun entry => GroupedName.mk _ (fst entry) (snd entry)) entries)
              (GroupedName.mk _ (tier n) values)
              (Error ("unexpected tier: " +:+ tier n)))
    as (gn & e & Hgn & Egn & ->).
  { apply in_map_iff. exists (tier n, values). split; [reflexivity|exact Hin]. }
  { unfold tierPosition. cbn [GroupedName.tier].
    destruct (indexOf TIER_ORDER (tier n) <? 0)%Z eqn:Eposition; [reflexivity|].
    apply indexOf_In in Eposition. contradiction. }
  apply in_map_iff in Hgn as ([k' values'] & <- & Hin').
  cbn [fst snd] in Egn. unfold tierPosition in Egn. cbn [GroupedName.tier] in Egn.
  destruct (indexOf TIER_ORDER k' <? 0)%Z eqn:Eposition; [|discriminate].
  injection Egn as <-.
  destruct (Hentries k' values' Hin') as [Hnonempty ->].
  destruct (List.filter _ names) as [|n' others] eqn:Efilter; [congruence|].
  assert (In n' (List.filter (fun n => String.eqb (tier n) k') names)) as Hn'
    by (rewrite Efilter; left; reflexivity).
  apply filter_In in Hn' as [Hn' E]. apply String.eqb_eq in E. subst k'.
  exists n'. split; [reflexivity|]. split; [exact Hn'|].
  intros Habsurd. apply indexOf_In in Habsurd. congruence.
Qed.

End SidebarGroups.

(** X21 on five names of two tiers. *)
Lemma groupNames_of_lookup_and_manual :
  (forall (A : Type) (object : list (string * A)), Permutation object object)
  /\ (forall n,
         In n ["#country"; "orders"; "#unit"; "customers"; "orders__detail"] ->
         In (tierOf n) TIER_ORDER)
  /\ groupNames (H := Reference.common) tierOf (fun _ object => object)
       ["#country"; "orders"; "#unit"; "customers"; "orders__detail"]
     = Ok [ GroupedName.mk Reference.common "manual"
              ["orders"; "customers"; "orders__detail"];
            GroupedName.mk Reference.common "lookup" ["#country"; "#unit"] ].
Proof.
  assert (forall (A : Type) (object : list (string * A)),
             Permutation object object) as Hperm by reflexivity.
  assert (forall n,
             In n ["#country"; "orders"; "#unit"; "customers"; "orders__detail"] ->
             In (tierOf n) TIER_ORDER) as Hknown.
  { intros n [<-|[<-|[<-|[<-|[<-|[]]]]]]; cbn; auto. }
  split; [exact Hperm|]. split; [exact Hknown|].
  exact (groupNames_follows_TIER_ORDER (H := Reference.common) tierOf
           (fun _ object => object) Hperm _ Hknown).
Defined.

(** X22 on a name of a tier that is not in [TIER_ORDER]. *)
Lemma groupNames_of_unexpected_tier :
  exists unexpected,
    groupNames (H := Reference.common) tierOf (fun _ object => object)
      ["orders"; "?draft"; "#unit"]
    = Throw (Error ("unexpected tier: " +:+ tierOf unexpected))
    /\ In unexpected ["orders"; "?draft"; "#unit"]
    /\ ~ In (tierOf unexpected) TIER_ORDER.
Proof.
  apply (groupNames_throws_on_unexpected_tier (H := Reference.common) tierOf
           (fun _ object => object) (fun _ _ => Permutation_refl _)
           ["orders"; "?draft"; "#unit"] "?draft").
  - right. left. reflexivity.
  - cbn. intros [E|[E|[E|[E|[E|[E|[]]]]]]]; discriminate.
Defined.
